(** * MCP client, SSE frame parser and order-processing route

    A shallow embedding of
    - [web/src/lib/mcp-client.ts]: the [SSEParser] and [MCPClient] classes,
    - the [process-order] route handler ([POST]) that drives two clients
      and publishes progress events.

    Strings are JavaScript strings whose code units are below 256, one
    [ascii] per code unit.  Callbacks are modelled by the list of values
    they are called with, in call order.  Promises, timers and in-flight
    HTTP calls live in an explicit world; the environment (network, timer
    expiry, passage of time) acts through events. *)

From Stdlib Require Import ZArith Ascii String Lia.
From stdpp Require Import base option list strings gmap fin_maps pretty.

Local Open Scope string_scope.
Local Open Scope list_scope.
Set Warnings "-register-all".

(** ** JavaScript string primitives used by the sources *)

Module JSString.

(** Code units that [String.prototype.trim] strips (those below 256):
    TAB, LF, VT, FF, CR, SPACE and NBSP. *)
Definition is_white_space (c : ascii) : bool :=
  let n := nat_of_ascii c in
  (n =? 9)%nat || (n =? 10)%nat || (n =? 11)%nat || (n =? 12)%nat
  || (n =? 13)%nat || (n =? 32)%nat || (n =? 160)%nat.

Definition newline : ascii := ascii_of_nat 10.
Definition nl : string := String newline "".

Definition is_empty (s : string) : bool :=
  match s with "" => true | _ => false end.

(** A string is falsy exactly when it is empty. *)
Definition truthy (s : string) : bool := negb (is_empty s).

Fixpoint trimStart (s : string) : string :=
  match s with
  | "" => ""
  | String c s' => if is_white_space c then trimStart s' else s
  end.

Fixpoint trimEnd (s : string) : string :=
  match s with
  | "" => ""
  | String c s' =>
      let r := trimEnd s' in
      if is_white_space c && is_empty r then "" else String c r
  end.

Definition trim (s : string) : string := trimEnd (trimStart s).

(** [s.startsWith(p)] *)
Fixpoint startsWith (s p : string) : bool :=
  match p, s with
  | "", _ => true
  | String a p', String b s' => if decide (a = b) then startsWith s' p' else false
  | String _ _, "" => false
  end.

(** [s.substring(start)] *)
Fixpoint substring (start : nat) (s : string) : string :=
  match start, s with
  | O, _ => s
  | S n, String _ s' => substring n s'
  | S _, "" => ""
  end.

(** [s.split("\n")]: never empty; the last element is the text after the
    last newline. *)
Fixpoint split_nl (s : string) : list string :=
  match s with
  | "" => [""]
  | String c s' =>
      if decide (c = newline) then "" :: split_nl s'
      else match split_nl s' with
           | x :: xs => String c x :: xs
           | [] => [String c ""]
           end
  end.

(** [lines.pop()]: the array without its last element, and that element
    ([None] stands for [undefined], on an empty array). *)
Fixpoint pop (l : list string) : list string * option string :=
  match l with
  | [] => ([], None)
  | [x] => ([], Some x)
  | x :: xs => let '(ys, last) := pop xs in (x :: ys, last)
  end.

(** [x || ""] for [x] a string or [undefined]. *)
Definition or_empty (x : option string) : string :=
  match x with
  | Some s => if truthy s then s else ""
  | None => ""
  end.

Fixpoint has_newline (s : string) : bool :=
  match s with
  | "" => false
  | String c s' => if decide (c = newline) then true else has_newline s'
  end.

End JSString.

(** ** [SSEParser] *)

Module SSEParser.
Import JSString.

(** The parser object: the carry-over [buffer].  The [onMessage] callback
    is represented by the payloads it receives. *)
Record t := mk { buffer : string }.

Definition new : t := {| buffer := "" |}.

(** Loop state of [parse]: the local [currentData] and the calls made to
    [onMessage] so far (oldest first). *)
Record loop := mkLoop { currentData : string; delivered : list string }.

(** One iteration of [for (const line of lines)]. *)
Definition parse_line (st : loop) (line : string) : loop :=
  let trimmed := trim line in
  if is_empty trimmed then
    if truthy (currentData st)
    then {| currentData := ""; delivered := delivered st ++ [currentData st] |}
    else st
  else if startsWith trimmed "data:" then
    {| currentData := trim (substring 5 trimmed); delivered := delivered st |}
  else st.

(** [parse(chunk)]: the payloads handed to [onMessage] by this call and the
    parser afterwards. *)
Definition parse (chunk : string) (p : t) : list string * t :=
  let buffer1 := buffer p +:+ chunk in
  let '(lines, last) := pop (split_nl buffer1) in
  let buffer2 := or_empty last in
  let st := fold_left parse_line lines {| currentData := ""; delivered := [] |} in
  (delivered st, {| buffer := buffer2 |}).

(** Feeding successive chunks, as the read loop of [startSSEStream] does:
    all payloads delivered, in order. *)
Fixpoint parse_all (chunks : list string) (p : t) : list string * t :=
  match chunks with
  | [] => ([], p)
  | c :: cs =>
      let '(out1, p1) := parse c p in
      let '(out2, p2) := parse_all cs p1 in
      (out1 ++ out2, p2)
  end.

Definition is_data_line (line : string) : bool :=
  let trimmed := trim line in
  negb (is_empty trimmed) && startsWith trimmed "data:".

Definition payload (line : string) : string :=
  trim (substring 5 (trim line)).

Definition is_blank (line : string) : bool := is_empty (trim line).

(** The text of a frame: each line followed by a newline, then the
    terminating blank line. *)
Definition frame_text (lines : list string) : string :=
  fold_right (fun l acc => l +:+ nl +:+ acc) nl lines.

End SSEParser.

(** ** Errors *)

Module Error.

(** An [Error] object: its [name] and [message]. *)
Record t := mk { name : string; message : string }.

(** [new Error(msg)] *)
Definition new (msg : string) : t := {| name := "Error"; message := msg |}.

Definition TypeError (msg : string) : t := {| name := "TypeError"; message := msg |}.

(** The rejection of a fetch whose signal was aborted. *)
Definition AbortError : t :=
  {| name := "AbortError"; message := "This operation was aborted" |}.

(** What [ToPrimitive] throws for an object that has no usable [toString]
    and [valueOf]. *)
Definition cannot_convert : t :=
  TypeError "Cannot convert object to primitive value".

(** What [controller.enqueue] and [controller.close] throw on a stream
    that is no longer readable. *)
Definition invalid_state : t :=
  TypeError "Invalid state: Controller is already closed".

End Error.

(** ** Numbers *)

Module Number.

(** A JavaScript number found in a JSON text.  The code never computes
    with such a number: it converts it to a string (template literals and
    [String]) and tests it for truthiness.  A number is given by these two
    observations: the text [Number.prototype.toString] yields for it, and
    whether it is different from zero. *)
Record t := mk { text : string; nonzero : bool }.

End Number.

(** ** Values exchanged with the servers *)

Module JSON.

(** A parsed JSON text; an object is its list of own properties. *)
Inductive value :=
| Null
| Bool (b : bool)
| Num (n : Number.t)
| Str (s : string)
| Arr (items : list value)
| Obj (fields : list (string * value)).

(** A JavaScript value that may be [undefined]. *)
Definition maybe := option value.

(** Truthiness, as tested by [if (x)], [!x] and [x || y]. *)
Definition truthy (x : maybe) : bool :=
  match x with
  | None | Some Null => false
  | Some (Bool b) => b
  | Some (Num n) => Number.nonzero n
  | Some (Str s) => JSString.truthy s
  | Some (Arr _) | Some (Obj _) => true
  end.

Fixpoint lookup_field (k : string) (fields : list (string * value)) : maybe :=
  match fields with
  | [] => None
  | (k', v) :: rest => if decide (k = k') then Some v else lookup_field k rest
  end.

(** String conversion, as performed by a template literal, by [String]
    and by [JSON.parse] on its argument.  An array is joined with commas,
    [null] items giving the empty string.  An object converts through its
    [toString] property: an own property of that name is not callable in a
    parsed JSON text, and the conversion throws; otherwise it is
    [Object.prototype.toString]. *)
Fixpoint to_string (v : value) : Error.t + string :=
  match v with
  | Null => inr "null"
  | Bool true => inr "true"
  | Bool false => inr "false"
  | Num n => inr (Number.text n)
  | Str s => inr s
  | Arr items =>
      match
        (fix join (l : list value) : Error.t + list string :=
           match l with
           | [] => inr []
           | x :: rest =>
               match match x with Null => inr "" | _ => to_string x end with
               | inl e => inl e
               | inr s =>
                   match join rest with
                   | inl e => inl e
                   | inr ss => inr (s :: ss)
                   end
               end
           end) items
      with
      | inl e => inl e
      | inr texts => inr (String.concat "," texts)
      end
  | Obj fields =>
      match lookup_field "toString" fields with
      | Some _ => inl Error.cannot_convert
      | None => inr "[object Object]"
      end
  end.

Definition maybe_to_string (x : maybe) : Error.t + string :=
  match x with
  | None => inr "undefined"
  | Some v => to_string v
  end.

End JSON.

(** ** Completions *)

(** How a call or an awaited operation ends: it returns, it throws, or it
    stays suspended at an [await] that never resumes. *)
Inductive Outcome (A : Type) :=
| Returns (a : A)
| Throws (e : Error.t)
| Suspends.
Arguments Returns {A} a.
Arguments Throws {A} e.
Arguments Suspends {A}.

(** Property access [x.k]: a [TypeError] on [undefined] and [null]. *)
Definition get_prop (x : JSON.maybe) (k : string) : Error.t + JSON.maybe :=
  match x with
  | None =>
      inl (Error.TypeError
             ("Cannot read properties of undefined (reading '" +:+ k +:+ "')"))
  | Some JSON.Null =>
      inl (Error.TypeError
             ("Cannot read properties of null (reading '" +:+ k +:+ "')"))
  | Some (JSON.Obj fields) => inr (JSON.lookup_field k fields)
  | Some _ => inr None
  end.

(** ** Wire messages ([mcp-client.ts], interfaces) *)

Module JSONRPCRequest.
(** [jsonrpc] is the constant ["2.0"]. *)
Record t := mk { id : string; method : string; params : JSON.value }.
End JSONRPCRequest.

Module RpcError.
Record t := mk { code : Number.t; message : string; data : JSON.maybe }.
End RpcError.

Module JSONRPCResponse.
Record t := mk { id : string; result : JSON.maybe; error : option RpcError.t }.
End JSONRPCResponse.

(** The part of a fetch [Response] that the client reads. *)
Module Response.
Record t := mk { ok : bool; status : Z; statusText : string }.
End Response.

(** ** The client and its runtime *)

Module MCP.

(** Promises made by [sendRequest], addressed by their position in the
    runtime's promise list.  A settled promise ignores later calls of
    its [resolve] and [reject] functions. *)
Inductive PromiseState :=
| Unsettled
| Fulfilled (v : JSONRPCResponse.t)
| Rejected (e : Error.t).

(** An entry of the pending-request table: [resolve] and [reject] name
    the promise they settle, [timeout] the timer to clear. *)
Record PendingRequest := mkPending { resolve : nat; reject : nat; timeout : nat }.

(** The callback given to [setTimeout] in [sendRequest], with the values
    it closes over, and the time from which it may run. *)
Record Timer := mkTimer { deadline : Z; timer_requestId : string; timer_reject : nat }.

(** Progress of the fetch made by [postMessage] through
    [fetchWithTimeout]: until the response headers arrive the fetch's own
    abort timer is armed; afterwards only the body is awaited; at the end
    [postMessage] has resolved or rejected. *)
Inductive Phase :=
| AwaitingHeaders (abort_deadline : Z)
| AwaitingBody
| Finished.

(** A call [postMessage(request)] together with what the [.catch]
    handler installed by [sendRequest] closes over. *)
Record Post := mkPost {
  request : JSONRPCRequest.t;
  catch_timeout : nat;
  catch_reject : nat;
  phase : Phase
}.

(** A background read started by [startSSEStream]. *)
Record Stream := mkStream {
  signal : nat;
  parser : SSEParser.t;
  received : list string;
  ended : bool
}.

(** Fields of [MCPClient]. *)
Record Client := mkClient {
  baseUrl : string;
  sseController : option nat;
  pendingRequests : gmap string PendingRequest;
  requestIdCounter : N;
  connected : bool
}.

(** What the JavaScript runtime holds for this client: the clock, the
    promises, the timers ([None]: cleared or run), the posts made so far,
    the abort controllers (their [aborted] flag) and the streams. *)
Record Runtime := mkRuntime {
  now : Z;
  promises : list PromiseState;
  timers : list (option Timer);
  posts : list Post;
  controllers : list bool;
  streams : list Stream
}.

Record World := mkWorld { client : Client; rt : Runtime }.

Definition connectTimeout : Z := 10000.
Definition requestTimeout : Z := 10000.

(** *** Field updates *)

Definition set_sseController (c : option nat) (w : World) : World :=
  let k := client w in
  {| client := {| baseUrl := baseUrl k; sseController := c;
                  pendingRequests := pendingRequests k;
                  requestIdCounter := requestIdCounter k;
                  connected := connected k |};
     rt := rt w |}.

Definition set_pendingRequests (m : gmap string PendingRequest) (w : World) : World :=
  let k := client w in
  {| client := {| baseUrl := baseUrl k; sseController := sseController k;
                  pendingRequests := m;
                  requestIdCounter := requestIdCounter k;
                  connected := connected k |};
     rt := rt w |}.

Definition set_requestIdCounter (n : N) (w : World) : World :=
  let k := client w in
  {| client := {| baseUrl := baseUrl k; sseController := sseController k;
                  pendingRequests := pendingRequests k;
                  requestIdCounter := n;
                  connected := connected k |};
     rt := rt w |}.

Definition set_connected (b : bool) (w : World) : World :=
  let k := client w in
  {| client := {| baseUrl := baseUrl k; sseController := sseController k;
                  pendingRequests := pendingRequests k;
                  requestIdCounter := requestIdCounter k;
                  connected := b |};
     rt := rt w |}.

Definition set_now (t : Z) (w : World) : World :=
  let r := rt w in
  {| client := client w;
     rt := {| now := t; promises := promises r; timers := timers r;
              posts := posts r; controllers := controllers r;
              streams := streams r |} |}.

Definition set_promises (ps : list PromiseState) (w : World) : World :=
  let r := rt w in
  {| client := client w;
     rt := {| now := now r; promises := ps; timers := timers r;
              posts := posts r; controllers := controllers r;
              streams := streams r |} |}.

Definition set_timers (ts : list (option Timer)) (w : World) : World :=
  let r := rt w in
  {| client := client w;
     rt := {| now := now r; promises := promises r; timers := ts;
              posts := posts r; controllers := controllers r;
              streams := streams r |} |}.

Definition set_posts (fs : list Post) (w : World) : World :=
  let r := rt w in
  {| client := client w;
     rt := {| now := now r; promises := promises r; timers := timers r;
              posts := fs; controllers := controllers r;
              streams := streams r |} |}.

Definition set_controllers (cs : list bool) (w : World) : World :=
  let r := rt w in
  {| client := client w;
     rt := {| now := now r; promises := promises r; timers := timers r;
              posts := posts r; controllers := cs;
              streams := streams r |} |}.

Definition set_streams (ss : list Stream) (w : World) : World :=
  let r := rt w in
  {| client := client w;
     rt := {| now := now r; promises := promises r; timers := timers r;
              posts := posts r; controllers := controllers r;
              streams := ss |} |}.

(** *** Construction *)

(** [url.replace(/\/+$/, "")] *)
Fixpoint strip_trailing_slashes (url : string) : string :=
  match url with
  | "" => ""
  | String c s' =>
      let r := strip_trailing_slashes s' in
      if decide (c = "/"%char) then
        if JSString.is_empty r then "" else String c r
      else String c r
  end.

(** [new MCPClient(url)], in a runtime whose clock reads [t0]. *)
Definition new (url : string) (t0 : Z) : World :=
  {| client := {| baseUrl := strip_trailing_slashes url;
                  sseController := None;
                  pendingRequests := ∅;
                  requestIdCounter := 0;
                  connected := false |};
     rt := {| now := t0; promises := []; timers := []; posts := [];
              controllers := []; streams := [] |} |}.

(** *** Primitives of the runtime *)

(** Calling the [resolve] or [reject] function of promise [p]: only an
    unsettled promise changes. *)
Definition settle_in (p : nat) (s : PromiseState) (ps : list PromiseState)
  : list PromiseState :=
  match ps !! p with
  | Some Unsettled => <[p := s]> ps
  | _ => ps
  end.

Definition settle (p : nat) (s : PromiseState) (w : World) : World :=
  set_promises (settle_in p s (promises (rt w))) w.

Definition call_resolve (p : nat) (v : JSONRPCResponse.t) : World → World :=
  settle p (Fulfilled v).

Definition call_reject (p : nat) (e : Error.t) : World → World :=
  settle p (Rejected e).

Definition clearTimeout (t : nat) (w : World) : World :=
  set_timers (<[t := None]> (timers (rt w))) w.

(** [this.pendingRequests.delete(id)] *)
Definition pending_delete (id : string) (w : World) : World :=
  set_pendingRequests (delete id (pendingRequests (client w))) w.

(** [controller.abort()] *)
Definition abort (c : nat) (w : World) : World :=
  set_controllers (<[c := true]> (controllers (rt w))) w.

(** [++n] on a number holding an integer: exact up to [2^53], where the
    sum rounds back to [2^53]. *)
Definition pre_increment (n : N) : N :=
  if (n <? 2 ^ 53)%N then (n + 1)%N else n.

(** [new Error(`Request timeout after ${ms}ms`)] *)
Definition timeout_error (ms : Z) : Error.t :=
  Error.new ("Request timeout after " +:+ pretty ms +:+ "ms").

(** The [catch] block of [fetchWithTimeout]. *)
Definition fetch_error (error : Error.t) (timeoutMs : Z) : Error.t :=
  if decide (Error.name error = "AbortError") then timeout_error timeoutMs
  else error.

(** [fetchWithTimeout(url, options, timeoutMs)] given how the fetch
    settles; an aborted fetch rejects with [Error.AbortError]. *)
Definition fetchWithTimeout (settles : Error.t + Response.t) (timeoutMs : Z)
  : Outcome Response.t :=
  match settles with
  | inr response => Returns response
  | inl error => Throws (fetch_error error timeoutMs)
  end.

(** *** [MCPClient] methods that do not await *)

Definition generateRequestId (w : World) : string * World :=
  let c := pre_increment (requestIdCounter (client w)) in
  ("req_" +:+ pretty c +:+ "_" +:+ pretty (now (rt w)), set_requestIdCounter c w).

(** [sendRequest(method, params)] up to its return: the promise handed
    back, and the world in which the timer is armed, the table holds the
    entry and the post is in flight. *)
Definition sendRequest (method : string) (params : JSON.value) (w : World)
  : nat * World :=
  let '(requestId, w1) := generateRequestId w in
  let request := JSONRPCRequest.mk requestId method params in
  let p := length (promises (rt w1)) in
  let w2 := set_promises (promises (rt w1) ++ [Unsettled]) w1 in
  let t := length (timers (rt w2)) in
  let w3 :=
    set_timers
      (timers (rt w2)
         ++ [Some (mkTimer (now (rt w2) + requestTimeout) requestId p)]) w2 in
  let w4 :=
    set_pendingRequests
      (<[requestId := mkPending p p t]> (pendingRequests (client w3))) w3 in
  let w5 :=
    set_posts
      (posts (rt w4)
         ++ [mkPost request t p
               (AwaitingHeaders (now (rt w4) + requestTimeout))]) w4 in
  (p, w5).

(** The [setTimeout] callback of [sendRequest]. *)
Definition on_timeout (tm : Timer) (w : World) : World :=
  call_reject (timer_reject tm) (timeout_error requestTimeout)
    (pending_delete (timer_requestId tm) w).

(** The [.catch] handler of [sendRequest], run when [postMessage]
    rejects with [error]. *)
Definition on_post_rejected (po : Post) (error : Error.t) (w : World) : World :=
  call_reject (catch_reject po) error
    (pending_delete (JSONRPCRequest.id (request po))
       (clearTimeout (catch_timeout po) w)).

(** The end of [postMessage] once [response.json()] gave [data]. *)
Definition on_post_data (po : Post) (data : JSONRPCResponse.t) (w : World) : World :=
  match pendingRequests (client w) !! JSONRPCRequest.id (request po) with
  | Some pending =>
      call_resolve (resolve pending) data
        (pending_delete (JSONRPCRequest.id (request po))
           (clearTimeout (timeout pending) w))
  | None => w
  end.

(** One iteration of the first loop of [close]. *)
Definition close_entry (id : string) (pending : PendingRequest) (w : World) : World :=
  call_reject (reject pending) (Error.new "Connection closed")
    (clearTimeout (timeout pending) w).

(** [close()] *)
Definition close (w : World) : World :=
  let w1 := map_fold close_entry w (pendingRequests (client w)) in
  let w2 := set_pendingRequests ∅ w1 in
  let w3 :=
    match sseController (client w2) with
    | Some c => set_sseController None (abort c w2)
    | None => w2
    end in
  set_connected false w3.

(** [isConnected()] *)
Definition isConnected (w : World) : bool := connected (client w).

(** *** What can happen between two turns of the event loop *)

Inductive Event :=
| Tick (dt : N)
    (** the clock advances by [dt] milliseconds *)
| TimerFires (t : nat)
    (** the timer [t] of [sendRequest] runs, not before its deadline *)
| PostAborted (f : nat)
    (** the timer of [fetchWithTimeout] aborts the fetch of post [f],
        not before its deadline; the fetch rejects with an AbortError *)
| PostFetchRejects (f : nat) (e : Error.t)
    (** the fetch of post [f] rejects (network failure) *)
| PostFetchResolves (f : nat) (r : Response.t)
    (** the response headers of post [f] arrive *)
| PostBodyParsed (f : nat) (data : JSONRPCResponse.t)
    (** [response.json()] of post [f] resolves *)
| PostBodyFails (f : nat) (e : Error.t)
    (** [response.json()] of post [f] rejects *)
| StreamChunk (s : nat) (chunk : string)
    (** [reader.read()] of stream [s] yields a chunk *)
| StreamEnds (s : nat)
    (** [reader.read()] of stream [s] reports [done] *)
| StreamFails (s : nat) (e : Error.t)
    (** [startSSEStream] of stream [s] rejects; its [.catch] closes *)
| CallSendRequest (method : string) (params : JSON.value)
    (** the client's owner starts another request *)
| CallClose
    (** the client's owner calls [close()] *).

Definition set_phase (f : nat) (po : Post) (ph : Phase) (w : World) : World :=
  set_posts
    (<[f := mkPost (request po) (catch_timeout po) (catch_reject po) ph]>
       (posts (rt w))) w.

Definition finish_post (f : nat) (po : Post) (w : World) : World :=
  set_phase f po Finished w.

Definition http_error (r : Response.t) : Error.t :=
  Error.new ("HTTP error: " +:+ pretty (Response.status r) +:+ " "
             +:+ Response.statusText r).

Definition is_aborted (c : nat) (w : World) : bool :=
  match controllers (rt w) !! c with
  | Some b => b
  | None => false
  end.

(** A chunk read by stream [s] goes through its parser. *)
Definition stream_chunk (s : nat) (st : Stream) (chunk : string) (w : World) : World :=
  let '(out, parser') := SSEParser.parse chunk (parser st) in
  set_streams
    (<[s := mkStream (signal st) parser' (received st ++ out) (ended st)]>
       (streams (rt w))) w.

Definition stream_end (s : nat) (st : Stream) (w : World) : World :=
  set_streams
    (<[s := mkStream (signal st) (parser st) (received st) true]>
       (streams (rt w))) w.

(** An event that is not enabled leaves the world as it is. *)
Definition step (ev : Event) (w : World) : World :=
  match ev with
  | Tick dt => set_now (now (rt w) + Z.of_N dt) w
  | TimerFires t =>
      match timers (rt w) !! t with
      | Some (Some tm) =>
          if decide (deadline tm ≤ now (rt w))%Z
          then on_timeout tm (clearTimeout t w)
          else w
      | _ => w
      end
  | PostAborted f =>
      match posts (rt w) !! f with
      | Some po =>
          match phase po with
          | AwaitingHeaders d =>
              if decide (d ≤ now (rt w))%Z
              then on_post_rejected po
                     (fetch_error Error.AbortError requestTimeout)
                     (finish_post f po w)
              else w
          | _ => w
          end
      | _ => w
      end
  | PostFetchRejects f e =>
      match posts (rt w) !! f with
      | Some po =>
          match phase po with
          | AwaitingHeaders _ =>
              on_post_rejected po (fetch_error e requestTimeout)
                (finish_post f po w)
          | _ => w
          end
      | _ => w
      end
  | PostFetchResolves f r =>
      match posts (rt w) !! f with
      | Some po =>
          match phase po with
          | AwaitingHeaders _ =>
              if Response.ok r then set_phase f po AwaitingBody w
              else on_post_rejected po (http_error r) (finish_post f po w)
          | _ => w
          end
      | _ => w
      end
  | PostBodyParsed f data =>
      match posts (rt w) !! f with
      | Some po =>
          match phase po with
          | AwaitingBody => on_post_data po data (finish_post f po w)
          | _ => w
          end
      | _ => w
      end
  | PostBodyFails f e =>
      match posts (rt w) !! f with
      | Some po =>
          match phase po with
          | AwaitingBody => on_post_rejected po e (finish_post f po w)
          | _ => w
          end
      | _ => w
      end
  | StreamChunk s chunk =>
      match streams (rt w) !! s with
      | Some st =>
          if ended st || is_aborted (signal st) w then w
          else stream_chunk s st chunk w
      | None => w
      end
  | StreamEnds s =>
      match streams (rt w) !! s with
      | Some st => if ended st then w else stream_end s st w
      | None => w
      end
  | StreamFails s e =>
      match streams (rt w) !! s with
      | Some st => if ended st then w else close (stream_end s st w)
      | None => w
      end
  | CallSendRequest method params => snd (sendRequest method params w)
  | CallClose => close w
  end.

(** The world after a sequence of events. *)
Definition run (evs : list Event) (w : World) : World :=
  fold_left (fun w ev => step ev w) evs w.

(** *** [await] *)

(** [await p]: the events of the schedule happen one by one until
    promise [p] is settled; the awaiting function then resumes with the
    value or the error.  [Suspends] when the schedule never settles [p]. *)
Fixpoint await (p : nat) (sched : list Event) (w : World)
  : Outcome JSONRPCResponse.t * World :=
  match promises (rt w) !! p with
  | Some (Fulfilled v) => (Returns v, w)
  | Some (Rejected e) => (Throws e, w)
  | _ =>
      match sched with
      | [] => (Suspends, w)
      | ev :: rest => await p rest (step ev w)
      end
  end.

(** *** [MCPClient] methods that await *)

(** What the network does while [connect()] runs: the events during the
    health check, how the health-check fetch settles, and the events
    while the initialize request is awaited. *)
Record ConnectEnv := mkConnectEnv {
  health_events : list Event;
  health : Error.t + Response.t;
  initialize_events : list Event
}.

Definition initialize_params : JSON.value :=
  JSON.Obj
    [("protocolVersion", JSON.Str "2024-11-05");
     ("capabilities", JSON.Obj []);
     ("clientInfo",
       JSON.Obj [("name", JSON.Str "mcp-client-ts");
                 ("version", JSON.Str "1.0.0")])].

(** [this.sseController = new AbortController()] and the start of
    [startSSEStream] with a fresh parser. *)
Definition start_stream (w : World) : World :=
  let c := length (controllers (rt w)) in
  let w1 := set_controllers (controllers (rt w) ++ [false]) w in
  let w2 := set_sseController (Some c) w1 in
  set_streams (streams (rt w2) ++ [mkStream c SSEParser.new [] false]) w2.

(** The [catch] block of [connect]. *)
Definition connect_catch (error : Error.t) (w : World) : Outcome unit * World :=
  (Throws error, close w).

Definition health_check_error (r : Response.t) : Error.t :=
  Error.new ("Server health check failed: " +:+ pretty (Response.status r)
             +:+ " " +:+ Response.statusText r).

Definition initialize_error (err : RpcError.t) : Error.t :=
  Error.new ("Initialize failed: " +:+ RpcError.message err +:+ " ("
             +:+ Number.text (RpcError.code err) +:+ ")").

(** [connect()] *)
Definition connect (env : ConnectEnv) (w : World) : Outcome unit * World :=
  if connected (client w) then
    (Throws (Error.new "Already connected to MCP server"), w)
  else
    let w1 := run (health_events env) w in
    match fetchWithTimeout (health env) connectTimeout with
    | Throws error => connect_catch error w1
    | Suspends => (Suspends, w1)
    | Returns healthCheck =>
        if negb (Response.ok healthCheck) then
          connect_catch (health_check_error healthCheck) w1
        else
          let '(p, w2) := sendRequest "initialize" initialize_params w1 in
          match await p (initialize_events env) w2 with
          | (Throws error, w3) => connect_catch error w3
          | (Suspends, w3) => (Suspends, w3)
          | (Returns initResponse, w3) =>
              match JSONRPCResponse.error initResponse with
              | Some err => connect_catch (initialize_error err) w3
              | None => (Returns tt, set_connected true (start_stream w3))
              end
          end
    end.

Definition not_connected_error : Error.t :=
  Error.new "Not connected to MCP server. Call connect() first.".

Definition list_tools_error (err : RpcError.t) : Error.t :=
  Error.new ("Failed to list tools: " +:+ RpcError.message err +:+ " ("
             +:+ Number.text (RpcError.code err) +:+ ")").

(** [x || []] *)
Definition or_empty_array (x : JSON.maybe) : JSON.value :=
  match x with
  | Some v => if JSON.truthy x then v else JSON.Arr []
  | None => JSON.Arr []
  end.

(** [listTools()]; [sched] is what happens while the request is awaited. *)
Definition listTools (sched : list Event) (w : World) : Outcome JSON.value * World :=
  if negb (connected (client w)) then (Throws not_connected_error, w)
  else
    let '(p, w1) := sendRequest "tools/list" (JSON.Obj []) w in
    match await p sched w1 with
    | (Throws error, w2) => (Throws error, w2)
    | (Suspends, w2) => (Suspends, w2)
    | (Returns response, w2) =>
        match JSONRPCResponse.error response with
        | Some err => (Throws (list_tools_error err), w2)
        | None =>
            match get_prop (JSONRPCResponse.result response) "tools" with
            | inl type_error => (Throws type_error, w2)
            | inr tools => (Returns (or_empty_array tools), w2)
            end
        end
    end.

(** What the [if (response.error)] block of [callTool] throws: the error
    it builds, or the [TypeError] of [String(response.error.data)]. *)
Definition tool_call_error (err : RpcError.t) : Error.t :=
  match
    if JSON.truthy (RpcError.data err) then
      match JSON.maybe_to_string (RpcError.data err) with
      | inl type_error => inl type_error
      | inr text => inr (RpcError.message err +:+ ": " +:+ text)
      end
    else inr (RpcError.message err)
  with
  | inl type_error => type_error
  | inr errorMessage =>
      Error.new ("Tool call failed: " +:+ errorMessage +:+ " ("
                 +:+ Number.text (RpcError.code err) +:+ ")")
  end.

(** [callTool(toolName, args)] *)
Definition callTool (toolName : string) (args : JSON.value)
    (sched : list Event) (w : World) : Outcome JSON.maybe * World :=
  if negb (connected (client w)) then (Throws not_connected_error, w)
  else
    let '(p, w1) :=
      sendRequest "tools/call"
        (JSON.Obj [("name", JSON.Str toolName); ("arguments", args)]) w in
    match await p sched w1 with
    | (Throws error, w2) => (Throws error, w2)
    | (Suspends, w2) => (Suspends, w2)
    | (Returns response, w2) =>
        match JSONRPCResponse.error response with
        | Some err => (Throws (tool_call_error err), w2)
        | None => (Returns (JSONRPCResponse.result response), w2)
        end
    end.

(** [close()] as a call: it has no statement that can throw. *)
Definition call_close (w : World) : Outcome unit * World :=
  (Returns tt, close w).

End MCP.

(** ** The [process-order] route handler *)

Module ProcessOrder.

Inductive StatusState := idle | running | completed | failed.
Inductive StepState := step_running | step_success | step_error.

(** The [AgentEvent] union.  [failed] is the status state ["error"],
    [step_error] the step state ["error"]; [details] is the error whose
    stack the event carries. *)
Inductive AgentEvent :=
| EvStatus (state : StatusState) (message : option string) (ts : Z)
| EvStep (id title : string) (state : StepState) (ts : Z) (data : JSON.maybe)
| EvResult (ts : Z) (orderId : string) (email : JSON.maybe)
    (emailSent : option bool) (message : string)
| EvError (ts : Z) (message : string) (details : option Error.t).

Inductive Who := crmClient | emailClient.

(** Calls the handler makes on its two clients. *)
Inductive Call :=
| Connect (c : Who)
| CallTool (c : Who) (toolName : string) (args : JSON.value)
| Close (c : Who).

(** What the handler's surroundings answer: the successive readings of
    [Date.now()], how each awaited client call ends, and whether the
    consumer of the response stream cancels it while that call is awaited
    (the handler runs without interruption between two awaits, and up to
    its first await within the constructor of the stream). *)
Record Oracle := mkOracle {
  clock : nat → Z;
  connect : Who → Outcome unit;
  callTool : Who → string → JSON.value → Outcome JSON.maybe;
  cancelled_during : Call → bool
}.

(** State of one run: clock readings consumed, frames enqueued on the
    outbound stream (oldest first), calls the handler made on its clients
    (oldest first), the number of [controller.close()] calls that closed
    the stream, and whether the consumer has cancelled the stream. *)
Record State := mkState {
  ticks : nat;
  enqueued : list AgentEvent;
  calls : list Call;
  stream_closes : nat;
  cancelled : bool
}.

Definition initial : State :=
  {| ticks := 0; enqueued := []; calls := []; stream_closes := 0;
     cancelled := false |}.

(** Computations of the handler. *)
Definition M (A : Type) : Type := State → Outcome A * State.

Definition ret {A} (a : A) : M A := fun s => (Returns a, s).

Definition throw {A} (e : Error.t) : M A := fun s => (Throws e, s).

Definition bind {A B} (m : M A) (k : A → M B) : M B :=
  fun s =>
    match m s with
    | (Returns a, s') => k a s'
    | (Throws e, s') => (Throws e, s')
    | (Suspends, s') => (Suspends, s')
    end.

Notation "'let*' x ':=' m 'in' k" := (bind m (fun x => k))
  (at level 10, x pattern, m at level 100, k at level 200, only parsing).
Notation "m ';;' k" := (bind m (fun _ => k))
  (at level 100, k at level 200, right associativity, only parsing).

Definition of_sum {A} (x : Error.t + A) : M A :=
  match x with
  | inl e => throw e
  | inr a => ret a
  end.

(** [try { body } catch (error) { handler } finally { cleanup }]; a
    suspended body never reaches its handler or cleanup. *)
Definition try_catch_finally (body : M unit) (handler : Error.t → M unit)
    (cleanup : M unit) : M unit :=
  fun s =>
    match body s with
    | (Returns tt, s1) => cleanup s1
    | (Suspends, s1) => (Suspends, s1)
    | (Throws e, s1) =>
        match handler e s1 with
        | (Returns tt, s2) => cleanup s2
        | (Suspends, s2) => (Suspends, s2)
        | (Throws e', s2) =>
            match cleanup s2 with
            | (Returns tt, s3) => (Throws e', s3)
            | other => other
            end
        end
    end.

Section Handler.

(** [JSON.parse], a builtin: a value, or the [SyntaxError] thrown. *)
Variable JSON_parse : string → Error.t + JSON.value.
Variable oracle : Oracle.

Definition Date_now : M Z :=
  fun s =>
    (Returns (clock oracle (ticks s)),
     {| ticks := S (ticks s); enqueued := enqueued s; calls := calls s;
        stream_closes := stream_closes s; cancelled := cancelled s |}).

(** [sendSSEEvent(encoder, controller, event)]: one frame, carrying
    [event], is enqueued; [controller.enqueue] throws once the consumer
    has cancelled the stream. *)
Definition sendSSEEvent (event : AgentEvent) : M unit :=
  fun s =>
    if cancelled s then (Throws Error.invalid_state, s)
    else
      (Returns tt,
       {| ticks := ticks s; enqueued := enqueued s ++ [event];
          calls := calls s; stream_closes := stream_closes s;
          cancelled := cancelled s |}).

Definition log_call (c : Call) : M unit :=
  fun s =>
    (Returns tt,
     {| ticks := ticks s; enqueued := enqueued s; calls := calls s ++ [c];
        stream_closes := stream_closes s; cancelled := cancelled s |}).

(** The handler is suspended at the [await] of call [c]: the consumer may
    cancel the stream meanwhile. *)
Definition suspended_at (c : Call) (s : State) : State :=
  {| ticks := ticks s; enqueued := enqueued s; calls := calls s;
     stream_closes := stream_closes s;
     cancelled := cancelled s || cancelled_during oracle c |}.

(** [await client.connect()] *)
Definition await_connect (c : Who) : M unit :=
  log_call (Connect c) ;;
  fun s => (connect oracle c, suspended_at (Connect c) s).

(** [await client.callTool(toolName, args)] *)
Definition await_callTool (c : Who) (toolName : string) (args : JSON.value)
  : M JSON.maybe :=
  log_call (CallTool c toolName args) ;;
  fun s => (callTool oracle c toolName args,
            suspended_at (CallTool c toolName args) s).

(** [client.close()], as a call of the handler. *)
Definition client_close (c : Who) : M unit := log_call (Close c).

(** [controller.close()]: it throws once the consumer has cancelled the
    stream. *)
Definition controller_close : M unit :=
  fun s =>
    if cancelled s then (Throws Error.invalid_state, s)
    else
      (Returns tt,
       {| ticks := ticks s; enqueued := enqueued s; calls := calls s;
          stream_closes := S (stream_closes s); cancelled := cancelled s |}).

(** [stepId(name)] *)
Definition stepId (name : string) : M string :=
  let* t := Date_now in ret (name +:+ "-" +:+ pretty t).

(** [x[0]] *)
Definition get_index0 (x : JSON.maybe) : Error.t + JSON.maybe :=
  match x with
  | None =>
      inl (Error.TypeError "Cannot read properties of undefined (reading '0')")
  | Some JSON.Null =>
      inl (Error.TypeError "Cannot read properties of null (reading '0')")
  | Some (JSON.Arr []) => inr None
  | Some (JSON.Arr (v :: _)) => inr (Some v)
  | Some (JSON.Str (String c _)) => inr (Some (JSON.Str (String c "")))
  | Some (JSON.Obj fields) => inr (JSON.lookup_field "0" fields)
  | Some _ => inr None
  end.

(** [JSON.parse(toolResult.content[0].text)]: the value, or the error
    thrown on the way. *)
Definition first_text (toolResult : JSON.maybe) : Error.t + JSON.value :=
  match get_prop toolResult "content" with
  | inl e => inl e
  | inr content =>
      match get_index0 content with
      | inl e => inl e
      | inr first =>
          match get_prop first "text" with
          | inl e => inl e
          | inr text =>
              match JSON.maybe_to_string text with
              | inl e => inl e
              | inr source => JSON_parse source
              end
          end
      end
  end.

Definition parse_first_text (toolResult : JSON.maybe) : M JSON.value :=
  of_sum (first_text toolResult).

(** The [try] block of [start]. *)
Definition start_try (orderId : string) : M unit :=
  (* Initial status *)
  let* ts := Date_now in
  sendSSEEvent (EvStatus running None ts) ;;
  (* Step 1: Connect to CRM *)
  let* connectCrmId := stepId "connect-crm" in
  let* ts := Date_now in
  sendSSEEvent
    (EvStep connectCrmId "Connecting to CRM server..." step_running ts None) ;;
  await_connect crmClient ;;
  let* ts := Date_now in
  sendSSEEvent
    (EvStep connectCrmId "Connected to CRM server" step_success ts None) ;;
  (* Step 2: Fetch customer email *)
  let* fetchEmailId := stepId "fetch-email" in
  let* ts := Date_now in
  sendSSEEvent
    (EvStep fetchEmailId
       ("Fetching customer email for order #" +:+ orderId +:+ "...")
       step_running ts None) ;;
  let* crmResult :=
    await_callTool crmClient "getCustomerEmail"
      (JSON.Obj [("order_id", JSON.Str orderId)]) in
  let* emailData := parse_first_text crmResult in
  let* customerEmail := of_sum (get_prop (Some emailData) "email") in
  (if negb (JSON.truthy customerEmail)
   then throw (Error.new "Customer not found for this order ID")
   else ret tt) ;;
  let* emailText := of_sum (JSON.maybe_to_string customerEmail) in
  let* ts := Date_now in
  sendSSEEvent
    (EvStep fetchEmailId ("Found customer email: " +:+ emailText)
       step_success ts
       (Some (JSON.Obj
                match customerEmail with
                | Some v => [("email", v)]
                | None => []
                end))) ;;
  (* Send intermediate result *)
  let* ts := Date_now in
  sendSSEEvent
    (EvResult ts orderId customerEmail (Some false) "Customer email retrieved") ;;
  (* Step 3: Connect to Email server *)
  let* connectEmailId := stepId "connect-email" in
  let* ts := Date_now in
  sendSSEEvent
    (EvStep connectEmailId "Connecting to Email server..." step_running ts None) ;;
  await_connect emailClient ;;
  let* ts := Date_now in
  sendSSEEvent
    (EvStep connectEmailId "Connected to Email server" step_success ts None) ;;
  (* Step 4: Send shipping confirmation *)
  let* sendEmailId := stepId "send-email" in
  let* ts := Date_now in
  sendSSEEvent
    (EvStep sendEmailId "Sending shipping confirmation email..."
       step_running ts None) ;;
  let* emailResult :=
    await_callTool emailClient "sendShippingConfirmation"
      (JSON.Obj
         (match customerEmail with
          | Some v => [("email", v)]
          | None => []
          end
          ++ [("order_details", JSON.Obj [("order_id", JSON.Str orderId)])])) in
  let* emailResponse := parse_first_text emailResult in
  let* ok := of_sum (get_prop (Some emailResponse) "ok") in
  if JSON.truthy ok then
    let* message := of_sum (get_prop (Some emailResponse) "message") in
    let* messageText := of_sum (JSON.maybe_to_string message) in
    let* ts := Date_now in
    sendSSEEvent
      (EvStep sendEmailId ("Shipping confirmation sent: " +:+ messageText)
         step_success ts
         (Some (JSON.Obj
                  match message with
                  | Some v => [("message", v)]
                  | None => []
                  end))) ;;
    (* Final result *)
    let* ts := Date_now in
    sendSSEEvent
      (EvResult ts orderId customerEmail (Some true)
         "Order processing completed successfully") ;;
    (* Final status *)
    let* ts := Date_now in
    sendSSEEvent (EvStatus completed None ts)
  else
    throw (Error.new "Failed to send shipping confirmation").

(** The [catch] block of [start]. *)
Definition start_catch (error : Error.t) : M unit :=
  let errorMessage := Error.message error in
  let* ts := Date_now in
  sendSSEEvent (EvError ts errorMessage (Some error)) ;;
  let* ts := Date_now in
  sendSSEEvent (EvStatus failed (Some errorMessage) ts).

(** The [finally] block of [start]. *)
Definition start_finally : M unit :=
  client_close crmClient ;;
  client_close emailClient ;;
  controller_close.

(** [start(controller)] of the response stream. *)
Definition start (orderId : string) : M unit :=
  try_catch_finally (start_try orderId) start_catch start_finally.

(** What [POST] answers: the 400 rejection, or the event stream after
    its [start] ran. *)
Inductive HttpResult :=
| BadRequest
| EventStream (finished : Outcome unit) (final : State).

(** [const { orderId } = body]: a [TypeError] on [null]. *)
Definition destructure_orderId (body : JSON.value) : Error.t + JSON.maybe :=
  match body with
  | JSON.Null =>
      inl (Error.TypeError
             "Cannot destructure property 'orderId' of 'body' as it is null.")
  | JSON.Obj fields => inr (JSON.lookup_field "orderId" fields)
  | _ => inr None
  end.

(** [POST(request)], where [body] is what [request.json()] gave. *)
Definition POST (body : JSON.value) : Outcome HttpResult :=
  match destructure_orderId body with
  | inl type_error => Throws type_error
  | inr orderId =>
      match orderId with
      | Some (JSON.Str id) =>
          if JSON.truthy orderId then
            let '(finished, final) := start id initial in
            Returns (EventStream finished final)
          else Returns BadRequest
      | _ => Returns BadRequest
      end
  end.

(** The events of a run of [start], in the order written. *)
Definition events_of (orderId : string) : list AgentEvent :=
  enqueued (snd (start orderId initial)).

End Handler.

(** The step events among [evs] that carry identity [id]. *)
Definition steps_with_id (id : string) (evs : list AgentEvent) : list StepState :=
  omap (fun ev =>
          match ev with
          | EvStep id' _ st _ _ => if decide (id' = id) then Some st else None
          | _ => None
          end) evs.

Definition is_step_error (ev : AgentEvent) : bool :=
  match ev with
  | EvStep _ _ step_error _ _ => true
  | _ => false
  end.

(** The identity of the step that is under way after [evs]: the last
    event written is its [running] event. *)
Definition pending_step (evs : list AgentEvent) : option string :=
  match last evs with
  | Some (EvStep id _ step_running _ _) => Some id
  | _ => None
  end.

End ProcessOrder.

(** ** Vocabulary of the statements *)

Module Frame.
Import JSString SSEParser.

(** A line inside a frame: no newline in it, and not blank. *)
Definition frame_line (l : string) : Prop :=
  has_newline l = false ∧ is_blank l = false.

End Frame.

Module Scenario.
Import ProcessOrder.

Definition quote : string := String (ascii_of_nat 34) "".

(** The text of the CRM tool result for a known order:
    an object whose [email] is alice@example.com. *)
Definition crm_text : string :=
  "{" +:+ quote +:+ "email" +:+ quote +:+ ":" +:+ quote +:+ "alice@example.com"
  +:+ quote +:+ "}".

(** The text of the email tool result: [ok] is true, with a message. *)
Definition email_text : string :=
  "{" +:+ quote +:+ "ok" +:+ quote +:+ ":true," +:+ quote +:+ "message"
  +:+ quote +:+ ":" +:+ quote +:+ "sent" +:+ quote +:+ "}".

(** [JSON.parse] on the two texts above; any other text is taken to be
    malformed. *)
Definition parse_known (text : string) : Error.t + JSON.value :=
  if decide (text = crm_text)
  then inr (JSON.Obj [("email", JSON.Str "alice@example.com")])
  else if decide (text = email_text)
  then inr (JSON.Obj [("ok", JSON.Bool true); ("message", JSON.Str "sent")])
  else inl (Error.mk "SyntaxError" "Unexpected token").

(** A tool result [{content: [{type: "text", text}]}]. *)
Definition tool_result (text : string) : JSON.value :=
  JSON.Obj
    [("content",
       JSON.Arr [JSON.Obj [("type", JSON.Str "text"); ("text", JSON.Str text)]])].

Definition response_ok : Response.t := Response.mk true 200 "OK".

(** A server that answers the health check, and each request with
    [result] as soon as asked (the request is post [f] of its client). *)
Definition answers (f : nat) (id : string) (result : JSON.value) : list MCP.Event :=
  [MCP.PostFetchResolves f response_ok;
   MCP.PostBodyParsed f (JSONRPCResponse.mk id (Some result) None)].

Definition reachable_env : MCP.ConnectEnv :=
  MCP.mkConnectEnv [] (inr response_ok) (answers 0 "req_1_0" (JSON.Obj [])).

(** A server that cannot be reached: the health-check fetch rejects. *)
Definition unreachable_env : MCP.ConnectEnv :=
  MCP.mkConnectEnv [] (inl (Error.TypeError "fetch failed")) [].

Definition crm0 : MCP.World := MCP.new "http://127.0.0.1:8001" 0.
Definition email0 : MCP.World := MCP.new "http://127.0.0.1:8002/" 0.

(** Scenario C: the CRM server works, the email server is unreachable.
    Every client call ends as the client model says. *)
Definition server_B_unreachable : Oracle :=
  {| clock := fun k => Z.of_nat k;
     connect := fun c =>
       match c with
       | crmClient => fst (MCP.connect reachable_env crm0)
       | emailClient => fst (MCP.connect unreachable_env email0)
       end;
     callTool := fun c toolName args =>
       match c with
       | crmClient =>
           fst (MCP.callTool toolName args
                  (answers 1 "req_2_0" (tool_result crm_text))
                  (snd (MCP.connect reachable_env crm0)))
       | emailClient =>
           fst (MCP.callTool toolName args []
                  (snd (MCP.connect unreachable_env email0)))
       end;
     cancelled_during := fun _ => false |}.

(** Scenario A: both servers work. *)
Definition both_servers_up : Oracle :=
  {| clock := fun k => Z.of_nat k;
     connect := fun c =>
       match c with
       | crmClient => fst (MCP.connect reachable_env crm0)
       | emailClient => fst (MCP.connect reachable_env email0)
       end;
     callTool := fun c toolName args =>
       match c with
       | crmClient =>
           fst (MCP.callTool toolName args
                  (answers 1 "req_2_0" (tool_result crm_text))
                  (snd (MCP.connect reachable_env crm0)))
       | emailClient =>
           fst (MCP.callTool toolName args
                  (answers 1 "req_2_0" (tool_result email_text))
                  (snd (MCP.connect reachable_env email0)))
       end;
     cancelled_during := fun _ => false |}.

(** Scenario A with a consumer that goes away while the handler awaits
    the connection to the CRM server. *)
Definition consumer_leaves : Oracle :=
  {| clock := clock both_servers_up;
     connect := connect both_servers_up;
     callTool := callTool both_servers_up;
     cancelled_during := fun c =>
       match c with Connect crmClient => true | _ => false end |}.

End Scenario.

Module Workflow.
Import ProcessOrder.

(** The consumer reads the response stream to its end: it cancels during
    no awaited call. *)
Definition stream_open (oracle : Oracle) : Prop :=
  ∀ c, cancelled_during oracle c = false.

(** A run in which every phase succeeds: both clients connect, the CRM
    tool result yields a truthy [email] whose text is [emailText], and the
    email tool result yields a truthy [ok] and a [message] whose text is
    [messageText]. *)
Definition successful (JSON_parse : string → Error.t + JSON.value)
    (oracle : Oracle) (orderId : string) (customerEmail : JSON.value)
    (emailText : string) (message : JSON.maybe) (messageText : string) : Prop :=
  ∃ crmResult emailData emailResult emailResponse ok,
    connect oracle crmClient = Returns tt
    ∧ callTool oracle crmClient "getCustomerEmail"
        (JSON.Obj [("order_id", JSON.Str orderId)]) = Returns crmResult
    ∧ first_text JSON_parse crmResult = inr emailData
    ∧ get_prop (Some emailData) "email" = inr (Some customerEmail)
    ∧ JSON.truthy (Some customerEmail) = true
    ∧ JSON.to_string customerEmail = inr emailText
    ∧ connect oracle emailClient = Returns tt
    ∧ callTool oracle emailClient "sendShippingConfirmation"
        (JSON.Obj
           [("email", customerEmail);
            ("order_details", JSON.Obj [("order_id", JSON.Str orderId)])])
      = Returns emailResult
    ∧ first_text JSON_parse emailResult = inr emailResponse
    ∧ get_prop (Some emailResponse) "ok" = inr ok
    ∧ JSON.truthy ok = true
    ∧ get_prop (Some emailResponse) "message" = inr message
    ∧ JSON.maybe_to_string message = inr messageText.

(** No step event in state ["error"] among the events. *)
Definition no_step_error (evs : list AgentEvent) : Prop :=
  Forall (fun ev => is_step_error ev = false) evs.

(** A computation of the handler that writes no step event in state
    ["error"]. *)
Definition writes_no_step_error {A} (m : M A) : Prop :=
  ∀ s, no_step_error (enqueued s) → no_step_error (enqueued (snd (m s))).

End Workflow.

Module Lifetime.
Import MCP.

(** The worlds a client can be in: made by [new], then changed by events
    and by calls of its methods. *)
Inductive reachable : World → Prop :=
| reach_new (url : string) (t0 : Z) : reachable (new url t0)
| reach_step (ev : Event) (w : World) : reachable w → reachable (step ev w)
| reach_connect (env : ConnectEnv) (w : World) :
    reachable w → reachable (snd (connect env w))
| reach_listTools (sched : list Event) (w : World) :
    reachable w → reachable (snd (listTools sched w))
| reach_callTool (toolName : string) (args : JSON.value) (sched : list Event)
    (w : World) :
    reachable w → reachable (snd (callTool toolName args sched w)).

(** The id minted when the counter reaches [c] at time [t]. *)
Definition request_id (c : N) (t : Z) : string :=
  "req_" +:+ pretty c +:+ "_" +:+ pretty t.

(** The counter value carried by the id of the request number [f]
    (counting from zero) of a client. *)
Definition counter_of (f : nat) : N := N.min (N.of_nat (S f)) (2 ^ 53).

Definition request_id_at (w : World) (f : nat) : option string :=
  (fun po => JSONRPCRequest.id (request po)) <$> posts (rt w) !! f.

(** What holds of every reachable world.  Request number [f] owns
    promise [f] and timer [f]; a table entry exists only while the promise
    of its request is unsettled and its timer armed. *)
Record Inv (w : World) : Prop := mkInv {
  inv_promises : length (promises (rt w)) = length (posts (rt w));
  inv_timers : length (timers (rt w)) = length (posts (rt w));
  inv_counter :
    requestIdCounter (client w)
    = N.min (N.of_nat (length (posts (rt w)))) (2 ^ 53);
  inv_posts : ∀ f po,
    posts (rt w) !! f = Some po →
    catch_reject po = f ∧ catch_timeout po = f
    ∧ ∃ t, JSONRPCRequest.id (request po) = request_id (counter_of f) t;
  inv_armed : ∀ t tm,
    timers (rt w) !! t = Some (Some tm) →
    timer_reject tm = t ∧ request_id_at w t = Some (timer_requestId tm);
  inv_pending : ∀ rid pend,
    pendingRequests (client w) !! rid = Some pend →
    resolve pend = reject pend ∧ timeout pend = reject pend
    ∧ request_id_at w (reject pend) = Some rid
    ∧ promises (rt w) !! reject pend = Some Unsettled
    ∧ ∃ tm, timers (rt w) !! reject pend = Some (Some tm);
  inv_controller : ∀ c,
    sseController (client w) = Some c → c < length (controllers (rt w))
}.

(** A stream whose read is still going on: not ended and not cancelled
    through its abort signal. *)
Definition live (w : World) (st : Stream) : bool :=
  negb (ended st) && negb (is_aborted (signal st) w).

(** Only a connected client has a live stream, and it holds the
    controller of that stream. *)
Definition StreamInv (w : World) : Prop :=
  ∀ s st, streams (rt w) !! s = Some st → live w st = true →
    connected (client w) = true
    ∧ sseController (client w) = Some (signal st)
    ∧ signal st < length (controllers (rt w)).

Definition no_live_stream (w : World) : Prop :=
  ∀ s st, streams (rt w) !! s = Some st → live w st = false.

(** Events by which the server answers post [f], or its fetch fails. *)
Definition answers_post (f : nat) (ev : Event) : bool :=
  match ev with
  | PostFetchRejects f' _ | PostFetchResolves f' _
  | PostBodyParsed f' _ | PostBodyFails f' _ => bool_decide (f' = f)
  | _ => false
  end.

(** Events that may run [close()]. *)
Definition may_close (ev : Event) : bool :=
  match ev with
  | CallClose | StreamFails _ _ => true
  | _ => false
  end.

(** A schedule in which the endpoint never responds to post [f] and the
    client is not closed. *)
Definition never_answered (f : nat) (evs : list Event) : Prop :=
  Forall (fun ev => answers_post f ev = false ∧ may_close ev = false) evs.

(** Why an event settles promise [q], and with what: the timer of
    request [q] ran, or its fetch was aborted, after the deadline; its
    post failed; or a post carrying the same request id got its reply. *)
Inductive Cause (w : World) (q : nat) : Event → PromiseState → Prop :=
| cause_timer (tm : Timer) :
    timers (rt w) !! q = Some (Some tm) →
    (deadline tm ≤ now (rt w))%Z →
    Cause w q (TimerFires q) (Rejected (timeout_error requestTimeout))
| cause_abort (po : Post) (d : Z) :
    posts (rt w) !! q = Some po → phase po = AwaitingHeaders d →
    (d ≤ now (rt w))%Z →
    Cause w q (PostAborted q) (Rejected (timeout_error requestTimeout))
| cause_fetch_rejects (e : Error.t) :
    Cause w q (PostFetchRejects q e) (Rejected (fetch_error e requestTimeout))
| cause_http (r : Response.t) :
    Cause w q (PostFetchResolves q r) (Rejected (http_error r))
| cause_body_fails (e : Error.t) :
    Cause w q (PostBodyFails q e) (Rejected e)
| cause_body (f : nat) (data : JSONRPCResponse.t) :
    is_Some (request_id_at w f) →
    request_id_at w f = request_id_at w q →
    Cause w q (PostBodyParsed f data) (Fulfilled data).

(** What one event does to the promises, the timers and the table. *)
Inductive Effect (ev : Event) (w w' : World) : Prop :=
| eff_none :
    promises (rt w') = promises (rt w) →
    timers (rt w') = timers (rt w) →
    pendingRequests (client w') = pendingRequests (client w) →
    (now (rt w) ≤ now (rt w'))%Z →
    Effect ev w w'
| eff_retire (q : nat) (rid : string) (s : PromiseState) :
    Cause w q ev s →
    request_id_at w q = Some rid →
    promises (rt w') = settle_in q s (promises (rt w)) →
    timers (rt w') = <[q := None]> (timers (rt w)) →
    pendingRequests (client w') = delete rid (pendingRequests (client w)) →
    now (rt w') = now (rt w) →
    Effect ev w w'
| eff_send (method : string) (params : JSON.value) :
    ev = CallSendRequest method params →
    w' = snd (sendRequest method params w) →
    Effect ev w w'
| eff_close (w0 : World) :
    may_close ev = true →
    promises (rt w0) = promises (rt w) →
    timers (rt w0) = timers (rt w) →
    pendingRequests (client w0) = pendingRequests (client w) →
    now (rt w0) = now (rt w) →
    w' = close w0 →
    Effect ev w w'.

(** Request number [p], with id [rid] and deadline [d], is still
    waiting: it is in the table, its timer is armed and its fetch has
    seen no response. *)
Definition Waiting (p : nat) (rid : string) (d : Z) (w : World) : Prop :=
  pendingRequests (client w) !! rid = Some (mkPending p p p)
  ∧ promises (rt w) !! p = Some Unsettled
  ∧ timers (rt w) !! p = Some (Some (mkTimer d rid p))
  ∧ ∃ po, posts (rt w) !! p = Some po
          ∧ JSONRPCRequest.id (request po) = rid
          ∧ phase po = AwaitingHeaders d.

(** Request number [p] timed out, not before [d], and left the table. *)
Definition TimedOut (p : nat) (rid : string) (d : Z) (w : World) : Prop :=
  request_id_at w p = Some rid
  ∧ promises (rt w) !! p = Some (Rejected (timeout_error requestTimeout))
  ∧ (d ≤ now (rt w))%Z
  ∧ pendingRequests (client w) !! rid = None.

(** The server echoes ids: if [ev] is the reply body received by the
    post of a request, the body carries the id of that request. *)
Definition echoes_id (w : World) (ev : Event) : Prop :=
  ∀ g data po,
    ev = PostBodyParsed g data → posts (rt w) !! g = Some po →
    JSONRPCResponse.id data = JSONRPCRequest.id (request po).

(** The ids of all requests made so far, oldest first. *)
Definition minted_ids (w : World) : list string :=
  (fun po => JSONRPCRequest.id (request po)) <$> posts (rt w).

Definition is_digit (c : ascii) : bool :=
  let n := nat_of_ascii c in (48 <=? n)%nat && (n <=? 57)%nat.

Fixpoint all_digits (s : string) : bool :=
  match s with
  | "" => true
  | String c s' => is_digit c && all_digits s'
  end.

End Lifetime.

Module Example.
Import MCP.

(** A connected client with one request in flight. *)
Definition busy : World :=
  step (CallSendRequest "tools/list" (JSON.Obj []))
    (snd (connect Scenario.reachable_env Scenario.crm0)).

(** A connected client. *)
Definition connected_client : World :=
  snd (connect Scenario.reachable_env Scenario.crm0).

(** The discovery result of a server with one tool. *)
Definition one_tool : JSON.value :=
  JSON.Obj
    [("tools",
       JSON.Arr
         [JSON.Obj [("name", JSON.Str "getCustomerEmail");
                    ("description", JSON.Str "Get customer email by order ID")]])].

(** Two requests sent one after the other, both awaiting their reply
    body. *)
Definition two_in_flight : World :=
  run [CallSendRequest "tools/list" (JSON.Obj []);
       CallSendRequest "tools/call" (JSON.Obj []);
       PostFetchResolves 0 Scenario.response_ok;
       PostFetchResolves 1 Scenario.response_ok]
    Scenario.crm0.

Definition reply (id : string) : JSONRPCResponse.t :=
  JSONRPCResponse.mk id (Some (JSON.Obj [])) None.

(** A server that cannot be reached, while the owner of the client starts
    a request during the health check of [connect()]. *)
Definition overlapping_env : ConnectEnv :=
  mkConnectEnv [CallSendRequest "tools/list" (JSON.Obj [])]
    (inl (Error.TypeError "fetch failed")) [].

End Example.

(** ** Further vocabulary: frames, the page and the form *)

Module Frames.
Import JSString SSEParser.

(** The payload of the last data line among [lines], if there is one. *)
Fixpoint last_data (lines : list string) : option string :=
  match lines with
  | [] => None
  | l :: rest =>
      match last_data rest with
      | Some d => Some d
      | None => if is_data_line l then Some (payload l) else None
      end
  end.

(** What a frame made of [lines] hands to the callback: the payload of its
    last data line when that payload is not empty. *)
Definition frame_payload (lines : list string) : option string :=
  match last_data lines with
  | Some d => if truthy d then Some d else None
  | None => None
  end.

(** The text of successive frames. *)
Definition frames_text (frames : list (list string)) : string :=
  fold_right (fun f acc => frame_text f +:+ acc) "" frames.

(** The value of the local [currentData] when [parse(chunk)] returns: the
    payload of a data line whose frame was not terminated within the
    chunk. *)
Definition pending_data (chunk : string) (p : SSEParser.t) : string :=
  currentData
    (fold_left parse_line (fst (pop (split_nl (buffer p +:+ chunk))))
       {| currentData := ""; delivered := [] |}).

End Frames.

(** The frame text written by [sendSSEEvent] of the route handler, for the
    text [json] that [JSON.stringify(event)] gave. *)
Module Wire.

Definition frame_of (json : string) : string :=
  "data: " +:+ json +:+ JSString.nl +:+ JSString.nl.

Definition frames_of (jsons : list string) : string :=
  fold_right (fun j acc => frame_of j +:+ acc) "" jsons.

End Wire.

(** ** The page that reads the event stream ([app/page.tsx]) *)

Module Page.
Import ProcessOrder.

(** An entry of the timeline. *)
Record TimelineEvent := mkTimelineEvent {
  id : string;
  timestamp : Z;
  title : string;
  state : StepState;
  data : JSON.maybe
}.

(** The React state that [handleProcessOrder] updates while it reads. *)
Record PageState := mkPageState {
  status : StatusState;
  orderId : string;
  customerEmail : JSON.value;
  emailSent : option bool;
  errorMessage : string;
  events : list TimelineEvent
}.

(** The state set at the start of [handleProcessOrder(inputOrderId)]. *)
Definition started (inputOrderId : string) : PageState :=
  {| status := running; orderId := inputOrderId; customerEmail := JSON.Str "";
     emailSent := None; errorMessage := ""; events := [] |}.

(** [prev.findIndex((e) => e.id === id)]; [None] stands for [-1]. *)
Fixpoint findIndex (i : string) (prev : list TimelineEvent) : option nat :=
  match prev with
  | [] => None
  | e :: rest =>
      if decide (id e = i) then Some 0
      else match findIndex i rest with
           | Some n => Some (S n)
           | None => None
           end
  end.

(** The updater given to [setEvents] for a step event. *)
Definition upsert (e : TimelineEvent) (prev : list TimelineEvent)
  : list TimelineEvent :=
  match findIndex (id e) prev with
  | Some existingIndex => <[existingIndex := e]> prev
  | None => prev ++ [e]
  end.

(** The entry with identity [i], if any. *)
Definition entry (i : string) (l : list TimelineEvent) : option TimelineEvent :=
  match findIndex i l with
  | Some n => l !! n
  | None => None
  end.

Definition set_events (l : list TimelineEvent) (st : PageState) : PageState :=
  {| status := status st; orderId := orderId st;
     customerEmail := customerEmail st; emailSent := emailSent st;
     errorMessage := errorMessage st; events := l |}.

(** The body of the reading loop for one decoded event. *)
Definition apply_event (ev : AgentEvent) (st : PageState) : PageState :=
  match ev with
  | EvStatus s message _ =>
      {| status := s; orderId := orderId st;
         customerEmail := customerEmail st; emailSent := emailSent st;
         errorMessage :=
           match s, message with
           | failed, Some m => if JSString.truthy m then m else errorMessage st
           | _, _ => errorMessage st
           end;
         events := events st |}
  | EvStep i t s ts d => set_events (upsert (mkTimelineEvent i ts t s d) (events st)) st
  | EvResult _ o email sent _ =>
      {| status := status st; orderId := o;
         customerEmail :=
           match email with
           | Some v => if JSON.truthy email then v else customerEmail st
           | None => customerEmail st
           end;
         emailSent := match sent with Some b => Some b | None => emailSent st end;
         errorMessage := errorMessage st; events := events st |}
  | EvError _ m _ =>
      {| status := failed; orderId := orderId st;
         customerEmail := customerEmail st; emailSent := emailSent st;
         errorMessage := m; events := events st |}
  end.

(** One line of a chunk: a line starting with ["data: "] is decoded from
    its seventh character on; [decode] is [JSON.parse] followed by the
    dispatch on [type], [None] when the text does not parse (the line is
    then logged and skipped). *)
Definition read_line (decode : string → option AgentEvent) (st : PageState)
    (line : string) : PageState :=
  if JSString.startsWith line "data: " then
    match decode (JSString.substring 6 line) with
    | Some ev => apply_event ev st
    | None => st
    end
  else st.

(** The body of the reading loop for one chunk: [chunk.split("\n")] and
    the lines one by one. *)
Definition read_chunk (decode : string → option AgentEvent) (chunk : string)
    (st : PageState) : PageState :=
  fold_left (read_line decode) (JSString.split_nl chunk) st.

(** The timeline entry a step event stands for. *)
Definition entry_of (ev : AgentEvent) : option TimelineEvent :=
  match ev with
  | EvStep i t s ts d => Some (mkTimelineEvent i ts t s d)
  | _ => None
  end.

(** The last step event with identity [i] among [evs], as an entry. *)
Fixpoint last_step (i : string) (evs : list AgentEvent) : option TimelineEvent :=
  match evs with
  | [] => None
  | ev :: rest =>
      match last_step i rest with
      | Some e => Some e
      | None =>
          match entry_of ev with
          | Some e => if decide (id e = i) then Some e else None
          | None => None
          end
      end
  end.

End Page.

(** ** The order form ([components/OrderForm.tsx]) *)

Module Form.

(** [handleSubmit]: what is passed to [onSubmit], if anything, for the
    text in the input. *)
Definition handleSubmit (orderId : string) : option string :=
  if JSString.truthy (JSString.trim orderId)
  then Some (JSString.trim orderId)
  else None.

End Form.

(** ** Vocabulary for runs of the handler *)

Module Run.
Import ProcessOrder.

(** Step and result events. *)
Definition plain (ev : AgentEvent) : bool :=
  match ev with EvStep _ _ _ _ _ | EvResult _ _ _ _ _ => true | _ => false end.

Definition is_close (c : Call) : bool :=
  match c with Close _ => true | _ => false end.

(** From [s] to [s']: only step and result events were written, no client
    was closed and the stream was not closed. *)
Definition extends (s s' : State) : Prop :=
  ∃ evs cs,
    enqueued s' = enqueued s ++ evs ∧ forallb plain evs = true
    ∧ calls s' = calls s ++ cs ∧ forallb (fun c => negb (is_close c)) cs = true
    ∧ stream_closes s' = stream_closes s.

Definition plain_only {A} (m : M A) : Prop := ∀ s, extends s (snd (m s)).

(** A computation that, when it returns, has written step and result
    events and then status completed as its last event, the stream not
    being cancelled; when it throws or suspends it has written step and
    result events only. *)
Definition ends_completed {A} (m : M A) : Prop :=
  ∀ s,
    match m s with
    | (Returns _, s') =>
        cancelled s' = false
        ∧ ∃ s1 t, extends s s1
                  ∧ enqueued s' = enqueued s1 ++ [EvStatus completed None t]
                  ∧ calls s' = calls s1 ∧ stream_closes s' = stream_closes s1
    | (_, s') => extends s s'
    end.

End Run.

(** ** Vocabulary for requests and their promises *)

Module Tracking.
Import MCP Lifetime.

(** Every unsettled promise of a request is in the table under the id of
    its request, and the post of the request has not finished. *)
Definition Tracked (w : World) : Prop :=
  ∀ f po,
    posts (rt w) !! f = Some po → promises (rt w) !! f = Some Unsettled →
    phase po ≠ Finished
    ∧ ∃ pend, pendingRequests (client w) !! JSONRPCRequest.id (request po)
              = Some pend ∧ reject pend = f.

(** Fewer than [2^53] requests were made: the counter is exact. *)
Definition Below (w : World) : Prop :=
  (N.of_nat (length (posts (rt w))) < 2 ^ 53)%N.

(** Request number [p] with id [rid] is over with outcome [s]: its
    promise is settled with [s], its id is out of the table and its timer
    is cleared. *)
Definition Retired (p : nat) (rid : string) (s : PromiseState) (w : World) : Prop :=
  promises (rt w) !! p = Some s
  ∧ pendingRequests (client w) !! rid = None
  ∧ timers (rt w) !! p = Some None.

(** The server answers post [f] with a success status and the body
    [data]. *)
Definition answered (f : nat) (r : Response.t) (data : JSONRPCResponse.t)
  : list Event :=
  [PostFetchResolves f r; PostBodyParsed f data].

(** [n] slashes. *)
Fixpoint slashes (n : nat) : string :=
  match n with
  | O => ""
  | S k => String "/"%char (slashes k)
  end.

Fixpoint ends_with_slash (s : string) : bool :=
  match s with
  | "" => false
  | String c "" => bool_decide (c = "/"%char)
  | String _ s' => ends_with_slash s'
  end.

End Tracking.

(** * Properties of the frame parser *)

Section ParserFacts.
Import JSString SSEParser Frame.

Lemma append_cons (c : ascii) (a b : string) :
  String c a +:+ b = String c (a +:+ b).
Proof. reflexivity. Qed.

Lemma append_nil_l (b : string) : "" +:+ b = b.
Proof. reflexivity. Qed.

Lemma append_assoc (a b c : string) : (a +:+ b) +:+ c = a +:+ (b +:+ c).
Proof.
  induction a as [|x a IH]; [done |].
  rewrite !append_cons. by rewrite IH.
Qed.

Lemma split_nl_line (a r : string) :
  has_newline a = false → split_nl (a +:+ nl +:+ r) = a :: split_nl r.
Proof.
  induction a as [|c a IH]; intros Hnl.
  - rewrite append_nil_l. unfold nl. rewrite append_cons, append_nil_l. simpl.
    destruct (decide (newline = newline)); done.
  - rewrite append_cons. simpl in *.
    destruct (decide (c = newline)); [done |].
    rewrite (IH Hnl). done.
Qed.

Lemma split_nl_frame_text (ls : list string) :
  Forall (fun l => has_newline l = false) ls →
  split_nl (frame_text ls) = ls ++ [""; ""].
Proof.
  induction 1 as [|l ls Hl _ IH]; simpl.
  - destruct (decide (newline = newline)); done.
  - rewrite split_nl_line; [|done]. by rewrite IH.
Qed.

Lemma pop_snoc (ls : list string) (x : string) : pop (ls ++ [x]) = (ls, Some x).
Proof.
  induction ls as [|l ls IH]; simpl; [done |].
  rewrite IH. destruct (ls ++ [x]) eqn:E; [|done].
  by destruct ls.
Qed.

Lemma trimEnd_trimStart_blank (s : string) :
  trimEnd (trimStart s) = "" → trimStart s = "".
Proof.
  induction s as [|c s IH]; simpl; [done |].
  destruct (is_white_space c) eqn:Hc; [done |].
  simpl. rewrite Hc. simpl. discriminate.
Qed.

(** A line is blank exactly when all its characters are white space. *)
Lemma is_blank_trimStart (s : string) :
  is_blank s = true ↔ trimStart s = "".
Proof.
  unfold is_blank, trim. split.
  - intros H. apply trimEnd_trimStart_blank.
    by destruct (trimEnd (trimStart s)).
  - intros ->. done.
Qed.

Lemma trimStart_app_nonblank (a b : string) :
  trimStart b ≠ "" → trimStart (a +:+ b) ≠ "".
Proof.
  induction a as [|c a IH]; [done |].
  rewrite append_cons. simpl.
  intros Hb. destruct (is_white_space c); [auto | done].
Qed.

(** Text carried over in front of a line that is not blank gives a line
    that is not blank. *)
Lemma is_blank_app_r (a b : string) :
  is_blank b = false → is_blank (a +:+ b) = false.
Proof.
  intros Hb. destruct (is_blank (a +:+ b)) eqn:E; [|done].
  apply is_blank_trimStart in E.
  assert (trimStart b ≠ "") as Hne.
  { intros Hs. apply is_blank_trimStart in Hs. congruence. }
  by destruct (trimStart_app_nonblank a b Hne).
Qed.

Lemma has_newline_app (a b : string) :
  has_newline (a +:+ b) = has_newline a || has_newline b.
Proof.
  induction a as [|c a IH]; [done |].
  rewrite append_cons. simpl.
  destruct (decide (c = newline)); done.
Qed.

Lemma parse_line_data (st : loop) (l : string) :
  is_data_line l = true →
  parse_line st l = {| currentData := payload l; delivered := delivered st |}.
Proof.
  unfold is_data_line, parse_line, payload. intros H.
  apply andb_true_iff in H as [H1 H2].
  destruct (is_empty (trim l)); [done |]. by rewrite H2.
Qed.

Lemma parse_line_other (st : loop) (l : string) :
  is_blank l = false → is_data_line l = false → parse_line st l = st.
Proof.
  unfold is_blank, is_data_line, parse_line. intros -> H. simpl in H.
  by rewrite H.
Qed.

(** Lines that are not blank deliver nothing. *)
Lemma fold_nonblank_delivered (ls : list string) (st : loop) :
  Forall (fun l => is_blank l = false) ls →
  delivered (fold_left parse_line ls st) = delivered st.
Proof.
  intros H. revert st. induction H as [|l ls Hl _ IH]; intros st; [done |].
  simpl. rewrite IH. unfold parse_line. unfold is_blank in Hl. rewrite Hl.
  by destruct (startsWith (trim l) "data:").
Qed.

(** Lines that are neither blank nor data lines leave the loop state. *)
Lemma fold_ignored (ls : list string) (st : loop) :
  Forall (fun l => is_blank l = false) ls →
  Forall (fun l => is_data_line l = false) ls →
  fold_left parse_line ls st = st.
Proof.
  intros H. revert st. induction H as [|l ls Hl _ IH]; intros st Hd; [done |].
  inversion Hd; subst. simpl. rewrite parse_line_other by done. by apply IH.
Qed.

Lemma parse_line_blank (st : loop) :
  currentData st ≠ "" →
  parse_line st ""
  = {| currentData := ""; delivered := delivered st ++ [currentData st] |}.
Proof.
  unfold parse_line. simpl. destruct (currentData st); [done |]. done.
Qed.

(** The last piece of a split holds no newline. *)
Lemma split_nl_last (s : string) :
  ∃ ls x, split_nl s = ls ++ [x] ∧ has_newline x = false.
Proof.
  induction s as [|c s (ls & x & IH & Hx)]; simpl.
  - by exists [], "".
  - destruct (decide (c = newline)) as [->|Hc].
    + exists ("" :: ls), x. by rewrite IH.
    + rewrite IH. destruct ls as [|y ls]; simpl.
      * exists [], (String c x). split; [done |]. simpl.
        by destruct (decide (c = newline)).
      * by exists (String c y :: ls), x.
Qed.

(** The carry-over buffer never holds a newline. *)
Lemma parse_buffer_no_newline (chunk : string) (p : SSEParser.t) :
  has_newline (buffer (snd (parse chunk p))) = false.
Proof.
  unfold parse.
  destruct (split_nl_last (buffer p +:+ chunk)) as (ls & x & -> & Hx).
  rewrite pop_snoc. simpl. by destruct (truthy x).
Qed.

(** A chunk without a newline only grows the carry-over buffer; the
    next call then sees the line whole. *)
Lemma parse_partial_line (chunk : string) (p : SSEParser.t) :
  has_newline (buffer p) = false → has_newline chunk = false →
  parse chunk p = ([], {| buffer := buffer p +:+ chunk |}).
Proof.
  intros Hb Hc. unfold parse.
  assert (∀ s, has_newline s = false → split_nl s = [s]) as Hs.
  { induction s as [|c s IH]; simpl; [done |].
    destruct (decide (c = newline)); [done |]. intros H. by rewrite IH. }
  rewrite Hs by (rewrite has_newline_app, Hb, Hc; done).
  simpl. by destruct (buffer p +:+ chunk).
Qed.

End ParserFacts.

(** C9, for a frame whose last data line carries a payload.  A chunk
    holding one complete frame with two or more
    data lines, the last of which has a non-empty payload, makes [parse]
    call the callback exactly once, with the payload of the last data
    line; the payloads of the earlier data lines are discarded.  Lines of
    the frame that are not data lines are ignored, and text carried over
    from the previous chunk only joins the first line. *)
Theorem C9_last_data_line_wins
    (p : SSEParser.t) (pre mid post : list string) (d1 d2 : string) :
  JSString.has_newline (SSEParser.buffer p) = false →
  Forall Frame.frame_line (pre ++ [d1] ++ mid ++ [d2] ++ post) →
  SSEParser.is_data_line d1 = true →
  SSEParser.is_data_line d2 = true →
  Forall (fun l => SSEParser.is_data_line l = false) post →
  SSEParser.payload d2 ≠ "" →
  SSEParser.parse
    (SSEParser.frame_text (pre ++ [d1] ++ mid ++ [d2] ++ post)) p
  = ([SSEParser.payload d2], SSEParser.new).
Proof.
  intros Hbuf Hlines Hd1 Hd2 Hpost Hpay.
  set (front := pre ++ [d1] ++ mid).
  assert (pre ++ [d1] ++ mid ++ [d2] ++ post = front ++ [d2] ++ post) as Heq
    by (unfold front; by rewrite <- !app_assoc).
  rewrite Heq in *. clear Heq.
  assert (∃ l0 front', front = l0 :: front') as (l0 & front' & Hfront).
  { unfold front. destruct pre; simpl; eauto. }
  clearbody front. subst front.
  apply Forall_app in Hlines as [Hfr Hrest].
  apply Forall_cons in Hrest as [Hl2 Hpo].
  apply Forall_cons in Hfr as [Hl0 Hfr'].
  unfold SSEParser.parse. simpl SSEParser.frame_text.
  rewrite <- append_assoc.
  rewrite split_nl_line.
  2:{ rewrite has_newline_app, Hbuf. by destruct Hl0 as [-> _]. }
  rewrite split_nl_frame_text.
  2:{ apply Forall_app. split; [|apply Forall_cons; split].
      - eapply Forall_impl; [exact Hfr'|]. by intros ? [? _].
      - by destruct Hl2.
      - eapply Forall_impl; [exact Hpo|]. by intros ? [? _]. }
  assert ((SSEParser.buffer p +:+ l0) :: (front' ++ d2 :: post) ++ [""; ""]
          = (((SSEParser.buffer p +:+ l0) :: front') ++ [d2] ++ post ++ [""]) ++ [""])
    as -> by (simpl; rewrite <- !app_assoc; simpl; rewrite <- !app_assoc; done).
  rewrite pop_snoc. simpl JSString.or_empty.
  rewrite !fold_left_app. cbn [fold_left].
  change (fold_left SSEParser.parse_line front'
            (SSEParser.parse_line ?st (SSEParser.buffer p +:+ l0)))
    with (fold_left SSEParser.parse_line ((SSEParser.buffer p +:+ l0) :: front') st).
  rewrite (parse_line_data _ d2) by done.
  rewrite fold_ignored; [| |done].
  2:{ eapply Forall_impl; [exact Hpo|]. by intros ? [_ ?]. }
  rewrite parse_line_blank by done.
  cbn [SSEParser.delivered SSEParser.currentData].
  rewrite fold_nonblank_delivered; [done |].
  apply Forall_cons. split.
  - apply is_blank_app_r. by destruct Hl0.
  - eapply Forall_impl; [exact Hfr'|]. by intros ? [_ ?].
Qed.

(** A frame whose data lines read [a] then [b]: only [b] is delivered. *)
Lemma C9_last_data_line_wins_witness :
  SSEParser.parse (SSEParser.frame_text ([] ++ ["data: a"] ++ [] ++ ["data: b"] ++ []))
    SSEParser.new
  = ([SSEParser.payload "data: b"], SSEParser.new).
Proof.
  apply (C9_last_data_line_wins SSEParser.new [] [] [] "data: a" "data: b").
  - reflexivity.
  - repeat constructor.
  - reflexivity.
  - reflexivity.
  - constructor.
  - vm_compute. discriminate.
Defined.

(** C9, the case left out: when the last data line has an empty payload
    the frame has two data lines and the callback is not called at all. *)
Lemma C9_counterexample_empty_last_payload :
  SSEParser.is_data_line "data: a" = true ∧
  SSEParser.is_data_line "data:" = true ∧
  fst (SSEParser.parse (SSEParser.frame_text ["data: a"; "data:"]) SSEParser.new)
  = [].
Proof. repeat split. Qed.

(** C1.  The frame [data: x], split between its data line and its
    terminating blank line, is dropped: no payload is delivered, whereas the
    same text in one chunk delivers [x]. *)
Theorem C1_split_before_blank_line_drops_frame :
  fst (SSEParser.parse_all ["data: x" +:+ JSString.nl; JSString.nl] SSEParser.new)
  = [] ∧
  fst (SSEParser.parse_all ["data: x" +:+ JSString.nl +:+ JSString.nl] SSEParser.new)
  = ["x"].
Proof. split; reflexivity. Qed.


(** * Properties of the route handler *)

Section HandlerFacts.
Import ProcessOrder Workflow.

Variable JSON_parse : string → Error.t + JSON.value.
Variable oracle : Oracle.

Lemma wnse_ret {A} (a : A) : writes_no_step_error (ret a).
Proof. by intros s. Qed.

Lemma wnse_throw {A} (e : Error.t) : writes_no_step_error (@throw A e).
Proof. by intros s. Qed.

Lemma wnse_of_sum {A} (x : Error.t + A) : writes_no_step_error (of_sum x).
Proof. destruct x; [apply wnse_throw | apply wnse_ret]. Qed.

Lemma wnse_bind {A B} (m : M A) (k : A → M B) :
  writes_no_step_error m → (∀ a, writes_no_step_error (k a)) →
  writes_no_step_error (bind m k).
Proof.
  intros Hm Hk s Hs. unfold bind. specialize (Hm s Hs).
  destruct (m s) as [[a| |] s']; simpl in *; [|done..].
  by apply Hk.
Qed.

Lemma wnse_Date_now : writes_no_step_error (Date_now oracle).
Proof. by intros s. Qed.

Lemma wnse_log_call (c : Call) : writes_no_step_error (log_call c).
Proof. by intros s. Qed.

Lemma wnse_controller_close : writes_no_step_error controller_close.
Proof. intros s Hs. unfold controller_close. by destruct (cancelled s). Qed.

Lemma wnse_sendSSEEvent (ev : AgentEvent) :
  is_step_error ev = false → writes_no_step_error (sendSSEEvent ev).
Proof.
  intros Hev s Hs. unfold sendSSEEvent. destruct (cancelled s); [done |].
  simpl. apply Forall_app. split; [done |]. by apply Forall_singleton.
Qed.

Lemma wnse_await_connect (c : Who) :
  writes_no_step_error (await_connect oracle c).
Proof.
  unfold await_connect. apply wnse_bind; [apply wnse_log_call |].
  by intros _ s.
Qed.

Lemma wnse_await_callTool (c : Who) (n : string) (args : JSON.value) :
  writes_no_step_error (await_callTool oracle c n args).
Proof.
  unfold await_callTool. apply wnse_bind; [apply wnse_log_call |].
  by intros _ s.
Qed.

Lemma wnse_stepId (name : string) : writes_no_step_error (stepId oracle name).
Proof.
  unfold stepId. apply wnse_bind; [apply wnse_Date_now | intros; apply wnse_ret].
Qed.

Lemma wnse_try_catch_finally (body : M unit) (handler : Error.t → M unit)
    (cleanup : M unit) :
  writes_no_step_error body → (∀ e, writes_no_step_error (handler e)) →
  writes_no_step_error cleanup →
  writes_no_step_error (try_catch_finally body handler cleanup).
Proof.
  intros Hb Hh Hc s Hs. unfold try_catch_finally.
  specialize (Hb s Hs). destruct (body s) as [[[]|e|] s1]; simpl in *.
  - by apply Hc.
  - specialize (Hh e s1 Hb). destruct (handler e s1) as [[[]|e'|] s2]; simpl in *.
    + by apply Hc.
    + specialize (Hc s2 Hh). by destruct (cleanup s2) as [[[]| |] s3].
    + done.
  - done.
Qed.

Ltac wnse :=
  repeat first
    [ apply wnse_bind; [|intros]
    | apply wnse_Date_now
    | apply wnse_stepId
    | apply wnse_await_connect
    | apply wnse_await_callTool
    | apply wnse_of_sum
    | apply wnse_ret
    | apply wnse_throw
    | apply wnse_log_call
    | apply wnse_controller_close
    | apply wnse_sendSSEEvent; reflexivity
    | match goal with |- writes_no_step_error (if ?b then _ else _) => destruct b end ].

Lemma wnse_start_try (orderId : string) :
  writes_no_step_error (start_try JSON_parse oracle orderId).
Proof. unfold start_try, parse_first_text. wnse. Qed.

Lemma wnse_start_catch (e : Error.t) : writes_no_step_error (start_catch oracle e).
Proof. unfold start_catch. wnse. Qed.

Lemma wnse_start_finally : writes_no_step_error start_finally.
Proof. unfold start_finally, client_close. wnse. Qed.

(** Whatever the clients, the parsed results and the consumer do, a run
    writes no step event in state ["error"]. *)
Lemma start_no_step_error (orderId : string) :
  no_step_error (events_of JSON_parse oracle orderId).
Proof.
  unfold events_of, start.
  apply wnse_try_catch_finally;
    auto using wnse_start_try, wnse_start_catch, wnse_start_finally.
  constructor.
Qed.

(** A failed [try] block is followed by the [catch] and [finally]
    blocks, which complete while the consumer reads the stream. *)
Lemma start_after_failure (orderId : string) (e : Error.t) (s1 : State) :
  start_try JSON_parse oracle orderId initial = (Throws e, s1) →
  cancelled s1 = false →
  start JSON_parse oracle orderId initial
  = (Returns tt,
     {| ticks := S (S (ticks s1));
        enqueued :=
          enqueued s1
            ++ [EvError (clock oracle (ticks s1)) (Error.message e) (Some e);
                EvStatus failed (Some (Error.message e))
                  (clock oracle (S (ticks s1)))];
        calls := calls s1 ++ [Close crmClient; Close emailClient];
        stream_closes := S (stream_closes s1);
        cancelled := false |}).
Proof.
  intros H Hc. unfold start, try_catch_finally. rewrite H.
  unfold start_catch, start_finally, client_close, controller_close, bind,
    Date_now, sendSSEEvent, log_call.
  cbn [ticks enqueued calls stream_closes cancelled]. rewrite Hc.
  cbn [ticks enqueued calls stream_closes cancelled].
  by rewrite <- !app_assoc.
Qed.

(** Once the consumer has cancelled, the [catch] block throws at its
    first write and the [finally] block at [controller.close()], after
    the two clients were closed: [start] rejects. *)
Lemma start_after_cancel (orderId : string) (e : Error.t) (s1 : State) :
  start_try JSON_parse oracle orderId initial = (Throws e, s1) →
  cancelled s1 = true →
  start JSON_parse oracle orderId initial
  = (Throws Error.invalid_state,
     {| ticks := S (ticks s1);
        enqueued := enqueued s1;
        calls := calls s1 ++ [Close crmClient; Close emailClient];
        stream_closes := stream_closes s1;
        cancelled := true |}).
Proof.
  intros H Hc. unfold start, try_catch_finally. rewrite H.
  unfold start_catch, start_finally, client_close, controller_close, bind,
    Date_now, sendSSEEvent, log_call.
  cbn [ticks enqueued calls stream_closes cancelled]. rewrite Hc.
  cbn [ticks enqueued calls stream_closes cancelled].
  by rewrite <- !app_assoc.
Qed.

(** *** Running the handler one statement at a time *)

Lemma run_Date_now {B} (k : Z → M B) (s : State) :
  bind (Date_now oracle) k s
  = k (clock oracle (ticks s))
      {| ticks := S (ticks s); enqueued := enqueued s; calls := calls s;
         stream_closes := stream_closes s; cancelled := cancelled s |}.
Proof. reflexivity. Qed.

Lemma run_sendSSEEvent {B} (ev : AgentEvent) (k : unit → M B) (s : State) :
  cancelled s = false →
  bind (sendSSEEvent ev) k s
  = k tt {| ticks := ticks s; enqueued := enqueued s ++ [ev];
            calls := calls s; stream_closes := stream_closes s;
            cancelled := false |}.
Proof. intros H. unfold bind, sendSSEEvent. by rewrite H. Qed.

Lemma run_stepId {B} (name : string) (k : string → M B) (s : State) :
  bind (stepId oracle name) k s
  = k (name +:+ "-" +:+ pretty (clock oracle (ticks s)))
      {| ticks := S (ticks s); enqueued := enqueued s; calls := calls s;
         stream_closes := stream_closes s; cancelled := cancelled s |}.
Proof. reflexivity. Qed.

Lemma run_await_connect_cases {B} (c : Who) (k : unit → M B) (s : State) :
  bind (await_connect oracle c) k s
  = match connect oracle c with
    | Returns a =>
        k a {| ticks := ticks s; enqueued := enqueued s;
               calls := calls s ++ [Connect c];
               stream_closes := stream_closes s;
               cancelled := cancelled s || cancelled_during oracle (Connect c) |}
    | Throws e =>
        (Throws e,
         {| ticks := ticks s; enqueued := enqueued s;
            calls := calls s ++ [Connect c];
            stream_closes := stream_closes s;
            cancelled := cancelled s || cancelled_during oracle (Connect c) |})
    | Suspends =>
        (Suspends,
         {| ticks := ticks s; enqueued := enqueued s;
            calls := calls s ++ [Connect c];
            stream_closes := stream_closes s;
            cancelled := cancelled s || cancelled_during oracle (Connect c) |})
    end.
Proof.
  unfold bind, await_connect, log_call, suspended_at. simpl.
  by destruct (connect oracle c).
Qed.

Lemma run_await_callTool_cases {B} (c : Who) (n : string) (args : JSON.value)
    (k : JSON.maybe → M B) (s : State) :
  bind (await_callTool oracle c n args) k s
  = match callTool oracle c n args with
    | Returns r =>
        k r {| ticks := ticks s; enqueued := enqueued s;
               calls := calls s ++ [CallTool c n args];
               stream_closes := stream_closes s;
               cancelled :=
                 cancelled s || cancelled_during oracle (CallTool c n args) |}
    | Throws e =>
        (Throws e,
         {| ticks := ticks s; enqueued := enqueued s;
            calls := calls s ++ [CallTool c n args];
            stream_closes := stream_closes s;
            cancelled :=
              cancelled s || cancelled_during oracle (CallTool c n args) |})
    | Suspends =>
        (Suspends,
         {| ticks := ticks s; enqueued := enqueued s;
            calls := calls s ++ [CallTool c n args];
            stream_closes := stream_closes s;
            cancelled :=
              cancelled s || cancelled_during oracle (CallTool c n args) |})
    end.
Proof.
  unfold bind, await_callTool, log_call, suspended_at. simpl.
  by destruct (callTool oracle c n args).
Qed.

Lemma run_await_connect {B} (c : Who) (k : unit → M B) (s : State) :
  connect oracle c = Returns tt →
  bind (await_connect oracle c) k s
  = k tt {| ticks := ticks s; enqueued := enqueued s;
            calls := calls s ++ [Connect c];
            stream_closes := stream_closes s;
            cancelled := cancelled s || cancelled_during oracle (Connect c) |}.
Proof. intros H. by rewrite run_await_connect_cases, H. Qed.

Lemma run_await_callTool {B} (c : Who) (n : string) (args : JSON.value)
    (r : JSON.maybe) (k : JSON.maybe → M B) (s : State) :
  callTool oracle c n args = Returns r →
  bind (await_callTool oracle c n args) k s
  = k r {| ticks := ticks s; enqueued := enqueued s;
           calls := calls s ++ [CallTool c n args];
           stream_closes := stream_closes s;
           cancelled :=
             cancelled s || cancelled_during oracle (CallTool c n args) |}.
Proof. intros H. by rewrite run_await_callTool_cases, H. Qed.

Lemma run_of_sum_cases {A B} (x : Error.t + A) (k : A → M B) (s : State) :
  bind (of_sum x) k s
  = match x with
    | inl e => (Throws e, s)
    | inr a => k a s
    end.
Proof. by destruct x. Qed.

Lemma run_of_sum {A B} (x : Error.t + A) (a : A) (k : A → M B) (s : State) :
  x = inr a → bind (of_sum x) k s = k a s.
Proof. by intros ->. Qed.

Lemma run_ret {A B} (a : A) (k : A → M B) (s : State) : bind (ret a) k s = k a s.
Proof. reflexivity. Qed.

Lemma run_throw {A B} (e : Error.t) (k : A → M B) (s : State) :
  bind (throw e) k s = (Throws e, s).
Proof. reflexivity. Qed.

End HandlerFacts.

Local Ltac exec :=
  cbv beta;
  cbn [ProcessOrder.ticks ProcessOrder.enqueued ProcessOrder.calls
       ProcessOrder.stream_closes ProcessOrder.cancelled app orb].

(** C3.  In a run where every phase succeeds and the consumer reads the
    stream to its end, the events written to the outbound stream are
    exactly these twelve, in this order: status
    running; the connect-crm step running then success; the fetch-email
    step running then success; the partial result; the connect-email step
    running then success; the send-email step running then success; the
    final result; status completed.  Each step keeps its identity between
    its two events; the titles of the two tool steps carry the texts of
    the email and of the message. *)
Theorem C3_successful_run_event_sequence
    (JSON_parse : string → Error.t + JSON.value) (oracle : ProcessOrder.Oracle)
    (orderId : string) (customerEmail : JSON.value) (emailText : string)
    (message : JSON.maybe) (messageText : string) :
  Workflow.successful JSON_parse oracle orderId customerEmail emailText
    message messageText →
  Workflow.stream_open oracle →
  let t := ProcessOrder.clock oracle in
  ProcessOrder.events_of JSON_parse oracle orderId
  = [ ProcessOrder.EvStatus ProcessOrder.running None (t 0%nat);
      ProcessOrder.EvStep ("connect-crm-" +:+ pretty (t 1%nat))
        "Connecting to CRM server..." ProcessOrder.step_running (t 2%nat) None;
      ProcessOrder.EvStep ("connect-crm-" +:+ pretty (t 1%nat))
        "Connected to CRM server" ProcessOrder.step_success (t 3%nat) None;
      ProcessOrder.EvStep ("fetch-email-" +:+ pretty (t 4%nat))
        ("Fetching customer email for order #" +:+ orderId +:+ "...")
        ProcessOrder.step_running (t 5%nat) None;
      ProcessOrder.EvStep ("fetch-email-" +:+ pretty (t 4%nat))
        ("Found customer email: " +:+ emailText)
        ProcessOrder.step_success (t 6%nat)
        (Some (JSON.Obj [("email", customerEmail)]));
      ProcessOrder.EvResult (t 7%nat) orderId (Some customerEmail) (Some false)
        "Customer email retrieved";
      ProcessOrder.EvStep ("connect-email-" +:+ pretty (t 8%nat))
        "Connecting to Email server..." ProcessOrder.step_running (t 9%nat) None;
      ProcessOrder.EvStep ("connect-email-" +:+ pretty (t 8%nat))
        "Connected to Email server" ProcessOrder.step_success (t 10%nat) None;
      ProcessOrder.EvStep ("send-email-" +:+ pretty (t 11%nat))
        "Sending shipping confirmation email..."
        ProcessOrder.step_running (t 12%nat) None;
      ProcessOrder.EvStep ("send-email-" +:+ pretty (t 11%nat))
        ("Shipping confirmation sent: " +:+ messageText)
        ProcessOrder.step_success (t 13%nat)
        (Some (JSON.Obj match message with
                        | Some v => [("message", v)]
                        | None => []
                        end));
      ProcessOrder.EvResult (t 14%nat) orderId (Some customerEmail) (Some true)
        "Order processing completed successfully";
      ProcessOrder.EvStatus ProcessOrder.completed None (t 15%nat) ].
Proof.
  intros (crmResult & emailData & emailResult & emailResponse & ok
          & Hc1 & Ht1 & Hp1 & He & Hte & Hs1 & Hc2 & Ht2 & Hp2 & Hok & Htok
          & Hmsg & Hs2) Hopen t.
  assert (ProcessOrder.start_try JSON_parse oracle orderId ProcessOrder.initial
          = (Returns tt,
             {| ProcessOrder.ticks := 16;
                ProcessOrder.enqueued :=
                  [ ProcessOrder.EvStatus ProcessOrder.running None (t 0%nat);
                    ProcessOrder.EvStep ("connect-crm-" +:+ pretty (t 1%nat))
                      "Connecting to CRM server..." ProcessOrder.step_running
                      (t 2%nat) None;
                    ProcessOrder.EvStep ("connect-crm-" +:+ pretty (t 1%nat))
                      "Connected to CRM server" ProcessOrder.step_success
                      (t 3%nat) None;
                    ProcessOrder.EvStep ("fetch-email-" +:+ pretty (t 4%nat))
                      ("Fetching customer email for order #" +:+ orderId +:+ "...")
                      ProcessOrder.step_running (t 5%nat) None;
                    ProcessOrder.EvStep ("fetch-email-" +:+ pretty (t 4%nat))
                      ("Found customer email: " +:+ emailText)
                      ProcessOrder.step_success (t 6%nat)
                      (Some (JSON.Obj [("email", customerEmail)]));
                    ProcessOrder.EvResult (t 7%nat) orderId (Some customerEmail)
                      (Some false) "Customer email retrieved";
                    ProcessOrder.EvStep ("connect-email-" +:+ pretty (t 8%nat))
                      "Connecting to Email server..." ProcessOrder.step_running
                      (t 9%nat) None;
                    ProcessOrder.EvStep ("connect-email-" +:+ pretty (t 8%nat))
                      "Connected to Email server" ProcessOrder.step_success
                      (t 10%nat) None;
                    ProcessOrder.EvStep ("send-email-" +:+ pretty (t 11%nat))
                      "Sending shipping confirmation email..."
                      ProcessOrder.step_running (t 12%nat) None;
                    ProcessOrder.EvStep ("send-email-" +:+ pretty (t 11%nat))
                      ("Shipping confirmation sent: " +:+ messageText)
                      ProcessOrder.step_success (t 13%nat)
                      (Some (JSON.Obj match message with
                                      | Some v => [("message", v)]
                                      | None => []
                                      end));
                    ProcessOrder.EvResult (t 14%nat) orderId (Some customerEmail)
                      (Some true) "Order processing completed successfully";
                    ProcessOrder.EvStatus ProcessOrder.completed None (t 15%nat) ];
                ProcessOrder.calls :=
                  [ ProcessOrder.Connect ProcessOrder.crmClient;
                    ProcessOrder.CallTool ProcessOrder.crmClient "getCustomerEmail"
                      (JSON.Obj [("order_id", JSON.Str orderId)]);
                    ProcessOrder.Connect ProcessOrder.emailClient;
                    ProcessOrder.CallTool ProcessOrder.emailClient
                      "sendShippingConfirmation"
                      (JSON.Obj
                         [("email", customerEmail);
                          ("order_details",
                            JSON.Obj [("order_id", JSON.Str orderId)])]) ];
                ProcessOrder.stream_closes := 0;
                ProcessOrder.cancelled := false |})) as Htry.
  { unfold ProcessOrder.start_try, ProcessOrder.parse_first_text,
      ProcessOrder.initial.
    rewrite run_Date_now; exec. rewrite run_sendSSEEvent by reflexivity; exec.
    rewrite run_stepId; exec. rewrite run_Date_now; exec.
    rewrite run_sendSSEEvent by reflexivity; exec.
    rewrite run_await_connect by done; exec. rewrite Hopen; exec.
    rewrite run_Date_now; exec. rewrite run_sendSSEEvent by reflexivity; exec.
    rewrite run_stepId; exec. rewrite run_Date_now; exec.
    rewrite run_sendSSEEvent by reflexivity; exec.
    rewrite (run_await_callTool _ _ _ _ crmResult) by done; exec.
    rewrite Hopen; exec.
    rewrite (run_of_sum _ emailData) by done; exec.
    rewrite (run_of_sum _ (Some customerEmail)) by done; exec.
    rewrite Hte. cbn [negb]. rewrite run_ret; exec.
    rewrite (run_of_sum _ emailText) by done; exec.
    rewrite run_Date_now; exec. rewrite run_sendSSEEvent by reflexivity; exec.
    rewrite run_Date_now; exec. rewrite run_sendSSEEvent by reflexivity; exec.
    rewrite run_stepId; exec. rewrite run_Date_now; exec.
    rewrite run_sendSSEEvent by reflexivity; exec.
    rewrite run_await_connect by done; exec. rewrite Hopen; exec.
    rewrite run_Date_now; exec. rewrite run_sendSSEEvent by reflexivity; exec.
    rewrite run_stepId; exec. rewrite run_Date_now; exec.
    rewrite run_sendSSEEvent by reflexivity; exec.
    rewrite (run_await_callTool _ _ _ _ emailResult) by done; exec.
    rewrite Hopen; exec.
    rewrite (run_of_sum _ emailResponse) by done; exec.
    rewrite (run_of_sum _ ok) by done; exec.
    rewrite Htok.
    rewrite (run_of_sum _ message) by done; exec.
    rewrite (run_of_sum _ messageText) by done; exec.
    rewrite run_Date_now; exec. rewrite run_sendSSEEvent by reflexivity; exec.
    rewrite run_Date_now; exec. rewrite run_sendSSEEvent by reflexivity; exec.
    rewrite run_Date_now; exec.
    reflexivity. }
  unfold ProcessOrder.events_of, ProcessOrder.start,
    ProcessOrder.try_catch_finally.
  rewrite Htry. reflexivity.
Qed.

(** The run of scenario A (both servers up, order XYZ-789) is successful;
    its twelve events follow. *)
Lemma C3_successful_run_witness :
  ProcessOrder.events_of Scenario.parse_known Scenario.both_servers_up "XYZ-789"
  = [ ProcessOrder.EvStatus ProcessOrder.running None 0;
      ProcessOrder.EvStep "connect-crm-1" "Connecting to CRM server..."
        ProcessOrder.step_running 2 None;
      ProcessOrder.EvStep "connect-crm-1" "Connected to CRM server"
        ProcessOrder.step_success 3 None;
      ProcessOrder.EvStep "fetch-email-4"
        "Fetching customer email for order #XYZ-789..."
        ProcessOrder.step_running 5 None;
      ProcessOrder.EvStep "fetch-email-4" "Found customer email: alice@example.com"
        ProcessOrder.step_success 6
        (Some (JSON.Obj [("email", JSON.Str "alice@example.com")]));
      ProcessOrder.EvResult 7 "XYZ-789" (Some (JSON.Str "alice@example.com"))
        (Some false) "Customer email retrieved";
      ProcessOrder.EvStep "connect-email-8" "Connecting to Email server..."
        ProcessOrder.step_running 9 None;
      ProcessOrder.EvStep "connect-email-8" "Connected to Email server"
        ProcessOrder.step_success 10 None;
      ProcessOrder.EvStep "send-email-11" "Sending shipping confirmation email..."
        ProcessOrder.step_running 12 None;
      ProcessOrder.EvStep "send-email-11" "Shipping confirmation sent: sent"
        ProcessOrder.step_success 13
        (Some (JSON.Obj [("message", JSON.Str "sent")]));
      ProcessOrder.EvResult 14 "XYZ-789" (Some (JSON.Str "alice@example.com"))
        (Some true) "Order processing completed successfully";
      ProcessOrder.EvStatus ProcessOrder.completed None 15 ].
Proof.
  apply (C3_successful_run_event_sequence Scenario.parse_known
           Scenario.both_servers_up "XYZ-789" (JSON.Str "alice@example.com")
           "alice@example.com" (Some (JSON.Str "sent")) "sent").
  - exists (Some (Scenario.tool_result Scenario.crm_text)),
      (JSON.Obj [("email", JSON.Str "alice@example.com")]),
      (Some (Scenario.tool_result Scenario.email_text)),
      (JSON.Obj [("ok", JSON.Bool true); ("message", JSON.Str "sent")]),
      (Some (JSON.Bool true)).
    repeat split; vm_compute; reflexivity.
  - intros c. reflexivity.
Defined.

Local Ltac send := rewrite run_sendSSEEvent by reflexivity; exec.

Local Ltac ids :=
  repeat first
    [ rewrite decide_True by reflexivity
    | rewrite decide_False
        by (let Hd := fresh "Hd" in
            intros Hd; rewrite ?append_cons in Hd; discriminate Hd) ].

Local Ltac fails_here :=
  intros [= <- <-]; split; [reflexivity |];
  eexists; split; [reflexivity |];
  unfold ProcessOrder.steps_with_id;
  cbn [ProcessOrder.enqueued omap list_omap]; ids; reflexivity.

Section FailedPhase.
Import ProcessOrder Workflow.

Variable JSON_parse : string → Error.t + JSON.value.
Variable oracle : Oracle.
Hypothesis Hopen : stream_open oracle.

(** While the consumer reads the stream, whenever the [try] block throws,
    the last event written is the [running] event of a step, and no other
    event carries the identity of that step. *)
Lemma try_throws_pending (orderId : string) (e : Error.t) (s1 : State) :
  start_try JSON_parse oracle orderId initial = (Throws e, s1) →
  cancelled s1 = false
  ∧ ∃ id, pending_step (enqueued s1) = Some id
          ∧ steps_with_id id (enqueued s1) = [step_running].
Proof.
  unfold stream_open in Hopen. unfold start_try, parse_first_text, initial.
  rewrite run_Date_now; exec. send.
  rewrite run_stepId; exec. rewrite run_Date_now; exec. send.
  rewrite run_await_connect_cases; exec. rewrite Hopen; exec.
  destruct (connect oracle crmClient) as [[]|e1|]; [|fails_here|done].
  rewrite run_Date_now; exec. send.
  rewrite run_stepId; exec. rewrite run_Date_now; exec. send.
  rewrite run_await_callTool_cases; exec. rewrite Hopen; exec.
  destruct (callTool oracle crmClient _ _) as [crmResult|e2|]; [|fails_here|done].
  rewrite run_of_sum_cases.
  destruct (first_text JSON_parse crmResult) as [e3|emailData]; [fails_here |].
  rewrite run_of_sum_cases.
  destruct (get_prop (Some emailData) "email") as [e4|customerEmail];
    [fails_here |].
  destruct (JSON.truthy customerEmail); cbn [negb];
    [rewrite run_ret | rewrite run_throw; fails_here].
  rewrite run_of_sum_cases.
  destruct (JSON.maybe_to_string customerEmail) as [e5|emailText]; [fails_here |].
  rewrite run_Date_now; exec. send. rewrite run_Date_now; exec. send.
  rewrite run_stepId; exec. rewrite run_Date_now; exec. send.
  rewrite run_await_connect_cases; exec. rewrite Hopen; exec.
  destruct (connect oracle emailClient) as [[]|e6|]; [|fails_here|done].
  rewrite run_Date_now; exec. send.
  rewrite run_stepId; exec. rewrite run_Date_now; exec. send.
  rewrite run_await_callTool_cases; exec. rewrite Hopen; exec.
  destruct (callTool oracle emailClient _ _) as [emailResult|e7|];
    [|fails_here|done].
  rewrite run_of_sum_cases.
  destruct (first_text JSON_parse emailResult) as [e8|emailResponse];
    [fails_here |].
  rewrite run_of_sum_cases.
  destruct (get_prop (Some emailResponse) "ok") as [e9|ok]; [fails_here |].
  destruct (JSON.truthy ok); [|unfold throw; fails_here].
  rewrite run_of_sum_cases.
  destruct (get_prop (Some emailResponse) "message") as [e10|message];
    [fails_here |].
  rewrite run_of_sum_cases.
  destruct (JSON.maybe_to_string message) as [e11|messageText]; [fails_here |].
  rewrite run_Date_now; exec. send. rewrite run_Date_now; exec. send.
  rewrite run_Date_now; exec. unfold sendSSEEvent. exec. done.
Qed.

End FailedPhase.

(** C2, as the handler reports a failure.  When a phase fails, that is
    when the [try] block throws, while the consumer reads the stream: no
    step event in state ["error"] is written, for that phase or any
    other; the [running] event of the failed phase is the last event
    written before the failure and stays the only step event of its
    identity; the events are those written up to the failure, then one
    error event carrying the failure message, then status error with the
    same message; both clients are then closed and the stream is
    closed. *)
Theorem C2_failed_phase_reports_error_event_only
    (JSON_parse : string → Error.t + JSON.value) (oracle : ProcessOrder.Oracle)
    (orderId : string) (e : Error.t) (s1 : ProcessOrder.State) :
  ProcessOrder.start_try JSON_parse oracle orderId ProcessOrder.initial
  = (Throws e, s1) →
  Workflow.stream_open oracle →
  Workflow.no_step_error (ProcessOrder.events_of JSON_parse oracle orderId)
  ∧ (∃ id,
       ProcessOrder.pending_step (ProcessOrder.enqueued s1) = Some id
       ∧ ProcessOrder.steps_with_id id
           (ProcessOrder.events_of JSON_parse oracle orderId)
         = [ProcessOrder.step_running])
  ∧ ProcessOrder.start JSON_parse oracle orderId ProcessOrder.initial
    = (Returns tt,
       {| ProcessOrder.ticks := S (S (ProcessOrder.ticks s1));
          ProcessOrder.enqueued :=
            ProcessOrder.enqueued s1
              ++ [ProcessOrder.EvError
                    (ProcessOrder.clock oracle (ProcessOrder.ticks s1))
                    (Error.message e) (Some e);
                  ProcessOrder.EvStatus ProcessOrder.failed
                    (Some (Error.message e))
                    (ProcessOrder.clock oracle (S (ProcessOrder.ticks s1)))];
          ProcessOrder.calls :=
            ProcessOrder.calls s1
              ++ [ProcessOrder.Close ProcessOrder.crmClient;
                  ProcessOrder.Close ProcessOrder.emailClient];
          ProcessOrder.stream_closes := S (ProcessOrder.stream_closes s1);
          ProcessOrder.cancelled := false |}).
Proof.
  intros H Hopen.
  destruct (try_throws_pending JSON_parse oracle Hopen orderId e s1 H)
    as (Hc & id & Hp & Hs).
  split; [apply start_no_step_error |]. split.
  - exists id. split; [done |]. unfold ProcessOrder.events_of.
    rewrite (start_after_failure JSON_parse oracle orderId e s1 H Hc).
    cbn [snd ProcessOrder.enqueued]. unfold ProcessOrder.steps_with_id in *.
    rewrite omap_app, Hs. reflexivity.
  - by apply start_after_failure.
Qed.

(** Scenario C: the email server is unreachable, so the connect-email
    phase fails after its running step event was written. *)
Lemma C2_failed_phase_witness :
  Workflow.no_step_error
    (ProcessOrder.events_of Scenario.parse_known Scenario.server_B_unreachable
       "XYZ-789")
  ∧ ProcessOrder.steps_with_id "connect-email-8"
      (ProcessOrder.events_of Scenario.parse_known Scenario.server_B_unreachable
         "XYZ-789")
    = [ProcessOrder.step_running].
Proof.
  split.
  - eapply (C2_failed_phase_reports_error_event_only Scenario.parse_known
              Scenario.server_B_unreachable "XYZ-789").
    + vm_compute. reflexivity.
    + intros c. reflexivity.
  - vm_compute. reflexivity.
Defined.

(** C2 in scenario C: the connect-email phase fails, its step identity
    appears once, in state running, and the run ends with an error event
    and status error, without any step event in state error. *)
Lemma C2_counterexample_server_B_unreachable :
  ProcessOrder.events_of Scenario.parse_known Scenario.server_B_unreachable
    "XYZ-789"
  = [ ProcessOrder.EvStatus ProcessOrder.running None 0;
      ProcessOrder.EvStep "connect-crm-1" "Connecting to CRM server..."
        ProcessOrder.step_running 2 None;
      ProcessOrder.EvStep "connect-crm-1" "Connected to CRM server"
        ProcessOrder.step_success 3 None;
      ProcessOrder.EvStep "fetch-email-4"
        "Fetching customer email for order #XYZ-789..."
        ProcessOrder.step_running 5 None;
      ProcessOrder.EvStep "fetch-email-4" "Found customer email: alice@example.com"
        ProcessOrder.step_success 6
        (Some (JSON.Obj [("email", JSON.Str "alice@example.com")]));
      ProcessOrder.EvResult 7 "XYZ-789" (Some (JSON.Str "alice@example.com"))
        (Some false) "Customer email retrieved";
      ProcessOrder.EvStep "connect-email-8" "Connecting to Email server..."
        ProcessOrder.step_running 9 None;
      ProcessOrder.EvError 10 "fetch failed" (Some (Error.TypeError "fetch failed"));
      ProcessOrder.EvStatus ProcessOrder.failed (Some "fetch failed") 11 ]
  ∧ existsb ProcessOrder.is_step_error
      (ProcessOrder.events_of Scenario.parse_known Scenario.server_B_unreachable
         "XYZ-789")
    = false.
Proof. split; vm_compute; reflexivity. Qed.

(** * Properties of the client *)

Section RuntimeFacts.
Import MCP Lifetime.

Lemma settle_in_length (p : nat) (s : PromiseState) (ps : list PromiseState) :
  length (settle_in p s ps) = length ps.
Proof.
  unfold settle_in. destruct (ps !! p) as [[]|]; try done.
  by rewrite length_insert.
Qed.

Lemma settle_in_ne (p q : nat) (s : PromiseState) (ps : list PromiseState) :
  q ≠ p → settle_in p s ps !! q = ps !! q.
Proof.
  intros Hne. unfold settle_in. destruct (ps !! p) as [[]|]; try done.
  by rewrite list_lookup_insert_ne.
Qed.

Lemma settle_in_unsettled (p : nat) (s : PromiseState) (ps : list PromiseState) :
  ps !! p = Some Unsettled → settle_in p s ps !! p = Some s.
Proof.
  intros H. unfold settle_in. rewrite H.
  apply list_lookup_insert_eq. by eapply lookup_lt_Some.
Qed.

(** A settled promise is never settled again. *)
Lemma settle_in_settled (p q : nat) (s x : PromiseState) (ps : list PromiseState) :
  ps !! q = Some x → x ≠ Unsettled → settle_in p s ps !! q = Some x.
Proof.
  intros Hq Hx. destruct (decide (q = p)) as [->|Hne].
  - unfold settle_in. rewrite Hq. by destruct x.
  - by rewrite settle_in_ne.
Qed.

Lemma settle_in_cases (p q : nat) (s : PromiseState) (ps : list PromiseState) :
  settle_in p s ps !! q = ps !! q
  ∨ (q = p ∧ ps !! q = Some Unsettled ∧ settle_in p s ps !! q = Some s).
Proof.
  destruct (decide (q = p)) as [->|Hne].
  - destruct (ps !! p) as [[]|] eqn:E.
    + right. split; [done |]. split; [done |]. by apply settle_in_unsettled.
    + left. unfold settle_in. by rewrite E.
    + left. unfold settle_in. by rewrite E.
    + left. unfold settle_in. by rewrite E.
  - left. by apply settle_in_ne.
Qed.

Lemma clear_lookup_cases (t u : nat) (ts : list (option Timer)) :
  <[t := None]> ts !! u = ts !! u
  ∨ (u = t ∧ <[t := None]> ts !! u = Some None).
Proof.
  destruct (decide (u = t)) as [->|Hne].
  - destruct (decide (t < length ts)).
    + right. split; [done |]. by apply list_lookup_insert_eq.
    + left. rewrite list_insert_ge; [done | lia].
  - left. by apply list_lookup_insert_ne.
Qed.

Lemma Inv_new (url : string) (t0 : Z) : Inv (new url t0).
Proof.
  constructor; simpl; try done.
Qed.

(** A world that differs only in fields the invariant does not read. *)
Lemma Inv_same (w w' : World) :
  promises (rt w') = promises (rt w) →
  timers (rt w') = timers (rt w) →
  posts (rt w') = posts (rt w) →
  pendingRequests (client w') = pendingRequests (client w) →
  requestIdCounter (client w') = requestIdCounter (client w) →
  (∀ c, sseController (client w') = Some c → c < length (controllers (rt w'))) →
  Inv w → Inv w'.
Proof.
  intros Hp Ht Hf Hm Hc Hs [I1 I2 I3 I4 I5 I6 I7].
  constructor; unfold request_id_at in *; rewrite ?Hp, ?Ht, ?Hf, ?Hm, ?Hc; done.
Qed.

(** Changing the phase of a post. *)
Lemma Inv_set_phase (f : nat) (po : Post) (ph : Phase) (w : World) :
  posts (rt w) !! f = Some po → Inv w → Inv (set_phase f po ph w).
Proof.
  intros Hf [I1 I2 I3 I4 I5 I6 I7].
  assert (∀ g, (fun po => JSONRPCRequest.id (request po))
                 <$> <[f := mkPost (request po) (catch_timeout po)
                               (catch_reject po) ph]> (posts (rt w)) !! g
               = (fun po => JSONRPCRequest.id (request po)) <$> posts (rt w) !! g)
    as Hid.
  { intros g. destruct (decide (g = f)) as [->|Hne].
    - rewrite list_lookup_insert_eq by (by eapply lookup_lt_Some).
      by rewrite Hf.
    - by rewrite list_lookup_insert_ne. }
  constructor; unfold request_id_at in *; simpl;
    rewrite ?length_insert; try done.
  - intros g po' Hg. destruct (decide (g = f)) as [->|Hne].
    + rewrite list_lookup_insert_eq in Hg by (by eapply lookup_lt_Some).
      injection Hg as <-. simpl. by apply I4.
    + rewrite list_lookup_insert_ne in Hg by done. by apply I4.
  - intros t tm Ht. rewrite Hid. by apply I5.
  - intros rid pend Hr. rewrite Hid. by apply I6.
Qed.

Lemma request_id_at_set_phase (f g : nat) (po : Post) (ph : Phase) (w : World) :
  posts (rt w) !! f = Some po →
  request_id_at (set_phase f po ph w) g = request_id_at w g.
Proof.
  intros Hf. unfold request_id_at. simpl.
  destruct (decide (g = f)) as [->|Hne].
  - rewrite list_lookup_insert_eq by (by eapply lookup_lt_Some).
    by rewrite Hf.
  - by rewrite list_lookup_insert_ne.
Qed.

(** The common end of a request: its timer is cleared or has run, its
    table entry is deleted and its promise is settled. *)
Lemma Inv_retire (p : nat) (rid : string) (s : PromiseState) (w : World) :
  request_id_at w p = Some rid → Inv w →
  Inv (settle p s (pending_delete rid (clearTimeout p w))).
Proof.
  intros Hp [I1 I2 I3 I4 I5 I6 I7].
  constructor; unfold request_id_at in *; simpl;
    rewrite ?settle_in_length, ?length_insert; try done.
  - intros t tm Ht. destruct (clear_lookup_cases p t (timers (rt w))) as [E|[-> E]].
    + rewrite E in Ht. by apply I5.
    + rewrite E in Ht. done.
  - intros rid' pend Hr.
    apply lookup_delete_Some in Hr as [Hne Hr].
    destruct (I6 _ _ Hr) as (E1 & E2 & E3 & E4 & tm & E5).
    assert (reject pend ≠ p) as Hq.
    { intros E. rewrite E, Hp in E3. congruence. }
    repeat split; try done.
    + by rewrite settle_in_ne.
    + exists tm. by rewrite list_lookup_insert_ne.
Qed.

(** What the first loop of [close] does to a world: settled promises and
    other fields stay; the promise of every entry is rejected if it was
    unsettled; the timer of every entry is cleared. *)
Lemma close_loop_spec (w : World) (m : gmap string PendingRequest) :
  let r := map_fold close_entry w m in
  client r = client w
  ∧ now (rt r) = now (rt w)
  ∧ posts (rt r) = posts (rt w)
  ∧ controllers (rt r) = controllers (rt w)
  ∧ streams (rt r) = streams (rt w)
  ∧ length (promises (rt r)) = length (promises (rt w))
  ∧ length (timers (rt r)) = length (timers (rt w))
  ∧ (∀ q, promises (rt r) !! q = promises (rt w) !! q
          ∨ (promises (rt w) !! q = Some Unsettled
             ∧ promises (rt r) !! q = Some (Rejected (Error.new "Connection closed"))
             ∧ ∃ rid pend, m !! rid = Some pend ∧ reject pend = q))
  ∧ (∀ rid pend, m !! rid = Some pend →
       promises (rt w) !! reject pend = Some Unsettled →
       promises (rt r) !! reject pend
       = Some (Rejected (Error.new "Connection closed")))
  ∧ (∀ u, timers (rt r) !! u = timers (rt w) !! u
          ∨ timers (rt r) !! u = Some None)
  ∧ (∀ rid pend, m !! rid = Some pend →
       timeout pend < length (timers (rt w)) →
       timers (rt r) !! timeout pend = Some None).
Proof.
  apply (map_fold_weak_ind
    (fun r m =>
       client r = client w
       ∧ now (rt r) = now (rt w)
       ∧ posts (rt r) = posts (rt w)
       ∧ controllers (rt r) = controllers (rt w)
       ∧ streams (rt r) = streams (rt w)
       ∧ length (promises (rt r)) = length (promises (rt w))
       ∧ length (timers (rt r)) = length (timers (rt w))
       ∧ (∀ q, promises (rt r) !! q = promises (rt w) !! q
               ∨ (promises (rt w) !! q = Some Unsettled
                  ∧ promises (rt r) !! q
                    = Some (Rejected (Error.new "Connection closed"))
                  ∧ ∃ rid pend, m !! rid = Some pend ∧ reject pend = q))
       ∧ (∀ rid pend, m !! rid = Some pend →
            promises (rt w) !! reject pend = Some Unsettled →
            promises (rt r) !! reject pend
            = Some (Rejected (Error.new "Connection closed")))
       ∧ (∀ u, timers (rt r) !! u = timers (rt w) !! u
               ∨ timers (rt r) !! u = Some None)
       ∧ (∀ rid pend, m !! rid = Some pend →
            timeout pend < length (timers (rt w)) →
            timers (rt r) !! timeout pend = Some None))).
  - repeat split; try done; auto.
  - intros i x m' r Hi (H1 & H2 & H3 & H4 & H5 & H6 & H7 & H8 & H9 & H10 & H11).
    unfold close_entry, call_reject. simpl.
    rewrite settle_in_length, length_insert.
    repeat split; try done.
    + intros q.
      destruct (settle_in_cases (reject x) q
                  (Rejected (Error.new "Connection closed")) (promises (rt r)))
        as [E|(-> & E1 & E2)].
      * rewrite E. destruct (H8 q) as [E'|(E1 & E2 & rid & pend & E3 & E4)];
          [by left | right].
        repeat split; try done. exists rid, pend. split; [|done].
        rewrite lookup_insert_ne; [done |]. intros ->. congruence.
      * destruct (H8 (reject x)) as [E'|(E1' & E2' & _)]; [|congruence].
        right. rewrite <- E', E1, E2. repeat split; try done.
        exists i, x. by rewrite lookup_insert_eq.
    + intros rid pend Hr Hu.
      destruct (decide (rid = i)) as [->|Hne].
      * rewrite lookup_insert_eq in Hr. injection Hr as <-.
        destruct (H8 (reject x)) as [E'|(_ & E2' & _)].
        -- apply settle_in_unsettled. by rewrite E'.
        -- by apply settle_in_settled with (x := Rejected (Error.new "Connection closed")).
      * rewrite lookup_insert_ne in Hr by done.
        by apply settle_in_settled
          with (x := Rejected (Error.new "Connection closed")); [apply (H9 rid)|].
    + intros u.
      destruct (clear_lookup_cases (timeout x) u (timers (rt r))) as [E|[-> E]].
      * rewrite E. apply H10.
      * by right.
    + intros rid pend Hr Hlt.
      destruct (decide (rid = i)) as [->|Hne].
      * rewrite lookup_insert_eq in Hr. injection Hr as <-.
        apply list_lookup_insert_eq. lia.
      * rewrite lookup_insert_ne in Hr by done.
        destruct (clear_lookup_cases (timeout x) (timeout pend) (timers (rt r)))
          as [E|[_ E]]; [|done].
        rewrite E. by apply (H11 rid).
Qed.

Lemma pre_increment_counter (n : nat) :
  pre_increment (N.min (N.of_nat n) (2 ^ 53)) = N.min (N.of_nat (S n)) (2 ^ 53).
Proof.
  unfold pre_increment.
  destruct (N.ltb_spec (N.min (N.of_nat n) (2 ^ 53)) (2 ^ 53)); lia.
Qed.

Lemma Inv_sendRequest (method : string) (params : JSON.value) (w : World) :
  Inv w → Inv (snd (sendRequest method params w)).
Proof.
  intros [I1 I2 I3 I4 I5 I6 I7].
  set (n := length (posts (rt w))).
  constructor; unfold request_id_at in *; simpl;
    rewrite ?length_app; simpl; try lia.
  - rewrite I3, pre_increment_counter. f_equal. lia.
  - intros f po Hf. apply lookup_app_Some in Hf as [Hf|[Hge Hf]].
    + by apply I4.
    + apply list_lookup_singleton_Some in Hf as [Hz <-]. simpl.
      assert (f = n) as -> by (unfold n; lia).
      repeat split; [unfold n; lia..|].
      exists (now (rt w)). rewrite I3. unfold request_id, counter_of.
      by rewrite pre_increment_counter.
  - intros t tm Ht. apply lookup_app_Some in Ht as [Ht|[Hge Ht]].
    + destruct (I5 _ _ Ht) as [E1 E2]. split; [done |].
      destruct (posts (rt w) !! t) as [po|] eqn:E; [|done].
      by rewrite (lookup_app_l_Some _ _ _ _ E).
    + apply list_lookup_singleton_Some in Ht as [Hz [= <-]]. simpl.
      assert (t = n) as -> by (unfold n; lia).
      split; [lia |].
      rewrite lookup_app_r by (unfold n; lia).
      replace (n - length (posts (rt w))) with 0 by (unfold n; lia).
      done.
  - intros rid pend Hr.
    apply lookup_insert_Some in Hr as [[<- <-]|[Hne Hr]]; simpl.
    + repeat split; try lia.
      * rewrite lookup_app_r by lia.
        replace (length (promises (rt w)) - length (posts (rt w))) with 0 by lia.
        done.
      * rewrite lookup_app_r by lia. by rewrite Nat.sub_diag.
      * eexists. rewrite lookup_app_r by lia.
        replace (length (promises (rt w)) - length (timers (rt w))) with 0 by lia.
        done.
    + destruct (I6 _ _ Hr) as (E1 & E2 & E3 & E4 & tm & E5).
      repeat split; try done.
      * destruct (posts (rt w) !! reject pend) as [po|] eqn:E; [|done].
        by rewrite (lookup_app_l_Some _ _ _ _ E).
      * by apply lookup_app_l_Some.
      * exists tm. by apply lookup_app_l_Some.
  - done.
Qed.

Lemma Inv_close (w : World) : Inv w → Inv (close w).
Proof.
  intros [I1 I2 I3 I4 I5 I6 I7]. unfold close.
  destruct (close_loop_spec w (pendingRequests (client w)))
    as (H1 & H2 & H3 & H4 & H5 & H6 & H7 & H8 & H9 & H10 & H11).
  set (r := map_fold close_entry w (pendingRequests (client w))) in *.
  assert (Inv (set_pendingRequests ∅ r)) as Hr.
  { constructor; unfold request_id_at in *; simpl; rewrite ?H1, ?H3.
    - lia.
    - lia.
    - done.
    - done.
    - intros t tm Ht. destruct (H10 t) as [E|E]; [|congruence].
      rewrite E in Ht. by apply I5.
    - intros rid pend Hl. by rewrite lookup_empty in Hl.
    - intros c Hc. rewrite H4. by apply I7. }
  simpl. rewrite H1.
  destruct (sseController (client w)) as [c|] eqn:Ec.
  - eapply Inv_same; [..|exact Hr]; try done.
  - eapply Inv_same; [..|exact Hr]; try done.
    simpl. rewrite H1, Ec. done.
Qed.

Lemma Inv_start_stream (w : World) : Inv w → Inv (start_stream w).
Proof.
  intros H. eapply Inv_same; [..|exact H]; try done.
  simpl. intros c [= <-]. rewrite length_app. simpl. lia.
Qed.

Lemma Inv_set_connected (b : bool) (w : World) : Inv w → Inv (set_connected b w).
Proof. intros H. eapply Inv_same; [..|exact H]; try done. apply H. Qed.

Lemma Inv_on_post_rejected (f : nat) (po : Post) (e : Error.t) (w : World) :
  posts (rt w) !! f = Some po → Inv w →
  Inv (on_post_rejected po e (finish_post f po w)).
Proof.
  intros Hf HI. destruct (inv_posts w HI f po Hf) as (E1 & E2 & _).
  unfold on_post_rejected, call_reject. rewrite E1, E2.
  apply Inv_retire; [|by apply Inv_set_phase].
  unfold finish_post. rewrite request_id_at_set_phase by done.
  unfold request_id_at. by rewrite Hf.
Qed.

Lemma Inv_on_post_data (f : nat) (po : Post) (data : JSONRPCResponse.t) (w : World) :
  posts (rt w) !! f = Some po → Inv w →
  Inv (on_post_data po data (finish_post f po w)).
Proof.
  intros Hf HI.
  assert (Inv (finish_post f po w)) as HI' by (by apply Inv_set_phase).
  unfold on_post_data.
  destruct (pendingRequests (client (finish_post f po w))
              !! JSONRPCRequest.id (request po)) as [pend|] eqn:E; [|done].
  destruct (inv_pending _ HI' _ _ E) as (E1 & E2 & E3 & _).
  unfold call_resolve. rewrite E1, E2. by apply Inv_retire.
Qed.

Lemma Inv_step (ev : Event) (w : World) : Inv w → Inv (step ev w).
Proof.
  intros HI. destruct ev as [dt|t|f|f e|f r|f data|f e|s chunk|s|s e|m ps|]; simpl.
  - eapply Inv_same; [..|exact HI]; try done. apply HI.
  - destruct (timers (rt w) !! t) as [[tm|]|] eqn:Et; try done.
    destruct (decide _); [|done].
    destruct (inv_armed w HI t tm Et) as [E1 E2].
    unfold on_timeout, call_reject. rewrite E1. by apply Inv_retire.
  - destruct (posts (rt w) !! f) as [po|] eqn:Ef; [|done].
    destruct (phase po); try done. destruct (decide _); [|done].
    by apply Inv_on_post_rejected.
  - destruct (posts (rt w) !! f) as [po|] eqn:Ef; [|done].
    destruct (phase po); try done. by apply Inv_on_post_rejected.
  - destruct (posts (rt w) !! f) as [po|] eqn:Ef; [|done].
    destruct (phase po); try done. destruct (Response.ok r).
    + by apply Inv_set_phase.
    + by apply Inv_on_post_rejected.
  - destruct (posts (rt w) !! f) as [po|] eqn:Ef; [|done].
    destruct (phase po); try done. by apply Inv_on_post_data.
  - destruct (posts (rt w) !! f) as [po|] eqn:Ef; [|done].
    destruct (phase po); try done. by apply Inv_on_post_rejected.
  - destruct (streams (rt w) !! s) as [st|]; [|done].
    destruct (ended st || is_aborted (signal st) w); [done |].
    unfold stream_chunk. destruct (SSEParser.parse chunk (parser st)).
    eapply Inv_same; [..|exact HI]; try done. apply HI.
  - destruct (streams (rt w) !! s) as [st|]; [|done].
    destruct (ended st); [done |].
    eapply Inv_same; [..|exact HI]; try done. apply HI.
  - destruct (streams (rt w) !! s) as [st|]; [|done].
    destruct (ended st); [done |]. apply Inv_close.
    eapply Inv_same; [..|exact HI]; try done. apply HI.
  - by apply Inv_sendRequest.
  - by apply Inv_close.
Qed.

Lemma Inv_run (evs : list Event) (w : World) : Inv w → Inv (run evs w).
Proof.
  revert w. induction evs as [|ev evs IH]; intros w HI; [done |].
  simpl. apply IH. by apply Inv_step.
Qed.

Lemma Inv_await (p : nat) (sched : list Event) (w : World) :
  Inv w → Inv (snd (await p sched w)).
Proof.
  revert w. induction sched as [|ev evs IH]; intros w HI; simpl.
  - by destruct (promises (rt w) !! p) as [[]|].
  - destruct (promises (rt w) !! p) as [[]|]; try done;
      apply IH; by apply Inv_step.
Qed.

Lemma Inv_connect (env : ConnectEnv) (w : World) :
  Inv w → Inv (snd (connect env w)).
Proof.
  intros HI. unfold connect, connect_catch.
  destruct (connected (client w)); [done |].
  pose proof (Inv_run (health_events env) w HI) as H1.
  destruct (fetchWithTimeout (health env) connectTimeout) as [r|e|];
    cbn [snd]; [|by apply Inv_close|done].
  destruct (negb (Response.ok r)); cbn [snd]; [by apply Inv_close |].
  pose proof (Inv_sendRequest "initialize" initialize_params _ H1) as H2.
  destruct (sendRequest "initialize" initialize_params
              (run (health_events env) w)) as [p w2].
  cbn [snd] in H2.
  pose proof (Inv_await p (initialize_events env) w2 H2) as H3.
  destruct (await p (initialize_events env) w2) as [[v|e|] w3]; cbn [snd] in *;
    [|by apply Inv_close|done].
  destruct (JSONRPCResponse.error v); cbn [snd]; [by apply Inv_close |].
  by apply Inv_set_connected, Inv_start_stream.
Qed.

Lemma Inv_listTools (sched : list Event) (w : World) :
  Inv w → Inv (snd (listTools sched w)).
Proof.
  intros HI. unfold listTools.
  destruct (negb (connected (client w))); [done |].
  pose proof (Inv_sendRequest "tools/list" (JSON.Obj []) _ HI) as H1.
  destruct (sendRequest "tools/list" (JSON.Obj []) w) as [p w1].
  cbn [snd] in H1.
  pose proof (Inv_await p sched w1 H1) as H2.
  destruct (await p sched w1) as [[v|e|] w2]; cbn [snd] in *; try done.
  destruct (JSONRPCResponse.error v); cbn [snd]; [done |].
  by destruct (get_prop (JSONRPCResponse.result v) "tools").
Qed.

Lemma Inv_callTool (toolName : string) (args : JSON.value)
    (sched : list Event) (w : World) :
  Inv w → Inv (snd (callTool toolName args sched w)).
Proof.
  intros HI. unfold callTool.
  destruct (negb (connected (client w))); [done |].
  pose proof (Inv_sendRequest "tools/call"
    (JSON.Obj [("name", JSON.Str toolName); ("arguments", args)]) _ HI) as H1.
  destruct (sendRequest "tools/call" _ w) as [p w1].
  cbn [snd] in H1.
  pose proof (Inv_await p sched w1 H1) as H2.
  destruct (await p sched w1) as [[v|e|] w2]; cbn [snd] in *; try done.
  by destruct (JSONRPCResponse.error v).
Qed.

(** The invariant holds throughout the life of a client. *)
Lemma reachable_Inv (w : World) : reachable w → Inv w.
Proof.
  induction 1; auto using Inv_new, Inv_step, Inv_connect, Inv_listTools,
    Inv_callTool.
Qed.

(** *** [close] *)

Lemma close_pending (w : World) : pendingRequests (client (close w)) = ∅.
Proof.
  unfold close. simpl.
  destruct (close_loop_spec w (pendingRequests (client w))) as (H1 & _).
  rewrite H1. by destruct (sseController (client w)).
Qed.

Lemma close_sseController (w : World) : sseController (client (close w)) = None.
Proof.
  unfold close. simpl.
  destruct (close_loop_spec w (pendingRequests (client w))) as (H1 & _).
  rewrite H1. destruct (sseController (client w)) eqn:E; simpl; [done |].
  by rewrite H1, E.
Qed.

Lemma close_promises (w : World) :
  promises (rt (close w))
  = promises (rt (map_fold close_entry w (pendingRequests (client w)))).
Proof.
  unfold close. simpl.
  destruct (close_loop_spec w (pendingRequests (client w))) as (H1 & _).
  rewrite H1. by destruct (sseController (client w)).
Qed.

Lemma close_timers (w : World) :
  timers (rt (close w))
  = timers (rt (map_fold close_entry w (pendingRequests (client w)))).
Proof.
  unfold close. simpl.
  destruct (close_loop_spec w (pendingRequests (client w))) as (H1 & _).
  rewrite H1. by destruct (sseController (client w)).
Qed.

Lemma close_streams (w : World) : streams (rt (close w)) = streams (rt w).
Proof.
  unfold close. simpl.
  destruct (close_loop_spec w (pendingRequests (client w)))
    as (H1 & _ & _ & _ & H5 & _).
  rewrite H1. by destruct (sseController (client w)).
Qed.

Lemma close_aborts (w : World) (c : nat) :
  sseController (client w) = Some c → c < length (controllers (rt w)) →
  is_aborted c (close w) = true.
Proof.
  intros Hc Hlt. unfold close, is_aborted. simpl.
  destruct (close_loop_spec w (pendingRequests (client w)))
    as (H1 & _ & _ & H4 & _).
  rewrite H1, Hc. simpl. rewrite H4.
  by rewrite list_lookup_insert_eq.
Qed.

(** *** Streams *)

Lemma StreamInv_same (w w' : World) :
  streams (rt w') = streams (rt w) →
  controllers (rt w') = controllers (rt w) →
  connected (client w') = connected (client w) →
  sseController (client w') = sseController (client w) →
  StreamInv w → StreamInv w'.
Proof.
  intros Hs Hc Hk Hx HI s st. unfold live, is_aborted.
  rewrite Hs, Hc, Hk, Hx. apply HI.
Qed.

Lemma close_controllers (w : World) :
  controllers (rt (close w))
  = match sseController (client w) with
    | Some c => <[c := true]> (controllers (rt w))
    | None => controllers (rt w)
    end.
Proof.
  unfold close. simpl.
  destruct (close_loop_spec w (pendingRequests (client w)))
    as (H1 & _ & _ & H4 & _).
  rewrite H1. destruct (sseController (client w)); simpl; by rewrite H4.
Qed.

(** [close] never resets an abort signal. *)
Lemma is_aborted_close (w : World) (x : nat) :
  is_aborted x (close w) = false → is_aborted x w = false.
Proof.
  unfold is_aborted. rewrite close_controllers.
  destruct (sseController (client w)) as [c|]; [|done].
  destruct (decide (x = c)) as [->|Hne].
  - destruct (decide (c < length (controllers (rt w)))).
    + by rewrite list_lookup_insert_eq.
    + rewrite list_insert_ge; [done | lia].
  - by rewrite list_lookup_insert_ne.
Qed.

Lemma StreamInv_close (w : World) : StreamInv w → no_live_stream (close w).
Proof.
  intros HI s st Hs. rewrite close_streams in Hs.
  destruct (live (close w) st) eqn:El; [|done].
  unfold live in El. apply andb_true_iff in El as [E1 E2].
  apply negb_true_iff in E2.
  assert (live w st = true) as Hl.
  { unfold live. rewrite E1. by rewrite (is_aborted_close _ _ E2). }
  destruct (HI s st Hs Hl) as (_ & Hc & Hlt).
  by rewrite (close_aborts w _ Hc Hlt) in E2.
Qed.

Lemma no_live_StreamInv (w : World) : no_live_stream w → StreamInv w.
Proof. intros H s st Hs Hl. rewrite (H s st Hs) in Hl. done. Qed.

Lemma StreamInv_update (s : nat) (st st' : Stream) (w : World) :
  streams (rt w) !! s = Some st → signal st' = signal st →
  (ended st = true → ended st' = true) →
  StreamInv w → StreamInv (set_streams (<[s := st']> (streams (rt w))) w).
Proof.
  intros Hs Hsig He HI s0 st0 Hs0 Hl. simpl in *.
  destruct (decide (s0 = s)) as [->|Hne].
  - rewrite list_lookup_insert_eq in Hs0 by (by eapply lookup_lt_Some).
    injection Hs0 as <-. rewrite Hsig. apply (HI s st Hs).
    unfold live, is_aborted in *. simpl in Hl. rewrite Hsig in Hl.
    apply andb_true_iff in Hl as [E1 E2]. rewrite E2, andb_true_r.
    destruct (ended st); [|done]. by rewrite He in E1.
  - rewrite list_lookup_insert_ne in Hs0 by done. by apply (HI s0).
Qed.

Lemma StreamInv_step (ev : Event) (w : World) : StreamInv w → StreamInv (step ev w).
Proof.
  intros HI.
  assert (∀ w', streams (rt w') = streams (rt w) →
                controllers (rt w') = controllers (rt w) →
                connected (client w') = connected (client w) →
                sseController (client w') = sseController (client w) →
                StreamInv w') as Hsame
    by (intros; by eapply StreamInv_same; [..|exact HI]).
  destruct ev as [dt|t|f|f e|f r|f data|f e|s chunk|s|s e|m ps|]; simpl.
  - by apply Hsame.
  - destruct (timers (rt w) !! t) as [[tm|]|]; try done.
    destruct (decide _); [|done]. by apply Hsame.
  - destruct (posts (rt w) !! f) as [po|]; [|done].
    destruct (phase po); try done. destruct (decide _); [|done].
    by apply Hsame.
  - destruct (posts (rt w) !! f) as [po|]; [|done].
    destruct (phase po); first [done | by apply Hsame].
  - destruct (posts (rt w) !! f) as [po|]; [|done].
    destruct (phase po); try done.
    destruct (Response.ok r); by apply Hsame.
  - destruct (posts (rt w) !! f) as [po|]; [|done].
    destruct (phase po); try done. unfold on_post_data.
    destruct (pendingRequests _ !! _); by apply Hsame.
  - destruct (posts (rt w) !! f) as [po|]; [|done].
    destruct (phase po); first [done | by apply Hsame].
  - destruct (streams (rt w) !! s) as [st|] eqn:Es; [|done].
    destruct (ended st || is_aborted (signal st) w); [done |].
    unfold stream_chunk. destruct (SSEParser.parse chunk (parser st)).
    by eapply StreamInv_update.
  - destruct (streams (rt w) !! s) as [st|] eqn:Es; [|done].
    destruct (ended st); [done |]. by eapply StreamInv_update.
  - destruct (streams (rt w) !! s) as [st|] eqn:Es; [|done].
    destruct (ended st); [done |].
    apply no_live_StreamInv, StreamInv_close. by eapply StreamInv_update.
  - by apply Hsame.
  - by apply no_live_StreamInv, StreamInv_close.
Qed.

Lemma StreamInv_run (evs : list Event) (w : World) :
  StreamInv w → StreamInv (run evs w).
Proof.
  revert w. induction evs as [|ev evs IH]; intros w HI; [done |].
  simpl. apply IH. by apply StreamInv_step.
Qed.

Lemma StreamInv_await (p : nat) (sched : list Event) (w : World) :
  StreamInv w → StreamInv (snd (await p sched w)).
Proof.
  revert w. induction sched as [|ev evs IH]; intros w HI; simpl.
  - by destruct (promises (rt w) !! p) as [[]|].
  - destruct (promises (rt w) !! p) as [[]|]; try done;
      apply IH; by apply StreamInv_step.
Qed.

Lemma StreamInv_sendRequest (m : string) (ps : JSON.value) (w : World) :
  StreamInv w → StreamInv (snd (sendRequest m ps w)).
Proof. intros HI. by eapply StreamInv_same; [..|exact HI]. Qed.

(** Events never connect a client. *)
Lemma step_connected_false (ev : Event) (w : World) :
  connected (client w) = false → connected (client (step ev w)) = false.
Proof.
  intros Hc. destruct ev as [dt|t|f|f e|f r|f data|f e|s chunk|s|s e|m ps|];
    simpl; try done.
  - destruct (timers (rt w) !! t) as [[tm|]|]; try done.
    by destruct (decide _).
  - destruct (posts (rt w) !! f) as [po|]; [|done].
    destruct (phase po); try done. by destruct (decide _).
  - destruct (posts (rt w) !! f) as [po|]; [|done].
    by destruct (phase po).
  - destruct (posts (rt w) !! f) as [po|]; [|done].
    destruct (phase po); try done. by destruct (Response.ok r).
  - destruct (posts (rt w) !! f) as [po|]; [|done].
    destruct (phase po); try done. unfold on_post_data.
    by destruct (pendingRequests _ !! _).
  - destruct (posts (rt w) !! f) as [po|]; [|done].
    by destruct (phase po).
  - destruct (streams (rt w) !! s) as [st|]; [|done].
    destruct (ended st || is_aborted (signal st) w); [done |].
    unfold stream_chunk. by destruct (SSEParser.parse chunk (parser st)).
  - destruct (streams (rt w) !! s) as [st|]; [|done]. by destruct (ended st).
  - destruct (streams (rt w) !! s) as [st|]; [|done]. by destruct (ended st).
Qed.

Lemma run_connected_false (evs : list Event) (w : World) :
  connected (client w) = false → connected (client (run evs w)) = false.
Proof.
  revert w. induction evs as [|ev evs IH]; intros w Hc; [done |].
  simpl. apply IH. by apply step_connected_false.
Qed.

Lemma await_connected_false (p : nat) (sched : list Event) (w : World) :
  connected (client w) = false →
  connected (client (snd (await p sched w))) = false.
Proof.
  revert w. induction sched as [|ev evs IH]; intros w Hc; simpl.
  - by destruct (promises (rt w) !! p) as [[]|].
  - destruct (promises (rt w) !! p) as [[]|]; try done;
      apply IH; by apply step_connected_false.
Qed.

Lemma StreamInv_not_connected (w : World) :
  StreamInv w → connected (client w) = false → no_live_stream w.
Proof.
  intros HI Hc s st Hs. destruct (live w st) eqn:El; [|done].
  destruct (HI s st Hs El) as [E _]. congruence.
Qed.

Lemma StreamInv_start_stream (w : World) :
  no_live_stream w → StreamInv (set_connected true (start_stream w)).
Proof.
  intros Hn s st Hs Hl. simpl in *.
  apply lookup_app_Some in Hs as [Hs|[Hge Hs]].
  - exfalso. specialize (Hn s st Hs).
    unfold live, is_aborted in *. simpl in Hl.
    apply andb_true_iff in Hl as [E1 E2]. rewrite E1 in Hn. simpl in Hn.
    destruct (controllers (rt w) !! signal st) as [b|] eqn:Ec.
    + rewrite (lookup_app_l_Some _ _ _ _ Ec) in E2. congruence.
    + done.
  - apply list_lookup_singleton_Some in Hs as [_ <-]. simpl.
    repeat split; try done. rewrite length_app. simpl. lia.
Qed.

Lemma StreamInv_connect (env : ConnectEnv) (w : World) :
  StreamInv w → StreamInv (snd (connect env w)).
Proof.
  intros HI. unfold connect, connect_catch.
  destruct (connected (client w)) eqn:Hc; [done |].
  pose proof (StreamInv_run (health_events env) w HI) as H1.
  pose proof (run_connected_false (health_events env) w Hc) as C1.
  destruct (fetchWithTimeout (health env) connectTimeout) as [r|e|];
    cbn [snd]; [|by apply no_live_StreamInv, StreamInv_close|done].
  destruct (negb (Response.ok r)); cbn [snd];
    [by apply no_live_StreamInv, StreamInv_close |].
  pose proof (StreamInv_sendRequest "initialize" initialize_params _ H1) as H2.
  assert (connected (client (snd (sendRequest "initialize" initialize_params
                                    (run (health_events env) w)))) = false)
    as C2 by done.
  destruct (sendRequest "initialize" initialize_params
              (run (health_events env) w)) as [p w2].
  cbn [snd] in H2, C2.
  pose proof (StreamInv_await p (initialize_events env) w2 H2) as H3.
  pose proof (await_connected_false p (initialize_events env) w2 C2) as C3.
  destruct (await p (initialize_events env) w2) as [[v|e|] w3]; cbn [snd] in *;
    [|by apply no_live_StreamInv, StreamInv_close|done].
  destruct (JSONRPCResponse.error v); cbn [snd];
    [by apply no_live_StreamInv, StreamInv_close |].
  by apply StreamInv_start_stream, StreamInv_not_connected.
Qed.

Lemma StreamInv_listTools (sched : list Event) (w : World) :
  StreamInv w → StreamInv (snd (listTools sched w)).
Proof.
  intros HI. unfold listTools.
  destruct (negb (connected (client w))); [done |].
  pose proof (StreamInv_sendRequest "tools/list" (JSON.Obj []) _ HI) as H1.
  destruct (sendRequest "tools/list" (JSON.Obj []) w) as [p w1].
  cbn [snd] in H1.
  pose proof (StreamInv_await p sched w1 H1) as H2.
  destruct (await p sched w1) as [[v|e|] w2]; cbn [snd] in *; try done.
  destruct (JSONRPCResponse.error v); cbn [snd]; [done |].
  by destruct (get_prop (JSONRPCResponse.result v) "tools").
Qed.

Lemma StreamInv_callTool (toolName : string) (args : JSON.value)
    (sched : list Event) (w : World) :
  StreamInv w → StreamInv (snd (callTool toolName args sched w)).
Proof.
  intros HI. unfold callTool.
  destruct (negb (connected (client w))); [done |].
  pose proof (StreamInv_sendRequest "tools/call"
    (JSON.Obj [("name", JSON.Str toolName); ("arguments", args)]) _ HI) as H1.
  destruct (sendRequest "tools/call" _ w) as [p w1].
  cbn [snd] in H1.
  pose proof (StreamInv_await p sched w1 H1) as H2.
  destruct (await p sched w1) as [[v|e|] w2]; cbn [snd] in *; try done.
  by destruct (JSONRPCResponse.error v).
Qed.

Lemma reachable_StreamInv (w : World) : reachable w → StreamInv w.
Proof.
  induction 1; auto using StreamInv_step, StreamInv_connect,
    StreamInv_listTools, StreamInv_callTool.
  by intros s st Hs.
Qed.

(** A failed [connect()] ends with the [catch] block: the world is the
    result of a [close()]. *)
(** [close()] rejects every pending request and clears its timer. *)
Lemma close_rejects_pending (w : World) (rid : string) (pend : PendingRequest) :
  Inv w → pendingRequests (client w) !! rid = Some pend →
  promises (rt (close w)) !! reject pend
  = Some (Rejected (Error.new "Connection closed"))
  ∧ timers (rt (close w)) !! timeout pend = Some None.
Proof.
  intros HI Hpend.
  destruct (close_loop_spec w (pendingRequests (client w)))
    as (_ & _ & _ & _ & _ & _ & _ & _ & H9 & _ & H11).
  destruct (inv_pending w HI rid pend Hpend) as (_ & E & _ & Hu & tm & Ht).
  split.
  - rewrite close_promises. by apply (H9 rid).
  - rewrite close_timers. apply (H11 rid); [done |].
    rewrite E. by eapply lookup_lt_Some.
Qed.

(** A [connect()] that throws inside its sequence has run [close()] on the
    client as it was when the failure occurred. *)
Lemma connect_throws_at (env : ConnectEnv) (w : World) (e : Error.t)
    (w' : World) :
  connected (client w) = false →
  connect env w = (Throws e, w') →
  Inv w → StreamInv w →
  let w1 := run (health_events env) w in
  let sent := sendRequest "initialize" initialize_params w1 in
  let w3 := snd (await (fst sent) (initialize_events env) (snd sent)) in
  let failed_at :=
    match fetchWithTimeout (health env) connectTimeout with
    | Returns healthCheck => if Response.ok healthCheck then w3 else w1
    | _ => w1
    end in
  w' = close failed_at ∧ Inv failed_at ∧ StreamInv failed_at.
Proof.
  intros Hc Hconn HI HS w1 sent w3 failed_at. revert Hconn.
  assert (Inv w1) as HI1 by (by apply Inv_run).
  assert (StreamInv w1) as HS1 by (by apply StreamInv_run).
  assert (Inv w3 ∧ StreamInv w3) as [HI3 HS3].
  { unfold w3, sent. split.
    - by apply Inv_await, Inv_sendRequest.
    - by apply StreamInv_await, StreamInv_sendRequest. }
  unfold connect, connect_catch. rewrite Hc. fold w1.
  unfold failed_at, w3, sent in *. clear failed_at w3 sent.
  destruct (fetchWithTimeout (health env) connectTimeout) as [r|e0|].
  - destruct (Response.ok r); cbn [negb].
    + destruct (sendRequest "initialize" initialize_params w1) as [p w2].
      cbn [fst snd] in *.
      destruct (await p (initialize_events env) w2) as [[v|e1|] w4];
        cbn [snd] in *.
      * destruct (JSONRPCResponse.error v); [|done]. by intros [= <- <-].
      * by intros [= <- <-].
      * done.
    + by intros [= <- <-].
  - by intros [= <- <-].
  - done.
Qed.

End RuntimeFacts.

(** C5.  In every state a client can be in, [close()] returns without
    throwing; afterwards the pending-request table is empty, every request
    that was in the table has its promise rejected with "Connection
    closed" and its timer cleared, the controller of the background stream
    is aborted and forgotten, no stream is live, and the client is not
    connected. *)
Theorem C5_close_tears_down (w : MCP.World) :
  Lifetime.reachable w →
  MCP.call_close w = (Returns tt, MCP.close w)
  ∧ MCP.pendingRequests (MCP.client (MCP.close w)) = ∅
  ∧ (∀ rid pend,
       MCP.pendingRequests (MCP.client w) !! rid = Some pend →
       MCP.promises (MCP.rt (MCP.close w)) !! MCP.reject pend
       = Some (MCP.Rejected (Error.new "Connection closed"))
       ∧ MCP.timers (MCP.rt (MCP.close w)) !! MCP.timeout pend = Some None)
  ∧ (∀ c, MCP.sseController (MCP.client w) = Some c →
          MCP.is_aborted c (MCP.close w) = true)
  ∧ MCP.sseController (MCP.client (MCP.close w)) = None
  ∧ Lifetime.no_live_stream (MCP.close w)
  ∧ MCP.isConnected (MCP.close w) = false.
Proof.
  intros Hr. pose proof (reachable_Inv w Hr) as HI.
  pose proof (reachable_StreamInv w Hr) as HS.
  destruct (close_loop_spec w (MCP.pendingRequests (MCP.client w)))
    as (_ & _ & _ & _ & _ & _ & _ & _ & H9 & _ & H11).
  repeat split.
  - apply close_pending.
  - rewrite close_promises. apply (H9 rid); [done |].
    by destruct (Lifetime.inv_pending w HI rid pend) as (_ & _ & _ & ? & _).
  - rewrite close_timers. apply (H11 rid); [done |].
    destruct (Lifetime.inv_pending w HI rid pend) as (_ & E & _ & _ & tm & Ht);
      [done |].
    rewrite E. by eapply lookup_lt_Some.
  - intros c Hc. apply close_aborts; [done |].
    by apply (Lifetime.inv_controller w HI).
  - apply close_sseController.
  - by apply StreamInv_close.
Qed.

(** Closing a connected client that has a request in flight. *)
Lemma C5_close_tears_down_witness :
  MCP.pendingRequests (MCP.client (MCP.close Example.busy)) = ∅
  ∧ MCP.isConnected (MCP.close Example.busy) = false.
Proof.
  assert (Lifetime.reachable Example.busy) as Hr
    by (apply Lifetime.reach_step, Lifetime.reach_connect, Lifetime.reach_new).
  destruct (C5_close_tears_down Example.busy Hr) as (_ & H1 & _ & _ & _ & _ & H2).
  split; [exact H1 | exact H2].
Defined.

(** C10.  [connect()] on a connected client throws "Already connected"
    and changes nothing: the flag stays set, the table, the timers, the
    controller and the streams are as before. *)
Theorem C10_connect_when_connected (env : MCP.ConnectEnv) (w : MCP.World) :
  MCP.connected (MCP.client w) = true →
  MCP.connect env w
  = (Throws (Error.new "Already connected to MCP server"), w).
Proof. intros H. unfold MCP.connect. by rewrite H. Qed.

Lemma C10_connect_when_connected_witness :
  MCP.connected (MCP.client Example.connected_client) = true
  ∧ MCP.connect Scenario.reachable_env Example.connected_client
    = (Throws (Error.new "Already connected to MCP server"),
       Example.connected_client).
Proof.
  split; [reflexivity |].
  apply (C10_connect_when_connected Scenario.reachable_env
           Example.connected_client).
  reflexivity.
Defined.

(** C6.  When [connect()] fails inside its sequence (health check,
    initialize request or a transport error), the error reaches the caller
    only after [close()] ran on the client as it was when the failure
    occurred: the resulting world is the result of that [close()]; every
    request that was pending at the failure has its promise rejected with
    "Connection closed" and its timer cleared; a controller held then is
    aborted; and the client is not connected, its table is empty, it
    holds no controller and no stream is live. *)
Theorem C6_failed_connect_tears_down
    (env : MCP.ConnectEnv) (w : MCP.World) (e : Error.t) (w' : MCP.World) :
  Lifetime.reachable w →
  MCP.connected (MCP.client w) = false →
  MCP.connect env w = (Throws e, w') →
  let w1 := MCP.run (MCP.health_events env) w in
  let sent := MCP.sendRequest "initialize" MCP.initialize_params w1 in
  let w3 := snd (MCP.await (fst sent) (MCP.initialize_events env) (snd sent)) in
  let failed_at :=
    match MCP.fetchWithTimeout (MCP.health env) MCP.connectTimeout with
    | Returns healthCheck => if Response.ok healthCheck then w3 else w1
    | _ => w1
    end in
  w' = MCP.close failed_at
  ∧ (∀ rid pend,
       MCP.pendingRequests (MCP.client failed_at) !! rid = Some pend →
       MCP.promises (MCP.rt w') !! MCP.reject pend
       = Some (MCP.Rejected (Error.new "Connection closed"))
       ∧ MCP.timers (MCP.rt w') !! MCP.timeout pend = Some None)
  ∧ (∀ c, MCP.sseController (MCP.client failed_at) = Some c →
          MCP.is_aborted c w' = true)
  ∧ MCP.isConnected w' = false
  ∧ MCP.pendingRequests (MCP.client w') = ∅
  ∧ MCP.sseController (MCP.client w') = None
  ∧ Lifetime.no_live_stream w'.
Proof.
  intros Hr Hc Hconn w1 sent w3 failed_at.
  pose proof (reachable_Inv w Hr) as HI.
  pose proof (reachable_StreamInv w Hr) as HS.
  destruct (connect_throws_at env w e w' Hc Hconn HI HS) as (-> & HI0 & HS0).
  fold w1 sent w3 failed_at in HI0, HS0 |- *.
  split; [done |].
  split; [intros rid pend Hp;
          exact (close_rejects_pending failed_at rid pend HI0 Hp) |].
  split; [intros c Hcc; apply close_aborts;
            [done | by apply (Lifetime.inv_controller failed_at HI0)] |].
  split; [done |]. split; [apply close_pending |].
  split; [apply close_sseController |]. by apply StreamInv_close.
Qed.

(** A fresh client whose owner starts a request while [connect()] waits
    for the health check, and whose server cannot be reached: the request
    is rejected by the teardown. *)
Lemma C6_failed_connect_witness :
  ∃ e w',
    MCP.connect Example.overlapping_env Scenario.email0 = (Throws e, w')
    ∧ MCP.promises (MCP.rt w') !! 0%nat
      = Some (MCP.Rejected (Error.new "Connection closed"))
    ∧ MCP.timers (MCP.rt w') !! 0%nat = Some None
    ∧ MCP.isConnected w' = false
    ∧ MCP.pendingRequests (MCP.client w') = ∅.
Proof.
  eexists _, _. split; [reflexivity |].
  edestruct (C6_failed_connect_tears_down Example.overlapping_env
               Scenario.email0) as (_ & H0 & _ & H1 & H2 & _).
  - apply Lifetime.reach_new.
  - reflexivity.
  - reflexivity.
  - destruct (H0 "req_1_0" (MCP.mkPending 0 0 0)) as [H3 H4];
      [vm_compute; reflexivity |].
    split; [exact H3 |]. split; [exact H4 |]. split; [exact H1 | exact H2].
Defined.

(** C7.  [listTools()] throws "Not connected" on a client that is not
    connected, without sending anything.  On a connected client it sends
    the discovery request and awaits it: a rejection is thrown on; a
    response carrying a protocol error makes it throw "Failed to list
    tools: <message> (<code>)"; an error-free response without a result
    ([result] absent or [null]) makes it throw a [TypeError]; an
    error-free response with a result makes it return the value of the
    [tools] property of the result when that value is truthy, and the
    empty list when the property is absent or falsy. *)
Theorem C7_listTools_outcomes (sched : list MCP.Event) (w : MCP.World) :
  (MCP.connected (MCP.client w) = false →
   MCP.listTools sched w = (Throws MCP.not_connected_error, w))
  ∧ (MCP.connected (MCP.client w) = true →
     let sent := MCP.sendRequest "tools/list" (JSON.Obj []) w in
     (∀ e w2,
        MCP.await (fst sent) sched (snd sent) = (Throws e, w2) →
        MCP.listTools sched w = (Throws e, w2))
     ∧ (∀ response w2,
          MCP.await (fst sent) sched (snd sent) = (Returns response, w2) →
          (∀ err, JSONRPCResponse.error response = Some err →
                  MCP.listTools sched w
                  = (Throws
                       (Error.new
                          ("Failed to list tools: " +:+ RpcError.message err
                           +:+ " (" +:+ Number.text (RpcError.code err)
                           +:+ ")")), w2))
          ∧ (JSONRPCResponse.error response = None →
             (JSONRPCResponse.result response = None →
              MCP.listTools sched w
              = (Throws
                   (Error.TypeError
                      "Cannot read properties of undefined (reading 'tools')"),
                 w2))
             ∧ (JSONRPCResponse.result response = Some JSON.Null →
                MCP.listTools sched w
                = (Throws
                     (Error.TypeError
                        "Cannot read properties of null (reading 'tools')"),
                   w2))
             ∧ (∀ fields,
                  JSONRPCResponse.result response = Some (JSON.Obj fields) →
                  (∀ tools,
                     JSON.lookup_field "tools" fields = Some tools →
                     JSON.truthy (Some tools) = true →
                     MCP.listTools sched w = (Returns tools, w2))
                  ∧ (JSON.truthy (JSON.lookup_field "tools" fields) = false →
                     MCP.listTools sched w = (Returns (JSON.Arr []), w2)))
             ∧ (∀ v,
                  JSONRPCResponse.result response = Some v →
                  match v with
                  | JSON.Null | JSON.Obj _ => False
                  | _ => True
                  end →
                  MCP.listTools sched w = (Returns (JSON.Arr []), w2))))).
Proof.
  split.
  - intros Hc. unfold MCP.listTools. by rewrite Hc.
  - intros Hc sent. unfold MCP.listTools. rewrite Hc. cbn [negb].
    fold sent. destruct sent as [p w1]. cbn [fst snd].
    split.
    + intros e w2 ->. done.
    + intros response w2 ->. split.
      * by intros err ->.
      * intros ->. split; [by intros -> |]. split; [by intros -> |]. split.
        -- intros fields ->. cbn [get_prop]. split.
           ++ intros tools -> Ht. unfold MCP.or_empty_array. by rewrite Ht.
           ++ intros Ht. unfold MCP.or_empty_array.
              destruct (JSON.lookup_field "tools" fields); [|done].
              by rewrite Ht.
        -- intros v -> Hv. by destruct v.
Qed.

(** A connected client whose server answers the discovery request with one
    tool. *)
Lemma C7_listTools_witness :
  fst (MCP.listTools (Scenario.answers 1 "req_2_0" Example.one_tool)
         Example.connected_client)
  = Returns
      (JSON.Arr
         [JSON.Obj [("name", JSON.Str "getCustomerEmail");
                    ("description", JSON.Str "Get customer email by order ID")]]).
Proof.
  destruct (C7_listTools_outcomes (Scenario.answers 1 "req_2_0" Example.one_tool)
              Example.connected_client) as [_ H].
  specialize (H eq_refl). cbv zeta in H. destruct H as [_ H].
  edestruct H as [_ H']; [vm_compute; reflexivity |].
  destruct (H' eq_refl) as (_ & _ & H1 & _).
  edestruct H1 as [H2 _]; [reflexivity |].
  rewrite (H2 _ eq_refl eq_refl). reflexivity.
Defined.

(** C7 for a response that has neither [error] nor [result]: the field
    listing the tools is absent, and [listTools()] throws a [TypeError]
    instead of returning the empty list. *)
Lemma C7_counterexample_result_absent :
  fst (MCP.listTools
         [MCP.PostFetchResolves 1 Scenario.response_ok;
          MCP.PostBodyParsed 1 (JSONRPCResponse.mk "req_2_0" None None)]
         Example.connected_client)
  = Throws
      (Error.TypeError "Cannot read properties of undefined (reading 'tools')").
Proof. vm_compute. reflexivity. Qed.

(** * Correlation ids *)

Section RequestIds.
Import MCP Lifetime.

Lemma pretty_N_char_digit (x : N) : is_digit (pretty_N_char x) = true.
Proof. unfold pretty_N_char. by repeat case_match. Qed.

Lemma pretty_N_go_digits (x : N) (s : string) :
  all_digits s = true → all_digits (pretty_N_go x s) = true.
Proof.
  revert s. induction (N.lt_wf_0 x) as [x _ IH]; intros s Hs.
  destruct (decide (x = 0)%N) as [->|Hx].
  - by rewrite pretty_N_go_0.
  - rewrite pretty_N_go_step by lia.
    apply IH; [apply N.div_lt; lia |].
    simpl. by rewrite pretty_N_char_digit, Hs.
Qed.

(** The decimal text of the counter is made of digits only. *)
Lemma pretty_N_digits (x : N) : all_digits (pretty x) = true.
Proof.
  unfold pretty, pretty_N. destruct (decide (x = 0)%N); [done |].
  by apply pretty_N_go_digits.
Qed.

(** Two texts made of digits, each followed by an underscore, agree when
    what they start agrees. *)
Lemma digits_before_underscore (a b s s' : string) :
  all_digits a = true → all_digits b = true →
  a +:+ "_" +:+ s = b +:+ "_" +:+ s' → a = b.
Proof.
  revert b. induction a as [|c a IH]; intros [|d b] Ha Hb H; simpl in *.
  - done.
  - rewrite append_nil_l, !append_cons in H. injection H as <- _.
    by apply andb_true_iff in Hb as [Hb _].
  - rewrite append_nil_l, !append_cons in H. injection H as -> _.
    by apply andb_true_iff in Ha as [Ha _].
  - rewrite !append_cons in H. injection H as -> H.
    apply andb_true_iff in Ha as [_ Ha]. apply andb_true_iff in Hb as [_ Hb].
    f_equal. by apply IH.
Qed.

(** Ids minted at different counter values differ, whatever the clock. *)
Lemma request_id_inj (c c' : N) (t t' : Z) :
  request_id c t = request_id c' t' → c = c'.
Proof.
  unfold request_id. intros H.
  rewrite !append_cons, !append_nil_l in H.
  injection H as H.
  apply digits_before_underscore in H; try apply pretty_N_digits.
  by apply (inj pretty).
Qed.

Lemma counter_of_inj (f g : nat) :
  (N.of_nat (S f) < 2 ^ 53)%N → counter_of f = counter_of g → f = g.
Proof. unfold counter_of. lia. Qed.

(** While the counter is below [2^53], each request id names one
    request. *)
Lemma request_id_at_inj (w : World) (f g : nat) (rid : string) :
  Inv w → (requestIdCounter (client w) < 2 ^ 53)%N →
  request_id_at w f = Some rid → request_id_at w g = Some rid → f = g.
Proof.
  intros HI Hc Hf Hg. unfold request_id_at in *.
  destruct (posts (rt w) !! f) as [po|] eqn:Ef; [|done].
  destruct (posts (rt w) !! g) as [po'|] eqn:Eg; [|done].
  simpl in *. injection Hf as Hf. injection Hg as Hg.
  destruct (inv_posts w HI f po Ef) as (_ & _ & t & E1).
  destruct (inv_posts w HI g po' Eg) as (_ & _ & t' & E2).
  rewrite Hf in E1. rewrite Hg, E1 in E2.
  apply request_id_inj in E2.
  apply counter_of_inj in E2; [done |].
  pose proof (lookup_lt_Some _ _ _ Ef) as Hlt.
  rewrite (inv_counter w HI) in Hc. lia.
Qed.

Lemma minted_ids_NoDup (w : World) :
  Inv w → (requestIdCounter (client w) < 2 ^ 53)%N → NoDup (minted_ids w).
Proof.
  intros HI Hc. apply NoDup_alt. intros f g rid Hf Hg.
  unfold minted_ids in *. rewrite list_lookup_fmap in Hf, Hg.
  by apply (request_id_at_inj w f g rid).
Qed.

End RequestIds.

(** * What events do to requests *)

Section Dynamics.
Import MCP Lifetime.

Lemma fetch_error_abort :
  fetch_error Error.AbortError requestTimeout = timeout_error requestTimeout.
Proof. reflexivity. Qed.

Lemma effect_on_post_rejected (ev : Event) (f : nat) (po : Post) (e : Error.t)
    (w : World) :
  Inv w → posts (rt w) !! f = Some po →
  Cause w f ev (Rejected e) →
  Effect ev w (on_post_rejected po e (finish_post f po w)).
Proof.
  intros HI Hf Hc. destruct (inv_posts w HI f po Hf) as (E1 & E2 & _).
  apply (eff_retire ev w _ f (JSONRPCRequest.id (request po)) (Rejected e));
    try done.
  - unfold request_id_at. by rewrite Hf.
  - simpl. by rewrite E1.
  - simpl. by rewrite E2.
Qed.

(** Every event is of one of four kinds. *)
Lemma step_effect (ev : Event) (w : World) : Inv w → Effect ev w (step ev w).
Proof.
  intros HI.
  assert (Effect ev w w) as Hnone by (by apply eff_none).
  destruct ev as [dt|t|f|f e|f r|f data|f e|s chunk|s|s e|m ps|]; simpl.
  - apply eff_none; simpl; try done. lia.
  - destruct (timers (rt w) !! t) as [[tm|]|] eqn:Et; try done.
    destruct (decide _) as [Hd|]; [|done].
    destruct (inv_armed w HI t tm Et) as [E1 E2].
    apply (eff_retire _ w _ t (timer_requestId tm)
             (Rejected (timeout_error requestTimeout))); try done.
    + by eapply cause_timer.
    + simpl. by rewrite E1.
  - destruct (posts (rt w) !! f) as [po|] eqn:Ef; [|done].
    destruct (phase po) as [d| |] eqn:Ep; try done.
    destruct (decide _) as [Hd|]; [|done].
    rewrite fetch_error_abort.
    apply effect_on_post_rejected; try done. by eapply cause_abort.
  - destruct (posts (rt w) !! f) as [po|] eqn:Ef; [|done].
    destruct (phase po) as [d| |] eqn:Ep; try done.
    apply effect_on_post_rejected; try done. apply cause_fetch_rejects.
  - destruct (posts (rt w) !! f) as [po|] eqn:Ef; [|done].
    destruct (phase po) as [d| |] eqn:Ep; try done.
    destruct (Response.ok r).
    + by apply eff_none.
    + apply effect_on_post_rejected; try done. apply cause_http.
  - destruct (posts (rt w) !! f) as [po|] eqn:Ef; [|done].
    destruct (phase po) as [d| |] eqn:Ep; try done.
    unfold on_post_data. simpl.
    destruct (pendingRequests (client w) !! JSONRPCRequest.id (request po))
      as [pend|] eqn:El; [|by apply eff_none].
    destruct (inv_pending w HI _ _ El) as (E1 & E2 & E3 & _).
    apply (eff_retire _ w _ (reject pend) (JSONRPCRequest.id (request po))
             (Fulfilled data)); try done.
    + apply cause_body; unfold request_id_at in *; rewrite Ef; [by eexists |].
      by rewrite E3.
    + simpl. by rewrite E1.
    + simpl. by rewrite E2.
  - destruct (posts (rt w) !! f) as [po|] eqn:Ef; [|done].
    destruct (phase po) as [d| |] eqn:Ep; try done.
    apply effect_on_post_rejected; try done. apply cause_body_fails.
  - destruct (streams (rt w) !! s) as [st|]; [|done].
    destruct (ended st || is_aborted (signal st) w); [done |].
    unfold stream_chunk. destruct (SSEParser.parse chunk (parser st)).
    by apply eff_none.
  - destruct (streams (rt w) !! s) as [st|]; [|done].
    destruct (ended st); [done |]. by apply eff_none.
  - destruct (streams (rt w) !! s) as [st|]; [|done].
    destruct (ended st); [done |].
    by apply (eff_close _ w _ (stream_end s st w)).
  - by eapply eff_send.
  - by apply (eff_close _ w _ w).
Qed.

Lemma close_posts (w : World) : posts (rt (close w)) = posts (rt w).
Proof.
  unfold close. simpl.
  destruct (close_loop_spec w (pendingRequests (client w)))
    as (H1 & _ & H3 & _).
  rewrite H1. by destruct (sseController (client w)).
Qed.

Lemma close_now (w : World) : now (rt (close w)) = now (rt w).
Proof.
  unfold close. simpl.
  destruct (close_loop_spec w (pendingRequests (client w)))
    as (H1 & H2 & _).
  rewrite H1. by destruct (sseController (client w)).
Qed.

(** An event changes the phase of the posts it names only. *)
Lemma step_posts_lookup (ev : Event) (w : World) (g : nat) :
  g < length (posts (rt w)) →
  answers_post g ev = false →
  posts (rt (step ev w)) !! g = posts (rt w) !! g ∨ ev = PostAborted g.
Proof.
  intros Hg Ha.
  destruct (match ev with PostAborted f => bool_decide (f = g) | _ => false end)
    eqn:Hb.
  { destruct ev; try done. apply bool_decide_eq_true in Hb. right. by f_equal. }
  left.
  destruct ev as [dt|t|f|f e|f r|f data|f e|s chunk|s|s e|m ps|];
    cbn [step answers_post] in *;
    try (apply bool_decide_eq_false in Ha).
  - done.
  - destruct (timers (rt w) !! t) as [[tm|]|]; try done.
    by destruct (decide _).
  - destruct (posts (rt w) !! f) as [po|]; [|done].
    destruct (phase po); try done. destruct (decide _); [|done].
    apply bool_decide_eq_false in Hb.
    simpl. by apply list_lookup_insert_ne.
  - destruct (posts (rt w) !! f) as [po|]; [|done].
    destruct (phase po); try done.
    simpl. by apply list_lookup_insert_ne.
  - destruct (posts (rt w) !! f) as [po|]; [|done].
    destruct (phase po); try done.
    destruct (Response.ok r); simpl; by apply list_lookup_insert_ne.
  - destruct (posts (rt w) !! f) as [po|]; [|done].
    destruct (phase po); try done. unfold on_post_data. simpl.
    destruct (pendingRequests _ !! _); simpl; by apply list_lookup_insert_ne.
  - destruct (posts (rt w) !! f) as [po|]; [|done].
    destruct (phase po); try done.
    simpl. by apply list_lookup_insert_ne.
  - destruct (streams (rt w) !! s) as [st|]; [|done].
    destruct (ended st || is_aborted (signal st) w); [done |].
    unfold stream_chunk. by destruct (SSEParser.parse chunk (parser st)).
  - destruct (streams (rt w) !! s) as [st|]; [|done]. by destruct (ended st).
  - destruct (streams (rt w) !! s) as [st|]; [|done].
    destruct (ended st); [done |].
    by rewrite close_posts.
  - by apply lookup_app_l.
  - by rewrite close_posts.
Qed.

(** A request keeps its id. *)
Lemma step_request_id_at (ev : Event) (w : World) (g : nat) :
  g < length (posts (rt w)) →
  request_id_at (step ev w) g = request_id_at w g.
Proof.
  intros Hg.
  destruct ev as [dt|t|f|f e|f r|f data|f e|s chunk|s|s e|m ps|];
    cbn [step].
  - done.
  - destruct (timers (rt w) !! t) as [[tm|]|]; try done.
    by destruct (decide _).
  - destruct (posts (rt w) !! f) as [po|] eqn:Ef; [|done].
    destruct (phase po); try done. destruct (decide _); [|done].
    by apply (request_id_at_set_phase f g po Finished w).
  - destruct (posts (rt w) !! f) as [po|] eqn:Ef; [|done].
    destruct (phase po); try done.
    by apply (request_id_at_set_phase f g po Finished w).
  - destruct (posts (rt w) !! f) as [po|] eqn:Ef; [|done].
    destruct (phase po); try done. destruct (Response.ok r).
    + by apply (request_id_at_set_phase f g po AwaitingBody w).
    + by apply (request_id_at_set_phase f g po Finished w).
  - destruct (posts (rt w) !! f) as [po|] eqn:Ef; [|done].
    destruct (phase po); try done. unfold on_post_data.
    destruct (pendingRequests _ !! _);
      by apply (request_id_at_set_phase f g po Finished w).
  - destruct (posts (rt w) !! f) as [po|] eqn:Ef; [|done].
    destruct (phase po); try done.
    by apply (request_id_at_set_phase f g po Finished w).
  - destruct (streams (rt w) !! s) as [st|]; [|done].
    destruct (ended st || is_aborted (signal st) w); [done |].
    unfold stream_chunk. by destruct (SSEParser.parse chunk (parser st)).
  - destruct (streams (rt w) !! s) as [st|]; [|done]. by destruct (ended st).
  - destruct (streams (rt w) !! s) as [st|]; [|done].
    destruct (ended st); [done |].
    unfold request_id_at. by rewrite close_posts.
  - unfold request_id_at. simpl. by rewrite lookup_app_l.
  - unfold request_id_at. by rewrite close_posts.
Qed.

(** The clock never goes back. *)
Lemma effect_now (ev : Event) (w w' : World) :
  Effect ev w w' → (now (rt w) ≤ now (rt w'))%Z.
Proof.
  intros [? ? ? H|q rid s _ _ _ _ _ H|m ps _ ->|w0 _ _ _ _ H ->].
  - done.
  - lia.
  - done.
  - rewrite close_now. lia.
Qed.

(** What an event does to one promise: nothing; or the promise is made;
    or it was unsettled and is settled, for a cause or by a close. *)
Lemma effect_promise (ev : Event) (w w' : World) (q : nat) :
  Effect ev w w' →
  promises (rt w') !! q = promises (rt w) !! q
  ∨ (promises (rt w) !! q = None ∧ promises (rt w') !! q = Some Unsettled)
  ∨ (promises (rt w) !! q = Some Unsettled
     ∧ ∃ s, promises (rt w') !! q = Some s
            ∧ (Cause w q ev s
               ∨ (may_close ev = true
                  ∧ s = Rejected (Error.new "Connection closed")))).
Proof.
  intros [Hp _ _ _|q0 rid s Hc _ Hp _ _ _|m ps _ ->|w0 Hm Hp _ _ _ ->].
  - left. by rewrite Hp.
  - rewrite Hp.
    destruct (settle_in_cases q0 q s (promises (rt w))) as [E|(-> & E1 & E2)].
    + by left.
    + right. right. split; [done |]. exists s. split; [done |]. by left.
  - simpl. destruct (decide (q < length (promises (rt w)))) as [Hlt|Hge].
    + left. by rewrite lookup_app_l.
    + destruct (decide (q = length (promises (rt w)))) as [->|Hne].
      * right. left. split; [apply lookup_ge_None; lia |].
        rewrite lookup_app_r by lia. by rewrite Nat.sub_diag.
      * left. rewrite !(proj2 (lookup_ge_None _ _)); [done | lia |].
        rewrite length_app. simpl. lia.
  - rewrite close_promises.
    destruct (close_loop_spec w0 (pendingRequests (client w0)))
      as (_ & _ & _ & _ & _ & _ & _ & H8 & _).
    destruct (H8 q) as [E|(E1 & E2 & _)].
    + left. by rewrite E, Hp.
    + right. right. rewrite <- Hp. split; [done |].
      eexists. split; [done |]. by right.
Qed.

(** A settled promise stays as it is: no later call of its [resolve] or
    [reject] function has an effect. *)
Lemma step_settled_stable (ev : Event) (w : World) (q : nat) (s : PromiseState) :
  Inv w → promises (rt w) !! q = Some s → s ≠ Unsettled →
  promises (rt (step ev w)) !! q = Some s.
Proof.
  intros HI Hq Hs.
  destruct (effect_promise ev w (step ev w) q (step_effect ev w HI))
    as [E|[[E _]|[E _]]]; congruence.
Qed.

Lemma run_settled_stable (evs : list Event) (w : World) (q : nat)
    (s : PromiseState) :
  Inv w → promises (rt w) !! q = Some s → s ≠ Unsettled →
  promises (rt (run evs w)) !! q = Some s.
Proof.
  revert w. induction evs as [|ev evs IH]; intros w HI Hq Hs; [done |].
  simpl. apply IH; [by apply Inv_step | by apply step_settled_stable | done].
Qed.

(** A request whose number is below [2^53 - 1] shares its id with no
    other request. *)
Lemma request_id_at_inj_below (w : World) (f g : nat) (rid : string) :
  Inv w → (N.of_nat (S f) < 2 ^ 53)%N →
  request_id_at w f = Some rid → request_id_at w g = Some rid → f = g.
Proof.
  intros HI Hc Hf Hg. unfold request_id_at in *.
  destruct (posts (rt w) !! f) as [po|] eqn:Ef; [|done].
  destruct (posts (rt w) !! g) as [po'|] eqn:Eg; [|done].
  simpl in *. injection Hf as Hf. injection Hg as Hg.
  destruct (inv_posts w HI f po Ef) as (_ & _ & t & E1).
  destruct (inv_posts w HI g po' Eg) as (_ & _ & t' & E2).
  rewrite Hf in E1. rewrite Hg, E1 in E2.
  apply request_id_inj in E2. by apply counter_of_inj in E2.
Qed.

Lemma reachable_run (evs : list Event) (w : World) :
  reachable w → reachable (run evs w).
Proof.
  revert w. induction evs as [|ev evs IH]; intros w Hr; [done |].
  simpl. apply IH. by apply reach_step.
Qed.

(** Right after [sendRequest] the request is waiting. *)
Lemma sendRequest_Waiting (method : string) (params : JSON.value) (w : World) :
  Inv w →
  fst (sendRequest method params w) = length (posts (rt w))
  ∧ Waiting (length (posts (rt w))) (fst (generateRequestId w))
      (now (rt w) + requestTimeout) (snd (sendRequest method params w)).
Proof.
  intros HI. pose proof (inv_promises w HI) as Hp.
  pose proof (inv_timers w HI) as Ht.
  split; [done |]. unfold Waiting. simpl. rewrite Hp, Ht.
  repeat split.
  - by rewrite lookup_insert_eq.
  - rewrite lookup_app_r by lia. replace (_ - _) with 0 by lia. done.
  - rewrite lookup_app_r by lia. replace (_ - _) with 0 by lia. done.
  - eexists. split.
    + rewrite lookup_app_r by lia. replace (_ - _) with 0 by lia. done.
    + split; reflexivity.
Qed.

(** Once timed out, always timed out, whatever happens. *)
Lemma TimedOut_step (p : nat) (rid : string) (d : Z) (ev : Event) (w : World) :
  Inv w → (N.of_nat (S p) < 2 ^ 53)%N →
  TimedOut p rid d w → TimedOut p rid d (step ev w).
Proof.
  intros HI Hb (Hid & Hp & Hd & Hn).
  assert (p < length (posts (rt w))) as Hlt.
  { unfold request_id_at in Hid.
    destruct (posts (rt w) !! p) eqn:E; [|done]. by eapply lookup_lt_Some. }
  pose proof (Inv_step ev w HI) as HI'.
  assert (promises (rt (step ev w)) !! p
          = Some (Rejected (timeout_error requestTimeout))) as Hp'
    by (by apply step_settled_stable).
  assert (request_id_at (step ev w) p = Some rid) as Hid'
    by (by rewrite step_request_id_at).
  repeat split; try done.
  - pose proof (effect_now ev w _ (step_effect ev w HI)). lia.
  - destruct (pendingRequests (client (step ev w)) !! rid) as [pend|] eqn:E;
      [|done].
    destruct (inv_pending _ HI' _ _ E) as (_ & _ & E3 & E4 & _).
    assert (p = reject pend) as Heq
      by (by eapply (request_id_at_inj_below (step ev w))).
    rewrite <- Heq in E4. congruence.
Qed.

(** An event that neither answers request [p] nor closes the client
    leaves it waiting, or times it out. *)
Lemma quiet_step (p : nat) (rid : string) (d : Z) (ev : Event) (w : World) :
  Inv w → (N.of_nat (S p) < 2 ^ 53)%N →
  answers_post p ev = false → may_close ev = false →
  Waiting p rid d w →
  Waiting p rid d (step ev w) ∨ TimedOut p rid d (step ev w).
Proof.
  intros HI Hb Ha Hm (W1 & W2 & W3 & po & W4 & W5 & W6).
  assert (p < length (posts (rt w))) as Hlt by (by eapply lookup_lt_Some).
  assert (request_id_at w p = Some rid) as Hid
    by (unfold request_id_at; by rewrite W4, <- W5).
  pose proof (step_request_id_at ev w p Hlt) as Hid'. rewrite Hid in Hid'.
  pose proof (Inv_step ev w HI) as HI'.
  assert (promises (rt (step ev w)) !! p
          = Some (Rejected (timeout_error requestTimeout)) →
          (d ≤ now (rt (step ev w)))%Z → TimedOut p rid d (step ev w))
    as Hout.
  { intros Hp' Hd. repeat split; try done.
    destruct (pendingRequests (client (step ev w)) !! rid) as [pend|] eqn:E;
      [|done].
    destruct (inv_pending _ HI' _ _ E) as (_ & _ & E3 & E4 & _).
    assert (p = reject pend) as Heq
      by (by eapply (request_id_at_inj_below (step ev w))).
    rewrite <- Heq in E4. congruence. }
  destruct (step_effect ev w HI)
    as [Hp Ht Hq Hn|q rid' s Hc Hr Hp Ht Hq Hn|m ps -> Hw|w0 Hc _ _ _ _ _].
  - (* nothing happens to requests *)
    destruct (step_posts_lookup ev w p Hlt Ha) as [Hposts| ->].
    + left. unfold Waiting. rewrite Hp, Ht, Hq, Hposts. eauto 10.
    + simpl in *. rewrite W4, W6 in *.
      destruct (decide (d ≤ now (rt w))%Z) as [Hd|]; [|left; unfold Waiting; eauto 10].
      right. apply Hout; [|done].
      destruct (inv_posts w HI p po W4) as (E1 & _).
      simpl. rewrite E1. by apply settle_in_unsettled.
  - destruct (decide (q = p)) as [->|Hne].
    + (* request [p] is retired: only by its timer or its abort *)
      right.
      assert (promises (rt (step ev w)) !! p = Some s) as Hs
        by (rewrite Hp; by apply settle_in_unsettled).
      inversion Hc as [tm Etm Hd|po' d' Epo Eph Hd|e|r|e|f data Hsome Hsame];
        subst; simpl in Ha; try (by rewrite bool_decide_eq_true_2 in Ha).
      * rewrite W3 in Etm. injection Etm as <-.
        apply Hout; [done | simpl in *; lia].
      * rewrite W4 in Epo. injection Epo as <-. rewrite W6 in Eph.
        injection Eph as <-. apply Hout; [done | lia].
      * assert (p = f) as <-.
        { eapply (request_id_at_inj_below w p f); [done | done | exact Hid |].
          by rewrite Hsame. }
        by rewrite bool_decide_eq_true_2 in Ha.
    + (* another request is retired *)
      assert (rid' ≠ rid) as Hrid.
      { intros ->. apply Hne. symmetry.
        by eapply (request_id_at_inj_below w). }
      left. unfold Waiting. rewrite Hp, Ht, Hq.
      rewrite lookup_delete_ne by done.
      rewrite settle_in_ne by done.
      rewrite list_lookup_insert_ne by done.
      destruct (step_posts_lookup ev w p Hlt Ha) as [Hposts| ->].
      * rewrite Hposts. eauto 10.
      * inversion Hc; congruence.
  - (* another request is sent *)
    left. rewrite Hw in *. clear Hw. unfold Waiting. simpl.
    rewrite lookup_app_l by (rewrite (inv_promises w HI); lia).
    rewrite lookup_app_l by (rewrite (inv_timers w HI); lia).
    rewrite lookup_app_l by lia.
    rewrite lookup_insert_ne; [eauto 10 |].
    intros Heq.
    set (w' := snd (sendRequest m ps w)) in *.
    assert (pendingRequests (client w') !! rid
            = Some (mkPending (length (promises (rt w)))
                      (length (promises (rt w))) (length (timers (rt w)))))
      as E by (simpl; rewrite <- Heq; by rewrite lookup_insert_eq).
    destruct (inv_pending _ HI' _ _ E) as (_ & _ & E3 & _).
    simpl in E3.
    assert (p = length (promises (rt w))) as Hpn
      by (by eapply (request_id_at_inj_below w')).
    rewrite (inv_promises w HI) in Hpn. lia.
  - congruence.
Qed.

Lemma quiet_run (p : nat) (rid : string) (d : Z) (evs : list Event) (w : World) :
  Inv w → (N.of_nat (S p) < 2 ^ 53)%N →
  never_answered p evs →
  Waiting p rid d w ∨ TimedOut p rid d w →
  Waiting p rid d (run evs w) ∨ TimedOut p rid d (run evs w).
Proof.
  intros HI Hb Hq. revert w HI.
  induction Hq as [|ev evs [Ha Hm] _ IH]; intros w HI H; [done |].
  simpl. apply IH; [by apply Inv_step |].
  destruct H as [H|H].
  - by apply quiet_step.
  - right. by apply TimedOut_step.
Qed.

End Dynamics.

(** C4.  A request is sent by a client whose counter is below [2^53 - 1];
    its promise, its timer and its post all have number [p].  As long as
    the endpoint does not respond to it and the client is not closed,
    whatever else happens, the request is either still waiting or timed
    out: its promise rejected with "Request timeout after 10000ms", the
    clock at or past the deadline, and its id out of the table.  Once the
    clock is at the deadline, the run of its timer times it out.  A
    timed-out request stays so under every later event, late responses
    and errors included: the promise is not settled a second time. *)
Theorem C4_unanswered_request_times_out
    (w : MCP.World) (method : string) (params : JSON.value)
    (evs : list MCP.Event) :
  Lifetime.reachable w →
  (MCP.requestIdCounter (MCP.client w) + 1 < 2 ^ 53)%N →
  let p := fst (MCP.sendRequest method params w) in
  let rid := fst (MCP.generateRequestId w) in
  let deadline := (MCP.now (MCP.rt w) + MCP.requestTimeout)%Z in
  Lifetime.never_answered p evs →
  let w2 := MCP.run evs (snd (MCP.sendRequest method params w)) in
  (Lifetime.Waiting p rid deadline w2 ∨ Lifetime.TimedOut p rid deadline w2)
  ∧ ((deadline ≤ MCP.now (MCP.rt w2))%Z →
     Lifetime.TimedOut p rid deadline (MCP.step (MCP.TimerFires p) w2))
  ∧ (∀ later,
       Lifetime.TimedOut p rid deadline w2 →
       Lifetime.TimedOut p rid deadline (MCP.run later w2))
  ∧ Error.message (MCP.timeout_error MCP.requestTimeout)
    = "Request timeout after 10000ms".
Proof.
  intros Hr Hc p rid deadline Hq w2.
  pose proof (reachable_Inv w Hr) as HI.
  destruct (sendRequest_Waiting method params w HI) as [Hp Hw].
  fold p in Hp. rewrite <- Hp in Hw. fold rid deadline in Hw.
  assert (N.of_nat (S p) < 2 ^ 53)%N as Hb.
  { rewrite Hp. rewrite (Lifetime.inv_counter w HI) in Hc. lia. }
  pose proof (Inv_sendRequest method params w HI) as HI1.
  assert (Lifetime.Inv w2) as HI2 by (by apply Inv_run).
  assert (Lifetime.Waiting p rid deadline w2 ∨ Lifetime.TimedOut p rid deadline w2)
    as H2 by (apply quiet_run; auto).
  split; [exact H2 |]. split; [|split; [|reflexivity]].
  - intros Hd. destruct H2 as [H2|H2]; [|by apply TimedOut_step].
    destruct (quiet_step p rid deadline (MCP.TimerFires p) w2 HI2 Hb
                eq_refl eq_refl H2) as [(_ & Hu & _)|Ht]; [|done].
    exfalso. destruct H2 as (_ & W2 & W3 & _).
    simpl in Hu. rewrite W3 in Hu. simpl in Hu.
    destruct (decide (deadline ≤ MCP.now (MCP.rt w2))%Z); [|done].
    simpl in Hu. rewrite settle_in_unsettled in Hu; [done |].
    by simpl.
  - intros later Ht. clear Hq H2. revert Ht HI2. generalize w2.
    induction later as [|ev later IH]; intros w3 Ht HI3; [done |].
    simpl. apply IH; [by apply TimedOut_step | by apply Inv_step].
Qed.

(** A fresh client sends one request; ten seconds pass without any
    response and the timer runs. *)
Lemma C4_unanswered_request_witness :
  Lifetime.TimedOut 0 "req_1_0" 10000
    (MCP.step (MCP.TimerFires 0)
       (MCP.run [MCP.Tick 10000]
          (snd (MCP.sendRequest "tools/list" (JSON.Obj []) Scenario.crm0)))).
Proof.
  edestruct (C4_unanswered_request_times_out Scenario.crm0 "tools/list"
               (JSON.Obj []) [MCP.Tick 10000]) as (_ & H & _).
  - apply Lifetime.reach_new.
  - reflexivity.
  - repeat constructor.
  - apply H. vm_compute. discriminate.
Defined.

(** C8.  At any point of a client's life at which its counter is below
    [2^53]: the ids minted so far are pairwise distinct; request number
    [f] owns promise number [f]; the reply body received by the post of a
    request still in the table fulfils the promise of that request with
    that body; a promise becomes fulfilled only through the reply body
    received by the post of its own request, with exactly that body, so
    that its value carries the id of its request when the server echoes
    ids; and a fulfilled promise keeps its value whatever events follow,
    in any order. *)
Theorem C8_responses_reach_their_own_request (w : MCP.World) :
  Lifetime.reachable w →
  (MCP.requestIdCounter (MCP.client w) < 2 ^ 53)%N →
  NoDup (Lifetime.minted_ids w)
  ∧ (∀ f po, MCP.posts (MCP.rt w) !! f = Some po → MCP.catch_reject po = f)
  ∧ (∀ f po data,
       MCP.posts (MCP.rt w) !! f = Some po →
       MCP.phase po = MCP.AwaitingBody →
       is_Some (MCP.pendingRequests (MCP.client w)
                  !! JSONRPCRequest.id (MCP.request po)) →
       MCP.promises (MCP.rt (MCP.step (MCP.PostBodyParsed f data) w)) !! f
       = Some (MCP.Fulfilled data))
  ∧ (∀ ev f v,
       MCP.promises (MCP.rt w) !! f ≠ Some (MCP.Fulfilled v) →
       MCP.promises (MCP.rt (MCP.step ev w)) !! f = Some (MCP.Fulfilled v) →
       ev = MCP.PostBodyParsed f v)
  ∧ (∀ ev f po v,
       MCP.posts (MCP.rt w) !! f = Some po →
       MCP.promises (MCP.rt w) !! f ≠ Some (MCP.Fulfilled v) →
       MCP.promises (MCP.rt (MCP.step ev w)) !! f = Some (MCP.Fulfilled v) →
       Lifetime.echoes_id w ev →
       JSONRPCResponse.id v = JSONRPCRequest.id (MCP.request po))
  ∧ (∀ evs f v,
       MCP.promises (MCP.rt w) !! f = Some (MCP.Fulfilled v) →
       MCP.promises (MCP.rt (MCP.run evs w)) !! f = Some (MCP.Fulfilled v)).
Proof.
  intros Hr Hc. pose proof (reachable_Inv w Hr) as HI.
  assert (∀ ev f v,
            MCP.promises (MCP.rt w) !! f ≠ Some (MCP.Fulfilled v) →
            MCP.promises (MCP.rt (MCP.step ev w)) !! f = Some (MCP.Fulfilled v) →
            ev = MCP.PostBodyParsed f v) as Hown.
  { intros ev f v Hbefore Hafter.
    destruct (effect_promise ev w _ f (step_effect ev w HI))
      as [E|[[_ E]|(_ & s & E & [Hcause|[_ ->]])]]; try congruence.
    rewrite Hafter in E. injection E as <-.
    inversion Hcause as [| | | | |g data Hsome Hsame]; subst.
    f_equal. destruct Hsome as [rid Hrid].
    eapply (request_id_at_inj w); [done | done | exact Hrid |].
    by rewrite <- Hsame. }
  split; [by apply minted_ids_NoDup |].
  split; [intros f po Hf; by destruct (Lifetime.inv_posts w HI f po Hf) |].
  split; [|split; [exact Hown | split]].
  - intros f po data Hf Hph [pend Hl].
    destruct (Lifetime.inv_pending w HI _ _ Hl) as (E1 & E2 & E3 & E4 & _).
    assert (MCP.reject pend = f) as Hpf.
    { eapply (request_id_at_inj w); [done | done | exact E3 |].
      unfold Lifetime.request_id_at. by rewrite Hf. }
    simpl. rewrite Hf, Hph. unfold MCP.on_post_data. simpl. rewrite Hl.
    simpl. rewrite E1, Hpf. apply settle_in_unsettled. by rewrite <- Hpf.
  - intros ev f po v Hf Hbefore Hafter Hecho.
    by apply (Hecho f v po (Hown ev f v Hbefore Hafter)).
  - intros evs f v Hf. by apply run_settled_stable.
Qed.

(** Two requests are in flight; the reply to the second arrives first and
    fulfils the second promise; the reply to the first then fulfils the
    first. *)
Lemma C8_responses_witness :
  MCP.promises
    (MCP.rt (MCP.step (MCP.PostBodyParsed 1 (Example.reply "req_2_0"))
               Example.two_in_flight)) !! 1
  = Some (MCP.Fulfilled (Example.reply "req_2_0"))
  ∧ Lifetime.minted_ids Example.two_in_flight = ["req_1_0"; "req_2_0"].
Proof.
  split; [|reflexivity].
  edestruct (C8_responses_reach_their_own_request Example.two_in_flight)
    as (_ & _ & H & _).
  - unfold Example.two_in_flight. apply reachable_run, Lifetime.reach_new.
  - reflexivity.
  - eapply (H 1); [reflexivity | reflexivity |].
    vm_compute. eexists. reflexivity.
Defined.

(** * More on the frame parser *)

Section ParserMore.
Import JSString SSEParser Frame Frames.

Lemma pop_app (l1 l2 : list string) :
  l2 ≠ [] → pop (l1 ++ l2) = (l1 ++ fst (pop l2), snd (pop l2)).
Proof.
  intros Hne. induction l1 as [|x l1 IH]; simpl.
  - by destruct (pop l2).
  - rewrite IH. destruct (l1 ++ l2) eqn:E; [|done].
    apply app_eq_nil in E as [_ ->]. done.
Qed.

(** Splitting a text made of two parts: the last piece of the first part
    and the first piece of the second part make one line. *)
Lemma split_nl_app (a c : string) :
  ∃ la x y lb,
    split_nl a = la ++ [x] ∧ split_nl c = y :: lb
    ∧ split_nl (a +:+ c) = la ++ (x +:+ y) :: lb.
Proof.
  induction a as [|ch a (la & x & y & lb & Ha & Hc & Hac)].
  - destruct (split_nl_last c) as (lc & z & Hc & _).
    destruct lc as [|y lc].
    + exists [], "", z, []. by rewrite Hc.
    + exists [], "", y, (lc ++ [z]). by rewrite Hc.
  - rewrite append_cons. simpl. rewrite Ha, Hc, Hac.
    destruct (decide (ch = newline)).
    + by exists ("" :: la), x, y, lb.
    + destruct la as [|h la]; simpl.
      * by exists [], (String ch x), y, lb.
      * by exists (String ch h :: la), x, y, lb.
Qed.

Lemma split_nl_no_newline (s : string) : has_newline s = false → split_nl s = [s].
Proof.
  induction s as [|c s IH]; simpl; [done |].
  destruct (decide (c = newline)); [done |]. intros H. by rewrite IH.
Qed.

Lemma or_empty_Some (x : string) : or_empty (Some x) = x.
Proof. by destruct x. Qed.

(** What was delivered before does not influence the loop. *)
Lemma fold_parse_line_delivered (ls : list string) (cd : string) (out : list string) :
  fold_left parse_line ls {| currentData := cd; delivered := out |}
  = {| currentData :=
         currentData (fold_left parse_line ls {| currentData := cd; delivered := [] |});
       delivered :=
         out ++ delivered
                  (fold_left parse_line ls {| currentData := cd; delivered := [] |}) |}.
Proof.
  revert cd out. induction ls as [|l ls IH]; intros cd out; simpl.
  - by rewrite app_nil_r.
  - unfold parse_line at 2 4 6. simpl.
    destruct (is_empty (trim l)).
    + destruct (truthy cd).
      * rewrite (IH "" (out ++ [cd])), (IH "" [cd]). simpl.
        by rewrite <- app_assoc.
      * apply IH.
    + destruct (startsWith (trim l) "data:"); apply IH.
Qed.

Lemma parse_all_new_buffer (chunks : list string) (p : SSEParser.t) :
  has_newline (buffer p) = false →
  has_newline (buffer (snd (parse_all chunks p))) = false.
Proof.
  revert p. induction chunks as [|c cs IH]; intros p Hp; simpl; [done |].
  pose proof (parse_buffer_no_newline c p) as H.
  destruct (parse c p) as [out1 p1]. simpl in H.
  specialize (IH p1 H). by destruct (parse_all cs p1).
Qed.

(** Lines of a frame: nothing is delivered, and [currentData] ends as the
    payload of the last data line, if there is one. *)
Lemma fold_frame_lines (ls : list string) (st : loop) :
  Forall frame_line ls →
  fold_left parse_line ls st
  = {| currentData := default (currentData st) (last_data ls);
       delivered := delivered st |}.
Proof.
  intros H. revert st. induction H as [|l ls [_ Hl] _ IH]; intros st.
  - by destruct st.
  - simpl. rewrite IH. destruct (last_data ls) as [d|]; simpl.
    + f_equal. unfold parse_line. unfold is_blank in Hl. rewrite Hl.
      by destruct (startsWith (trim l) "data:").
    + unfold is_data_line, parse_line, payload. unfold is_blank in Hl.
      rewrite Hl. simpl. by destruct (startsWith (trim l) "data:").
Qed.

Lemma split_nl_frame_then (f : list string) (rest : string) :
  Forall frame_line f →
  split_nl (frame_text f +:+ rest) = f ++ "" :: split_nl rest.
Proof.
  induction 1 as [|l f [Hl _] _ IH]; simpl.
  - reflexivity.
  - rewrite !append_assoc. rewrite split_nl_line by done. by rewrite IH.
Qed.

Lemma split_nl_frames_text (frames : list (list string)) :
  Forall (Forall frame_line) frames →
  split_nl (frames_text frames)
  = concat ((fun f => f ++ [""]) <$> frames) ++ [""].
Proof.
  induction 1 as [|f frames Hf _ IH]; simpl; [done |].
  rewrite split_nl_frame_then by done. rewrite IH.
  by rewrite <- !app_assoc.
Qed.

Lemma fold_frames (frames : list (list string)) (out : list string) :
  Forall (Forall frame_line) frames →
  fold_left parse_line (concat ((fun f => f ++ [""]) <$> frames))
    {| currentData := ""; delivered := out |}
  = {| currentData := ""; delivered := out ++ omap frame_payload frames |}.
Proof.
  intros H. revert out. induction H as [|f frames Hf _ IH]; intros out; simpl.
  - by rewrite app_nil_r.
  - rewrite !fold_left_app. rewrite (fold_frame_lines f) by done.
    cbn [fold_left currentData delivered].
    destruct (last_data f) as [[|c d]|] eqn:E.
    + replace (frame_payload f) with (@None string)
        by (unfold frame_payload; by rewrite E).
      apply IH.
    + replace (frame_payload f) with (Some (String c d))
        by (unfold frame_payload; by rewrite E).
      unfold parse_line at 2. simpl. rewrite IH. by rewrite <- app_assoc.
    + replace (frame_payload f) with (@None string)
        by (unfold frame_payload; by rewrite E).
      apply IH.
Qed.

End ParserMore.

(** X1.  After any sequence of chunks fed to a new parser, the carry-over
    buffer holds no newline: every complete line has been consumed. *)
Theorem X1_buffer_holds_no_complete_line (chunks : list string) :
  JSString.has_newline
    (SSEParser.buffer (snd (SSEParser.parse_all chunks SSEParser.new))) = false.
Proof. by apply parse_all_new_buffer. Qed.

(** X2.  Cutting a chunk in two is harmless when no data line is pending
    at the cut, that is when [currentData] is empty as the first call
    returns: the two calls deliver what the single call delivers, and leave
    the same buffer. *)
Theorem X2_split_without_pending_data (c1 c2 : string) (p : SSEParser.t) :
  Frames.pending_data c1 p = "" →
  SSEParser.parse_all [c1; c2] p = SSEParser.parse (c1 +:+ c2) p.
Proof.
  unfold Frames.pending_data. intros Hpend.
  simpl. unfold SSEParser.parse at 1 2 3. simpl.
  destruct (split_nl_app (SSEParser.buffer p +:+ c1) c2)
    as (la & x & y & lb & Ha & Hc & Hac).
  rewrite <- append_assoc, Hac. rewrite Ha in *. rewrite pop_snoc in *.
  rewrite or_empty_Some. cbn [fst SSEParser.buffer] in *.
  assert (JSString.has_newline x = false) as Hx.
  { destruct (split_nl_last (SSEParser.buffer p +:+ c1)) as (la' & x' & Ha' & Hx').
    rewrite Ha in Ha'. apply app_inj_tail in Ha' as [_ ->]. done. }
  destruct (split_nl_app x c2) as (la2 & x2 & y2 & lb2 & Hx2 & Hc2 & Hxc).
  rewrite split_nl_no_newline in Hx2 by done.
  destruct la2 as [|? [|? ?]]; try done. injection Hx2 as <-.
  rewrite Hc in Hc2. injection Hc2 as <- <-. rewrite Hxc. simpl app.
  rewrite (pop_app la ((x +:+ y) :: lb)) by done.
  destruct (JSString.pop ((x +:+ y) :: lb)) as [lines2 last2]. simpl fst. simpl snd.
  rewrite fold_left_app.
  destruct (fold_left SSEParser.parse_line la
              {| SSEParser.currentData := ""; SSEParser.delivered := [] |})
    as [cd1 out1] eqn:E1.
  simpl in Hpend. subst cd1. simpl.
  rewrite (fold_parse_line_delivered lines2 "" out1). simpl.
  destruct (fold_left SSEParser.parse_line lines2
              {| SSEParser.currentData := ""; SSEParser.delivered := [] |}).
  rewrite app_nil_r. done.
Qed.

(** A cut in the middle of the first line: nothing is pending. *)
Lemma X2_split_without_pending_data_witness :
  SSEParser.parse_all ["da"; "ta: x" +:+ JSString.nl +:+ JSString.nl] SSEParser.new
  = SSEParser.parse ("da" +:+ "ta: x" +:+ JSString.nl +:+ JSString.nl) SSEParser.new.
Proof.
  apply (X2_split_without_pending_data "da"
           ("ta: x" +:+ JSString.nl +:+ JSString.nl) SSEParser.new).
  reflexivity.
Defined.

(** X3.  A chunk holding whole frames, fed to a new parser: each frame
    hands the callback the payload of its last data line when that payload
    is not empty, and nothing otherwise (no data line, or an empty last
    payload); the payloads come in the order of the frames and the buffer
    is left empty. *)
Theorem X3_whole_frames_in_one_chunk (frames : list (list string)) :
  Forall (Forall Frame.frame_line) frames →
  SSEParser.parse (Frames.frames_text frames) SSEParser.new
  = (omap Frames.frame_payload frames, SSEParser.new).
Proof.
  intros H. unfold SSEParser.parse. simpl SSEParser.buffer.
  rewrite append_nil_l, split_nl_frames_text by done.
  rewrite pop_snoc. simpl JSString.or_empty.
  by rewrite fold_frames.
Qed.

(** A comment-only frame, a frame with two data lines and a frame whose
    payload is empty. *)
Lemma X3_whole_frames_witness :
  SSEParser.parse
    (Frames.frames_text [[": ping"]; ["data: a"; "data: b"]; ["id: 7"; "data:"]])
    SSEParser.new
  = (["b"], SSEParser.new).
Proof.
  apply (X3_whole_frames_in_one_chunk
           [[": ping"]; ["data: a"; "data: b"]; ["id: 7"; "data:"]]).
  repeat constructor.
Defined.

(** * The page and the form *)

Section PageFacts.
Import ProcessOrder Page.

Lemma upsert_cons (e x : TimelineEvent) (prev : list TimelineEvent) :
  upsert e (x :: prev)
  = if decide (id x = id e) then e :: prev else x :: upsert e prev.
Proof.
  unfold upsert. simpl. destruct (decide (id x = id e)); [done |].
  by destruct (findIndex (id e) prev).
Qed.

Lemma entry_cons (i : string) (x : TimelineEvent) (l : list TimelineEvent) :
  entry i (x :: l) = if decide (id x = i) then Some x else entry i l.
Proof.
  unfold entry. simpl. destruct (decide (id x = i)); [done |].
  by destruct (findIndex i l).
Qed.

Lemma entry_upsert_eq (e : TimelineEvent) (prev : list TimelineEvent) :
  entry (id e) (upsert e prev) = Some e.
Proof.
  induction prev as [|x prev IH].
  - unfold upsert, entry. simpl. by destruct (decide (id e = id e)).
  - rewrite upsert_cons. destruct (decide (id x = id e)) as [Heq|Hne].
    + rewrite entry_cons. by destruct (decide (id e = id e)).
    + rewrite entry_cons. by destruct (decide (id x = id e)).
Qed.

Lemma entry_upsert_ne (i : string) (e : TimelineEvent) (prev : list TimelineEvent) :
  i ≠ id e → entry i (upsert e prev) = entry i prev.
Proof.
  intros Hi. induction prev as [|x prev IH].
  - unfold upsert. simpl. rewrite entry_cons.
    by destruct (decide (id e = i)).
  - rewrite upsert_cons. destruct (decide (id x = id e)) as [Heq|Hne].
    + rewrite !entry_cons.
      destruct (decide (id e = i)); [congruence |].
      destruct (decide (id x = i)); [congruence | done].
    + rewrite !entry_cons. by destruct (decide (id x = i)).
Qed.

Lemma upsert_ids (e : TimelineEvent) (prev : list TimelineEvent) :
  id <$> upsert e prev
  = if decide (id e ∈ id <$> prev) then id <$> prev else (id <$> prev) ++ [id e].
Proof.
  induction prev as [|x prev IH].
  - unfold upsert. simpl. destruct (decide (id e ∈ [])) as [H|]; [|done].
    by apply elem_of_nil in H.
  - rewrite upsert_cons. destruct (decide (id x = id e)) as [Heq|Hne].
    + rewrite !fmap_cons, Heq.
      destruct (decide (id e ∈ id e :: (id <$> prev))) as [|Hn]; [done |].
      destruct Hn. apply elem_of_cons. by left.
    + rewrite !fmap_cons, IH.
      destruct (decide (id e ∈ id <$> prev)) as [Hin|Hnin].
      * destruct (decide (id e ∈ id x :: (id <$> prev))) as [|Hn]; [done |].
        destruct Hn. apply elem_of_cons. by right.
      * destruct (decide (id e ∈ id x :: (id <$> prev))) as [Hin'|]; [|done].
        apply elem_of_cons in Hin' as [?|?]; congruence.
Qed.

Lemma upsert_NoDup (e : TimelineEvent) (prev : list TimelineEvent) :
  NoDup (id <$> prev) → NoDup (id <$> upsert e prev).
Proof.
  intros H. rewrite upsert_ids.
  destruct (decide (id e ∈ id <$> prev)); [done |].
  apply NoDup_app. split; [done |]. split; [|apply NoDup_singleton].
  intros i Hi Hi'. apply list_elem_of_singleton in Hi'. by subst.
Qed.

Lemma apply_event_entry (ev : AgentEvent) (st : PageState) (i : string) :
  entry i (events (apply_event ev st))
  = match entry_of ev with
    | Some e => if decide (id e = i) then Some e else entry i (events st)
    | None => entry i (events st)
    end.
Proof.
  destruct ev; simpl; try done.
  match goal with |- context [upsert ?e _] => set (te := e) end.
  change (entry i (upsert te (events st))
          = if decide (id te = i) then Some te else entry i (events st)).
  destruct (decide (id te = i)) as [<-|Hne].
  - apply entry_upsert_eq.
  - apply entry_upsert_ne. congruence.
Qed.

Lemma apply_event_NoDup (ev : AgentEvent) (st : PageState) :
  NoDup (id <$> events st) → NoDup (id <$> events (apply_event ev st)).
Proof. destruct ev; simpl; try done. apply upsert_NoDup. Qed.

Lemma read_entries (evs : list AgentEvent) (st : PageState) (i : string) :
  entry i (events (fold_left (fun st ev => apply_event ev st) evs st))
  = match last_step i evs with
    | Some e => Some e
    | None => entry i (events st)
    end.
Proof.
  revert st. induction evs as [|ev evs IH]; intros st; simpl; [done |].
  rewrite IH. destruct (last_step i evs); [done |].
  rewrite apply_event_entry.
  destruct (entry_of ev) as [e|]; [|done]. by destruct (decide (id e = i)).
Qed.

Lemma read_NoDup (evs : list AgentEvent) (st : PageState) :
  NoDup (id <$> events st) →
  NoDup (id <$> events (fold_left (fun st ev => apply_event ev st) evs st)).
Proof.
  revert st. induction evs as [|ev evs IH]; intros st H; simpl; [done |].
  by apply IH, apply_event_NoDup.
Qed.

Lemma startsWith_data (j : string) : JSString.startsWith ("data: " +:+ j) "data: " = true.
Proof. rewrite !append_cons, append_nil_l. simpl. by destruct j. Qed.

Lemma substring_data (j : string) : JSString.substring 6 ("data: " +:+ j) = j.
Proof. rewrite !append_cons, append_nil_l. reflexivity. Qed.

Lemma split_nl_frame_of (j rest : string) :
  JSString.has_newline j = false →
  JSString.split_nl (Wire.frame_of j +:+ rest)
  = ("data: " +:+ j) :: "" :: JSString.split_nl rest.
Proof.
  intros Hj. unfold Wire.frame_of.
  rewrite <- (append_assoc "data: " j), !append_assoc.
  rewrite <- (append_assoc "data: " j).
  rewrite split_nl_line by (by rewrite has_newline_app, Hj).
  reflexivity.
Qed.

(** No entry in state error is made from events that carry none. *)
Lemma read_no_error_entry (evs : list AgentEvent) (st : PageState) :
  Forall (fun ev => is_step_error ev = false) evs →
  Forall (fun e => state e ≠ step_error) (events st) →
  Forall (fun e => state e ≠ step_error)
    (events (fold_left (fun st ev => apply_event ev st) evs st)).
Proof.
  intros H. revert st. induction H as [|ev evs Hev _ IH]; intros st Hst; [done |].
  simpl. apply IH. destruct ev; simpl; try done.
  unfold upsert. destruct (findIndex _ _).
  - apply Forall_insert; [done |]. simpl. by destruct state0.
  - apply Forall_app. split; [done |]. apply Forall_singleton.
    simpl. by destruct state0.
Qed.

End PageFacts.

(** X4.  The frames written by [sendSSEEvent] are read back by the page:
    when a chunk holds whole frames, each carrying a text without newline
    that decodes to its event, reading the chunk updates the page exactly
    as the events themselves, in order. *)
Theorem X4_page_reads_what_the_route_writes
    (stringify : ProcessOrder.AgentEvent → string)
    (decode : string → option ProcessOrder.AgentEvent)
    (evs : list ProcessOrder.AgentEvent) (st : Page.PageState) :
  Forall (fun ev => decode (stringify ev) = Some ev
                    ∧ JSString.has_newline (stringify ev) = false) evs →
  Page.read_chunk decode (Wire.frames_of (stringify <$> evs)) st
  = fold_left (fun st ev => Page.apply_event ev st) evs st.
Proof.
  intros H. revert st. unfold Page.read_chunk.
  induction H as [|ev evs [Hd Hn] _ IH]; intros st; [done |].
  rewrite fmap_cons.
  change (Wire.frames_of (stringify ev :: (stringify <$> evs)))
    with (Wire.frame_of (stringify ev) +:+ Wire.frames_of (stringify <$> evs)).
  rewrite split_nl_frame_of by done.
  cbn [fold_left]. unfold Page.read_line at 2 3.
  rewrite startsWith_data, substring_data, Hd. cbn [JSString.startsWith].
  apply IH.
Qed.

Lemma X4_page_reads_witness :
  Page.status
    (Page.read_chunk (fun _ => Some (ProcessOrder.EvStatus ProcessOrder.completed None 5))
       (Wire.frames_of
          ((fun _ => "{}") <$> [ProcessOrder.EvStatus ProcessOrder.completed None 5]))
       (Page.started "XYZ-789"))
  = ProcessOrder.completed.
Proof.
  rewrite (X4_page_reads_what_the_route_writes (fun _ => "{}")
             (fun _ => Some (ProcessOrder.EvStatus ProcessOrder.completed None 5))
             [ProcessOrder.EvStatus ProcessOrder.completed None 5]).
  - reflexivity.
  - repeat constructor.
Defined.

(** X5.  The timeline update for a step event is an insert-or-replace by
    identity: afterwards the entry of that identity is the new one, the
    entry of every other identity is as before, and the identities keep
    their order, a new one being added at the end. *)
Theorem X5_timeline_upsert (e : Page.TimelineEvent) (prev : list Page.TimelineEvent) :
  Page.entry (Page.id e) (Page.upsert e prev) = Some e
  ∧ (∀ i, i ≠ Page.id e → Page.entry i (Page.upsert e prev) = Page.entry i prev)
  ∧ Page.id <$> Page.upsert e prev
    = if decide (Page.id e ∈ Page.id <$> prev)
      then Page.id <$> prev
      else (Page.id <$> prev) ++ [Page.id e].
Proof.
  split; [apply entry_upsert_eq |]. split; [|apply upsert_ids].
  intros i Hi. by apply entry_upsert_ne.
Qed.

(** X6.  Whatever events the page reads after it started, the timeline
    has one entry per step identity, and the entry of an identity is the
    last step event read with that identity: a later event of a step
    replaces the earlier one. *)
Theorem X6_timeline_shows_last_step_event
    (evs : list ProcessOrder.AgentEvent) (orderId : string) :
  let st := fold_left (fun st ev => Page.apply_event ev st) evs
              (Page.started orderId) in
  NoDup (Page.id <$> Page.events st)
  ∧ ∀ i, Page.entry i (Page.events st) = Page.last_step i evs.
Proof.
  split.
  - apply read_NoDup. constructor.
  - intros i. rewrite read_entries. by destruct (Page.last_step i evs).
Qed.

(** X7.  When a phase of the handler fails and the stream has not been
    cancelled by then, the page that read the whole stream shows status
    error with the failure message, and no timeline entry is in state
    error: the step that failed is not marked. *)
Theorem X7_page_after_failed_run
    (JSON_parse : string → Error.t + JSON.value) (oracle : ProcessOrder.Oracle)
    (orderId : string) (e : Error.t) (s1 : ProcessOrder.State) :
  ProcessOrder.start_try JSON_parse oracle orderId ProcessOrder.initial
  = (Throws e, s1) →
  ProcessOrder.cancelled s1 = false →
  let st := fold_left (fun st ev => Page.apply_event ev st)
              (ProcessOrder.events_of JSON_parse oracle orderId)
              (Page.started orderId) in
  Page.status st = ProcessOrder.failed
  ∧ Page.errorMessage st = Error.message e
  ∧ Forall (fun te => Page.state te ≠ ProcessOrder.step_error) (Page.events st).
Proof.
  intros H Hc st.
  pose proof (start_no_step_error JSON_parse oracle orderId) as Hno.
  split; [|split].
  - unfold st, ProcessOrder.events_of.
    rewrite (start_after_failure JSON_parse oracle orderId e s1 H Hc).
    cbn [snd ProcessOrder.enqueued]. rewrite fold_left_app. reflexivity.
  - unfold st, ProcessOrder.events_of.
    rewrite (start_after_failure JSON_parse oracle orderId e s1 H Hc).
    cbn [snd ProcessOrder.enqueued]. rewrite fold_left_app. simpl.
    by destruct (JSString.truthy (Error.message e)).
  - apply read_no_error_entry; [exact Hno | constructor].
Qed.

(** Scenario C read by the page. *)
Lemma X7_page_after_failed_run_witness :
  Page.status
    (fold_left (fun st ev => Page.apply_event ev st)
       (ProcessOrder.events_of Scenario.parse_known Scenario.server_B_unreachable
          "XYZ-789")
       (Page.started "XYZ-789"))
  = ProcessOrder.failed.
Proof.
  edestruct (X7_page_after_failed_run Scenario.parse_known
               Scenario.server_B_unreachable "XYZ-789") as (H & _).
  - vm_compute. reflexivity.
  - reflexivity.
  - exact H.
Defined.

Section FormFacts.
Import JSString.

Lemma trimEnd_idem (s : string) : trimEnd (trimEnd s) = trimEnd s.
Proof.
  induction s as [|c s IH]; [done |]. simpl.
  destruct (is_white_space c && is_empty (trimEnd s)) eqn:E; [done |].
  simpl. by rewrite IH, E.
Qed.

Lemma trimStart_head (s : string) :
  match trimStart s with
  | "" => True
  | String c _ => is_white_space c = false
  end.
Proof.
  induction s as [|c s IH]; [done |]. simpl.
  by destruct (is_white_space c) eqn:E.
Qed.

Lemma trim_idem (s : string) : trim (trim s) = trim s.
Proof.
  unfold trim. pose proof (trimStart_head s) as H.
  destruct (trimStart s) as [|c r]; [done |].
  simpl trimEnd at 2. rewrite H. cbn [andb].
  cbn [trimStart]. rewrite H.
  simpl. rewrite H. cbn [andb]. by rewrite trimEnd_idem.
Qed.

Lemma trimStart_empty (s : string) :
  trimStart s = "" ↔ Forall (fun c => is_white_space c = true) (list_ascii_of_string s).
Proof.
  induction s as [|c s IH]; simpl.
  - split; [constructor | done].
  - destruct (is_white_space c) eqn:E.
    + rewrite IH. split; [by constructor | by inversion 1].
    + split; [done |]. inversion 1; congruence.
Qed.

Lemma trim_empty (s : string) :
  trim s = "" ↔ Forall (fun c => is_white_space c = true) (list_ascii_of_string s).
Proof.
  rewrite <- trimStart_empty. unfold trim.
  pose proof (trimStart_head s) as H.
  destruct (trimStart s) as [|c r]; [done |].
  simpl. rewrite H. done.
Qed.

End FormFacts.

(** X8.  The order form submits nothing exactly when the input consists
    of white space only; what it submits otherwise is the trimmed input,
    which is not empty and has no white space left at either end. *)
Theorem X8_form_submits_trimmed_id (text : string) :
  (Form.handleSubmit text = None
   ↔ Forall (fun c => JSString.is_white_space c = true) (list_ascii_of_string text))
  ∧ ∀ id, Form.handleSubmit text = Some id →
          id = JSString.trim text ∧ id ≠ "" ∧ JSString.trim id = id.
Proof.
  unfold Form.handleSubmit, JSString.truthy. split.
  - rewrite <- trim_empty. by destruct (JSString.trim text).
  - intros id H. destruct (JSString.trim text) eqn:E; [done |].
    simpl in H. injection H as <-. rewrite <- E.
    split; [done |]. split; [by rewrite E | apply trim_idem].
Qed.

(** X9.  An id submitted by the order form is never answered with the
    400 rejection: posted as the [orderId] of the body, it starts the
    event stream for that id.  A body whose [orderId] is missing, empty
    or not a string is answered with the rejection and no run. *)
Theorem X9_submitted_id_is_accepted
    (JSON_parse : string → Error.t + JSON.value) (oracle : ProcessOrder.Oracle)
    (text : string) :
  (∀ id, Form.handleSubmit text = Some id →
     ProcessOrder.POST JSON_parse oracle (JSON.Obj [("orderId", JSON.Str id)])
     = Returns
         (ProcessOrder.EventStream
            (fst (ProcessOrder.start JSON_parse oracle id ProcessOrder.initial))
            (snd (ProcessOrder.start JSON_parse oracle id ProcessOrder.initial))))
  ∧ ∀ fields,
      (∀ id, JSON.lookup_field "orderId" fields = Some (JSON.Str id) → id = "") →
      ProcessOrder.POST JSON_parse oracle (JSON.Obj fields)
      = Returns ProcessOrder.BadRequest.
Proof.
  split.
  - intros id H. unfold Form.handleSubmit, JSString.truthy in H.
    destruct (JSString.trim text) as [|c r] eqn:E; [done |].
    simpl in H. injection H as <-.
    unfold ProcessOrder.POST. simpl.
    by destruct (ProcessOrder.start _ _ _ _).
  - intros fields H. unfold ProcessOrder.POST. simpl.
    destruct (JSON.lookup_field "orderId" fields) as [[| | |s| |]|]; try done.
    by rewrite (H s eq_refl).
Qed.

Lemma X9_submitted_id_witness :
  ProcessOrder.POST Scenario.parse_known Scenario.both_servers_up
    (JSON.Obj [("orderId", JSON.Str "XYZ-789")])
  = Returns
      (ProcessOrder.EventStream
         (fst (ProcessOrder.start Scenario.parse_known Scenario.both_servers_up
                 "XYZ-789" ProcessOrder.initial))
         (snd (ProcessOrder.start Scenario.parse_known Scenario.both_servers_up
                 "XYZ-789" ProcessOrder.initial))).
Proof.
  apply (proj1 (X9_submitted_id_is_accepted Scenario.parse_known
                  Scenario.both_servers_up "  XYZ-789 ")).
  vm_compute. reflexivity.
Defined.

Lemma X8_form_submits_witness :
  "XYZ-789" = JSString.trim "  XYZ-789 " ∧ "XYZ-789" ≠ ""
  ∧ JSString.trim "XYZ-789" = "XYZ-789".
Proof.
  apply (proj2 (X8_form_submits_trimmed_id "  XYZ-789 ")).
  vm_compute. reflexivity.
Defined.

(** * The shape of every run of the handler *)

Section RunFacts.
Import ProcessOrder Run.

Variable JSON_parse : string → Error.t + JSON.value.
Variable oracle : Oracle.

Lemma extends_refl (s : State) : extends s s.
Proof. exists [], []. by rewrite !app_nil_r. Qed.

Lemma extends_trans (s1 s2 s3 : State) :
  extends s1 s2 → extends s2 s3 → extends s1 s3.
Proof.
  intros (e1 & c1 & He1 & Hp1 & Hc1 & Hn1 & Hs1)
         (e2 & c2 & He2 & Hp2 & Hc2 & Hn2 & Hs2).
  exists (e1 ++ e2), (c1 ++ c2).
  rewrite He2, He1, Hc2, Hc1, Hs2, Hs1, !app_assoc, !forallb_app, Hp1, Hp2,
    Hn1, Hn2. done.
Qed.

Lemma po_ret {A} (a : A) : plain_only (ret a).
Proof. intros s. apply extends_refl. Qed.

Lemma po_throw {A} (e : Error.t) : plain_only (@throw A e).
Proof. intros s. apply extends_refl. Qed.

Lemma po_of_sum {A} (x : Error.t + A) : plain_only (of_sum x).
Proof. destruct x; [apply po_throw | apply po_ret]. Qed.

Lemma po_Date_now : plain_only (Date_now oracle).
Proof. intros s. exists [], []. simpl. by rewrite !app_nil_r. Qed.

Lemma po_send (ev : AgentEvent) : plain ev = true → plain_only (sendSSEEvent ev).
Proof.
  intros H s. unfold sendSSEEvent.
  destruct (cancelled s); [apply extends_refl |].
  exists [ev], []. simpl. by rewrite H, app_nil_r.
Qed.

Lemma po_bind {A B} (m : M A) (k : A → M B) :
  plain_only m → (∀ a, plain_only (k a)) → plain_only (bind m k).
Proof.
  intros Hm Hk s. specialize (Hm s). unfold bind.
  destruct (m s) as [[a|e|] s']; simpl in *; try done.
  eapply extends_trans; [exact Hm | apply Hk].
Qed.

Lemma po_stepId (name : string) : plain_only (stepId oracle name).
Proof. apply po_bind; [apply po_Date_now | intros; apply po_ret]. Qed.

Lemma po_await_connect (c : Who) : plain_only (await_connect oracle c).
Proof. intros s. exists [], [Connect c]. simpl. by rewrite app_nil_r. Qed.

Lemma po_await_callTool (c : Who) (n : string) (args : JSON.value) :
  plain_only (await_callTool oracle c n args).
Proof. intros s. exists [], [CallTool c n args]. simpl. by rewrite app_nil_r. Qed.

Lemma po_parse_first_text (r : JSON.maybe) :
  plain_only (parse_first_text JSON_parse r).
Proof. apply po_of_sum. Qed.

Lemma ec_bind {A B} (m : M A) (k : A → M B) :
  plain_only m → (∀ a, ends_completed (k a)) → ends_completed (bind m k).
Proof.
  intros Hm Hk s. specialize (Hm s). unfold bind.
  destruct (m s) as [[a|e|] s']; simpl in *; try done.
  specialize (Hk a s'). destruct (k a s') as [[u|e|] s''].
  - destruct Hk as (Hopen & s1 & t & Hext & Hk). split; [done |].
    exists s1, t. split; [by eapply extends_trans | done].
  - by eapply extends_trans.
  - by eapply extends_trans.
Qed.

Lemma ec_throw {A} (e : Error.t) : ends_completed (@throw A e).
Proof. intros s. apply extends_refl. Qed.

Lemma ec_final (t : Z) : ends_completed (sendSSEEvent (EvStatus completed None t)).
Proof.
  intros s. unfold sendSSEEvent.
  destruct (cancelled s) eqn:E; [apply extends_refl |].
  split; [done |]. exists s, t. split; [apply extends_refl | done].
Qed.

End RunFacts.

Local Ltac po :=
  repeat first
    [ apply po_ret | apply po_throw | apply po_of_sum | apply po_Date_now
    | apply po_stepId | apply po_await_connect | apply po_await_callTool
    | apply po_parse_first_text
    | apply po_send; reflexivity
    | apply po_bind; [| intros]
    | match goal with |- Run.plain_only (if ?b then _ else _) => destruct b end ].

Local Ltac ec :=
  repeat first
    [ apply ec_final | apply ec_throw
    | apply ec_bind; [po | intros]
    | match goal with |- Run.ends_completed (if ?b then _ else _) => destruct b end ].

Section RunShape.
Import ProcessOrder Run.

Variable JSON_parse : string → Error.t + JSON.value.
Variable oracle : Oracle.

(** The state after the first statement of the [try] block. *)
Lemma start_try_shape (orderId : string) (r : Outcome unit) (s' : State) :
  start_try JSON_parse oracle orderId initial = (r, s') →
  let s0 := {| ticks := 1; enqueued := [EvStatus running None (clock oracle 0)];
               calls := []; stream_closes := 0; cancelled := false |} in
  match r with
  | Returns _ =>
      cancelled s' = false
      ∧ ∃ s1 t, extends s0 s1
                ∧ enqueued s' = enqueued s1 ++ [EvStatus completed None t]
                ∧ calls s' = calls s1 ∧ stream_closes s' = stream_closes s1
  | _ => extends s0 s'
  end.
Proof.
  unfold start_try. rewrite run_Date_now. cbv beta.
  rewrite run_sendSSEEvent by reflexivity. cbv beta.
  cbn [initial ticks enqueued calls stream_closes cancelled app].
  intros H.
  lazymatch type of H with
  | ?m ?s = _ => assert (ends_completed m) as Hec by ec; specialize (Hec s)
  end.
  rewrite H in Hec. exact Hec.
Qed.

(** A [try] block that returns is followed by the [finally] block, which
    closes the stream. *)
Lemma start_after_success (orderId : string) (s' : State) :
  start_try JSON_parse oracle orderId initial = (Returns tt, s') →
  cancelled s' = false →
  start JSON_parse oracle orderId initial
  = (Returns tt,
     {| ticks := ticks s'; enqueued := enqueued s';
        calls := calls s' ++ [Close crmClient; Close emailClient];
        stream_closes := S (stream_closes s'); cancelled := false |}).
Proof.
  intros H Hc. unfold start, try_catch_finally. rewrite H.
  unfold start_finally, client_close, controller_close, bind, log_call.
  cbn [ticks enqueued calls stream_closes cancelled]. rewrite Hc.
  by rewrite <- !app_assoc.
Qed.

Lemma start_suspended (orderId : string) (s' : State) :
  start_try JSON_parse oracle orderId initial = (Suspends, s') →
  start JSON_parse oracle orderId initial = (Suspends, s').
Proof. intros H. unfold start, try_catch_finally. by rewrite H. Qed.

End RunShape.

(** X10.  How [start] ends, and what it has closed by then.  It returns
    when the consumer read the stream to the end: the stream is closed
    exactly once, by [start].  It throws the [TypeError] of the stream
    controller when the consumer cancelled the stream: [start] has not
    closed it.  In both cases the last two calls of the handler on its
    clients are [close()] on the CRM client, then on the email client, and
    the handler made no other [close()] call on them (a client whose
    [connect()] failed has also closed itself, inside [connect()]).  It
    stays suspended when an awaited call never settles: nothing is
    closed. *)
Theorem X10_cleanup_runs_once_at_the_end
    (JSON_parse : string → Error.t + JSON.value) (oracle : ProcessOrder.Oracle)
    (orderId : string) :
  match ProcessOrder.start JSON_parse oracle orderId ProcessOrder.initial with
  | (Returns _, s) =>
      ProcessOrder.cancelled s = false
      ∧ ProcessOrder.stream_closes s = 1%nat
      ∧ ∃ cs, ProcessOrder.calls s
              = cs ++ [ProcessOrder.Close ProcessOrder.crmClient;
                       ProcessOrder.Close ProcessOrder.emailClient]
              ∧ forallb (fun c => negb (Run.is_close c)) cs = true
  | (Throws e, s) =>
      Error.name e = "TypeError"
      ∧ ProcessOrder.cancelled s = true
      ∧ ProcessOrder.stream_closes s = 0%nat
      ∧ ∃ cs, ProcessOrder.calls s
              = cs ++ [ProcessOrder.Close ProcessOrder.crmClient;
                       ProcessOrder.Close ProcessOrder.emailClient]
              ∧ forallb (fun c => negb (Run.is_close c)) cs = true
  | (Suspends, s) =>
      ProcessOrder.stream_closes s = 0%nat
      ∧ forallb (fun c => negb (Run.is_close c)) (ProcessOrder.calls s) = true
  end.
Proof.
  destruct (ProcessOrder.start_try JSON_parse oracle orderId ProcessOrder.initial)
    as [r s'] eqn:E.
  pose proof (start_try_shape _ _ _ _ _ E) as H. cbv zeta in H.
  destruct r as [[]|e|].
  - destruct H as (Hopen & s1 & t & (evs & cs & He & Hp & Hc & Hn & Hs)
                   & Hen & Hcalls & Hcl).
    rewrite (start_after_success _ _ _ _ E Hopen).
    cbn [ProcessOrder.calls ProcessOrder.stream_closes ProcessOrder.cancelled] in *.
    split; [done |]. split; [congruence |]. exists cs.
    split; [|done]. by rewrite Hcalls, Hc.
  - destruct H as (evs & cs & He & Hp & Hc & Hn & Hs).
    cbn [ProcessOrder.calls ProcessOrder.stream_closes app] in Hc, Hs.
    destruct (ProcessOrder.cancelled s') eqn:Hcan.
    + rewrite (start_after_cancel _ _ _ _ _ E Hcan).
      cbn [ProcessOrder.calls ProcessOrder.stream_closes ProcessOrder.cancelled].
      split; [done |]. split; [done |]. split; [done |].
      exists cs. by rewrite Hc.
    + rewrite (start_after_failure _ _ _ _ _ E Hcan).
      cbn [ProcessOrder.calls ProcessOrder.stream_closes ProcessOrder.cancelled].
      split; [done |]. split; [congruence |]. exists cs. by rewrite Hc.
  - destruct H as (evs & cs & He & Hp & Hc & Hn & Hs).
    rewrite (start_suspended _ _ _ _ E).
    cbn [ProcessOrder.calls ProcessOrder.stream_closes app] in Hc, Hs.
    split; [done |]. by rewrite Hc.
Qed.

(** Scenario A with a consumer that goes away during the first await:
    two events were written, [start] rejects and has not closed the
    stream, and both clients were closed. *)
Lemma X10_cleanup_witness :
  fst (ProcessOrder.start Scenario.parse_known Scenario.consumer_leaves "XYZ-789"
         ProcessOrder.initial)
  = Throws (Error.TypeError "Invalid state: Controller is already closed")
  ∧ ProcessOrder.stream_closes
      (snd (ProcessOrder.start Scenario.parse_known Scenario.consumer_leaves
              "XYZ-789" ProcessOrder.initial))
    = 0%nat
  ∧ ProcessOrder.enqueued
      (snd (ProcessOrder.start Scenario.parse_known Scenario.consumer_leaves
              "XYZ-789" ProcessOrder.initial))
    = [ ProcessOrder.EvStatus ProcessOrder.running None 0;
        ProcessOrder.EvStep "connect-crm-1" "Connecting to CRM server..."
          ProcessOrder.step_running 2 None ]
  ∧ ProcessOrder.calls
      (snd (ProcessOrder.start Scenario.parse_known Scenario.consumer_leaves
              "XYZ-789" ProcessOrder.initial))
    = [ ProcessOrder.Connect ProcessOrder.crmClient;
        ProcessOrder.Close ProcessOrder.crmClient;
        ProcessOrder.Close ProcessOrder.emailClient ].
Proof.
  pose proof (X10_cleanup_runs_once_at_the_end Scenario.parse_known
                Scenario.consumer_leaves "XYZ-789") as H.
  assert (ProcessOrder.start Scenario.parse_known Scenario.consumer_leaves
            "XYZ-789" ProcessOrder.initial
          = (Throws Error.invalid_state,
             {| ProcessOrder.ticks := 5;
                ProcessOrder.enqueued :=
                  [ ProcessOrder.EvStatus ProcessOrder.running None 0;
                    ProcessOrder.EvStep "connect-crm-1"
                      "Connecting to CRM server..." ProcessOrder.step_running 2
                      None ];
                ProcessOrder.calls :=
                  [ ProcessOrder.Connect ProcessOrder.crmClient;
                    ProcessOrder.Close ProcessOrder.crmClient;
                    ProcessOrder.Close ProcessOrder.emailClient ];
                ProcessOrder.stream_closes := 0;
                ProcessOrder.cancelled := true |})) as E
    by (vm_compute; reflexivity).
  rewrite E in H. rewrite E. cbn [fst snd].
  destruct H as (He & _ & Hs & _).
  split; [reflexivity |]. split; [exact Hs |]. split; reflexivity.
Defined.

(** X11.  The events of every run of [start].  A run that returns has
    written status running first; then step and result events only; then
    either status completed as the last event, or one error event followed
    by status error with the same message as the last event.  A run that
    throws, the consumer having cancelled the stream, and a run in which
    an awaited call never settles, have written status running and then
    step and result events only. *)
Theorem X11_event_stream_shape
    (JSON_parse : string → Error.t + JSON.value) (oracle : ProcessOrder.Oracle)
    (orderId : string) :
  let first := ProcessOrder.EvStatus ProcessOrder.running None
                 (ProcessOrder.clock oracle 0) in
  match ProcessOrder.start JSON_parse oracle orderId ProcessOrder.initial with
  | (Returns _, s) =>
      (∃ evs t,
         ProcessOrder.enqueued s
         = first :: evs ++ [ProcessOrder.EvStatus ProcessOrder.completed None t]
         ∧ forallb Run.plain evs = true)
      ∨ (∃ evs e t t',
           ProcessOrder.enqueued s
           = first :: evs
               ++ [ProcessOrder.EvError t (Error.message e) (Some e);
                   ProcessOrder.EvStatus ProcessOrder.failed
                     (Some (Error.message e)) t']
           ∧ forallb Run.plain evs = true)
  | (Throws e, s) =>
      Error.name e = "TypeError"
      ∧ ∃ evs, ProcessOrder.enqueued s = first :: evs
               ∧ forallb Run.plain evs = true
  | (Suspends, s) =>
      ∃ evs, ProcessOrder.enqueued s = first :: evs ∧ forallb Run.plain evs = true
  end.
Proof.
  intros first.
  destruct (ProcessOrder.start_try JSON_parse oracle orderId ProcessOrder.initial)
    as [r s'] eqn:E.
  pose proof (start_try_shape _ _ _ _ _ E) as H. cbv zeta in H.
  destruct r as [[]|e|].
  - destruct H as (Hopen & s1 & t & (evs & cs & He & Hp & Hc & Hn & Hs)
                   & Hen & Hcalls & Hcl).
    rewrite (start_after_success _ _ _ _ E Hopen). cbn [ProcessOrder.enqueued].
    left. exists evs, t. by rewrite Hen, He.
  - destruct H as (evs & cs & He & Hp & Hc & Hn & Hs).
    destruct (ProcessOrder.cancelled s') eqn:Hcan.
    + rewrite (start_after_cancel _ _ _ _ _ E Hcan). cbn [ProcessOrder.enqueued].
      split; [done |]. exists evs. by rewrite He.
    + rewrite (start_after_failure _ _ _ _ _ E Hcan). cbn [ProcessOrder.enqueued].
      right. exists evs, e. do 2 eexists. by rewrite He.
  - destruct H as (evs & cs & He & Hp & Hc & Hn & Hs).
    rewrite (start_suspended _ _ _ _ E). exists evs. by rewrite He.
Qed.

(** X12.  When the CRM answers with a result whose parsed text has no
    truthy [email], and the consumer has not cancelled the stream while
    the two calls on the CRM client were awaited, the run writes six
    events, the last two being the error event and status error with
    Customer not found for this order ID; the email client is neither
    connected nor called; the handler still closes it. *)
Theorem X12_customer_not_found
    (JSON_parse : string → Error.t + JSON.value) (oracle : ProcessOrder.Oracle)
    (orderId : string) (crmResult customerEmail : JSON.maybe)
    (emailData : JSON.value) :
  ProcessOrder.connect oracle ProcessOrder.crmClient = Returns tt →
  ProcessOrder.callTool oracle ProcessOrder.crmClient "getCustomerEmail"
    (JSON.Obj [("order_id", JSON.Str orderId)]) = Returns crmResult →
  ProcessOrder.first_text JSON_parse crmResult = inr emailData →
  get_prop (Some emailData) "email" = inr customerEmail →
  JSON.truthy customerEmail = false →
  ProcessOrder.cancelled_during oracle
    (ProcessOrder.Connect ProcessOrder.crmClient) = false →
  ProcessOrder.cancelled_during oracle
    (ProcessOrder.CallTool ProcessOrder.crmClient "getCustomerEmail"
       (JSON.Obj [("order_id", JSON.Str orderId)])) = false →
  let t := ProcessOrder.clock oracle in
  let e := Error.new "Customer not found for this order ID" in
  ProcessOrder.start JSON_parse oracle orderId ProcessOrder.initial
  = (Returns tt,
     {| ProcessOrder.ticks := 8;
        ProcessOrder.enqueued :=
          [ ProcessOrder.EvStatus ProcessOrder.running None (t 0%nat);
            ProcessOrder.EvStep ("connect-crm-" +:+ pretty (t 1%nat))
              "Connecting to CRM server..." ProcessOrder.step_running (t 2%nat) None;
            ProcessOrder.EvStep ("connect-crm-" +:+ pretty (t 1%nat))
              "Connected to CRM server" ProcessOrder.step_success (t 3%nat) None;
            ProcessOrder.EvStep ("fetch-email-" +:+ pretty (t 4%nat))
              ("Fetching customer email for order #" +:+ orderId +:+ "...")
              ProcessOrder.step_running (t 5%nat) None;
            ProcessOrder.EvError (t 6%nat) "Customer not found for this order ID"
              (Some e);
            ProcessOrder.EvStatus ProcessOrder.failed
              (Some "Customer not found for this order ID") (t 7%nat) ];
        ProcessOrder.calls :=
          [ ProcessOrder.Connect ProcessOrder.crmClient;
            ProcessOrder.CallTool ProcessOrder.crmClient "getCustomerEmail"
              (JSON.Obj [("order_id", JSON.Str orderId)]);
            ProcessOrder.Close ProcessOrder.crmClient;
            ProcessOrder.Close ProcessOrder.emailClient ];
        ProcessOrder.stream_closes := 1;
        ProcessOrder.cancelled := false |}).
Proof.
  intros Hc Ht Hp He Hf Hn1 Hn2 t e.
  rewrite (start_after_failure JSON_parse oracle orderId e
             {| ProcessOrder.ticks := 6;
                ProcessOrder.enqueued :=
                  [ ProcessOrder.EvStatus ProcessOrder.running None (t 0%nat);
                    ProcessOrder.EvStep ("connect-crm-" +:+ pretty (t 1%nat))
                      "Connecting to CRM server..." ProcessOrder.step_running
                      (t 2%nat) None;
                    ProcessOrder.EvStep ("connect-crm-" +:+ pretty (t 1%nat))
                      "Connected to CRM server" ProcessOrder.step_success
                      (t 3%nat) None;
                    ProcessOrder.EvStep ("fetch-email-" +:+ pretty (t 4%nat))
                      ("Fetching customer email for order #" +:+ orderId +:+ "...")
                      ProcessOrder.step_running (t 5%nat) None ];
                ProcessOrder.calls :=
                  [ ProcessOrder.Connect ProcessOrder.crmClient;
                    ProcessOrder.CallTool ProcessOrder.crmClient "getCustomerEmail"
                      (JSON.Obj [("order_id", JSON.Str orderId)]) ];
                ProcessOrder.stream_closes := 0;
                ProcessOrder.cancelled := false |}); [done | | done].
  unfold ProcessOrder.start_try.
  rewrite run_Date_now. exec. rewrite run_sendSSEEvent by reflexivity. exec.
  rewrite run_stepId. exec. rewrite run_Date_now. exec.
  rewrite run_sendSSEEvent by reflexivity. exec.
  rewrite run_await_connect by exact Hc. exec. rewrite Hn1. exec.
  rewrite run_Date_now. exec. rewrite run_sendSSEEvent by reflexivity. exec.
  rewrite run_stepId. exec. rewrite run_Date_now. exec.
  rewrite run_sendSSEEvent by reflexivity. exec.
  rewrite (run_await_callTool _ _ _ _ crmResult) by exact Ht. exec.
  rewrite Hn2. exec.
  unfold ProcessOrder.parse_first_text.
  rewrite (run_of_sum _ emailData) by exact Hp. exec.
  rewrite (run_of_sum _ customerEmail) by exact He. exec.
  rewrite Hf. reflexivity.
Qed.

Lemma X12_customer_not_found_witness :
  let oracle :=
    ProcessOrder.mkOracle (fun k => Z.of_nat k) (fun _ => Returns tt)
      (fun _ _ _ => Returns (Some (Scenario.tool_result "{}")))
      (fun _ => false) in
  ProcessOrder.calls
    (snd (ProcessOrder.start (fun _ => inr (JSON.Obj [])) oracle "NOPE-1"
            ProcessOrder.initial))
  = [ ProcessOrder.Connect ProcessOrder.crmClient;
      ProcessOrder.CallTool ProcessOrder.crmClient "getCustomerEmail"
        (JSON.Obj [("order_id", JSON.Str "NOPE-1")]);
      ProcessOrder.Close ProcessOrder.crmClient;
      ProcessOrder.Close ProcessOrder.emailClient ].
Proof.
  intros oracle.
  rewrite (X12_customer_not_found (fun _ => inr (JSON.Obj [])) oracle "NOPE-1"
             (Some (Scenario.tool_result "{}")) None (JSON.Obj []));
    reflexivity.
Defined.

(** * More on the client *)

Section ClientMore.
Import MCP Lifetime Tracking.

Lemma strip_no_trailing_slash (url : string) :
  ends_with_slash (strip_trailing_slashes url) = false.
Proof.
  induction url as [|c s IH]; [done |]. simpl.
  destruct (decide (c = "/"%char)) as [->|Hc].
  - destruct (strip_trailing_slashes s) as [|c' r]; [done |]. exact IH.
  - destruct (strip_trailing_slashes s) as [|c' r]; [|exact IH].
    simpl. by rewrite bool_decide_eq_false_2.
Qed.

Lemma strip_removes_slashes (url : string) :
  ∃ n, url = strip_trailing_slashes url +:+ slashes n.
Proof.
  induction url as [|c s [n IH]]; [by exists O |]. simpl.
  destruct (decide (c = "/"%char)) as [->|Hc].
  - destruct (strip_trailing_slashes s) as [|c' r].
    + exists (S n). rewrite append_nil_l in *. simpl. by rewrite <- IH.
    + exists n. cbn [JSString.is_empty]. rewrite append_cons. by rewrite <- IH.
  - exists n. rewrite append_cons. by rewrite <- IH.
Qed.

Lemma close_connected_false (w : World) : connected (client (close w)) = false.
Proof. reflexivity. Qed.

Lemma close_closed (w : World) :
  pendingRequests (client w) = ∅ → sseController (client w) = None →
  connected (client w) = false → close w = w.
Proof.
  destruct w as [[b c m n k] r]. simpl. intros -> -> ->.
  unfold close. simpl. rewrite map_fold_empty. reflexivity.
Qed.

(** An event leaves what the streams read as it is when no stream is
    live. *)
Lemma step_streams_quiet (ev : Event) (w : World) (s : nat) (st : Stream) :
  no_live_stream w → streams (rt w) !! s = Some st →
  ∃ st', streams (rt (step ev w)) !! s = Some st'
         ∧ received st' = received st ∧ parser st' = parser st
         ∧ signal st' = signal st.
Proof.
  intros Hn Hs.
  assert (∀ x sx u, streams (rt w) !! x = Some sx →
            ∃ st', <[x := mkStream (signal sx) (parser sx) (received sx) u]>
                     (streams (rt w)) !! s = Some st'
                   ∧ received st' = received st ∧ parser st' = parser st
                   ∧ signal st' = signal st) as Hend.
  { intros x sx u Hx. destruct (decide (x = s)) as [->|Hne].
    - rewrite list_lookup_insert_eq by (by eapply lookup_lt_Some).
      eexists. split; [done |]. simpl. by simplify_eq.
    - rewrite list_lookup_insert_ne by done. eauto. }
  destruct ev; cbn [step];
    try (rewrite close_streams); try (by simpl; eauto).
  - destruct (timers (rt w) !! t) as [[tm|]|]; eauto.
    destruct (decide (deadline tm ≤ now (rt w))%Z); eauto.
  - destruct (posts (rt w) !! f) as [po|]; eauto.
    destruct (phase po); eauto.
    destruct (decide (abort_deadline ≤ now (rt w))%Z); eauto.
  - destruct (posts (rt w) !! f) as [po|]; eauto.
    destruct (phase po); eauto.
  - destruct (posts (rt w) !! f) as [po|]; eauto.
    destruct (phase po); eauto. destruct (Response.ok r); eauto.
  - destruct (posts (rt w) !! f) as [po|]; eauto.
    destruct (phase po); eauto. unfold on_post_data. simpl.
    destruct (pendingRequests (client w) !! _); eauto.
  - destruct (posts (rt w) !! f) as [po|]; eauto.
    destruct (phase po); eauto.
  - destruct (streams (rt w) !! s0) as [sx|] eqn:Hx; eauto.
    specialize (Hn s0 sx Hx). unfold live in Hn.
    destruct (ended sx); simpl in *; eauto.
    destruct (is_aborted (signal sx) w); simpl in *; [eauto | done].
  - destruct (streams (rt w) !! s0) as [sx|] eqn:Hx; eauto.
    destruct (ended sx); eauto. simpl. by apply Hend.
  - destruct (streams (rt w) !! s0) as [sx|] eqn:Hx; eauto.
    destruct (ended sx); eauto. rewrite close_streams. simpl. by apply Hend.
Qed.

Lemma run_streams_quiet (evs : list Event) (w : World) (s : nat) (st : Stream) :
  StreamInv w → connected (client w) = false →
  streams (rt w) !! s = Some st →
  ∃ st', streams (rt (run evs w)) !! s = Some st'
         ∧ received st' = received st ∧ parser st' = parser st
         ∧ signal st' = signal st.
Proof.
  revert w st. induction evs as [|ev evs IH]; intros w st HS Hc Hs; [by eauto |].
  simpl.
  destruct (step_streams_quiet ev w s st) as (st1 & H1 & Hr1 & Hp1 & Hg1);
    [by apply StreamInv_not_connected | done |].
  destruct (IH (step ev w) st1) as (st2 & H2 & Hr2 & Hp2 & Hg2);
    [by apply StreamInv_step | by apply step_connected_false | done |].
  exists st2. split; [done |]. split; [congruence |]. split; congruence.
Qed.

End ClientMore.

(** X13.  The base URL kept by the constructor is the given URL without
    its trailing slashes: the URL is the base URL followed by slashes
    only, and the base URL does not end with a slash. *)
Theorem X13_base_url_has_no_trailing_slash (url : string) (t0 : Z) :
  let base := MCP.baseUrl (MCP.client (MCP.new url t0)) in
  (∃ n, url = base +:+ Tracking.slashes n)
  ∧ Tracking.ends_with_slash base = false.
Proof.
  split; [apply strip_removes_slashes | apply strip_no_trailing_slash].
Qed.

(** X14.  [close()] is idempotent, and once a client is closed nothing
    that happens afterwards, short of a new [connect()], hands a chunk to
    a parser: every stream keeps the frames it had received and the
    buffer of its parser. *)
Theorem X14_closed_client_reads_nothing
    (w : MCP.World) (evs : list MCP.Event) (s : nat) (st : MCP.Stream) :
  Lifetime.reachable w →
  MCP.streams (MCP.rt (MCP.close w)) !! s = Some st →
  MCP.close (MCP.close w) = MCP.close w
  ∧ ∃ st', MCP.streams (MCP.rt (MCP.run evs (MCP.close w))) !! s = Some st'
           ∧ MCP.received st' = MCP.received st
           ∧ MCP.parser st' = MCP.parser st.
Proof.
  intros Hr Hs. split.
  - apply close_closed;
      [apply close_pending | apply close_sseController | apply close_connected_false].
  - destruct (run_streams_quiet evs (MCP.close w) s st)
      as (st' & H1 & H2 & H3 & _); [| apply close_connected_false | done | by eauto].
    apply no_live_StreamInv, StreamInv_close. by apply reachable_StreamInv.
Qed.

Lemma X14_closed_client_witness :
  ∃ st', MCP.streams
           (MCP.rt (MCP.run [MCP.StreamChunk 0 ("data: x" +:+ JSString.nl +:+ JSString.nl)]
                      (MCP.close Example.connected_client))) !! 0%nat
         = Some st'
         ∧ MCP.received st' = [].
Proof.
  assert (Lifetime.reachable Example.connected_client) as Hr
    by (apply Lifetime.reach_connect, Lifetime.reach_new).
  destruct (X14_closed_client_reads_nothing Example.connected_client
              [MCP.StreamChunk 0 ("data: x" +:+ JSString.nl +:+ JSString.nl)] 0
              (MCP.mkStream 0 SSEParser.new [] false) Hr)
    as (_ & st' & H1 & H2 & _).
  - vm_compute. reflexivity.
  - exists st'. split; [exact H1 | exact H2].
Defined.

Section Answers.
Import MCP Lifetime Tracking.

Lemma run_app (l1 l2 : list Event) (w : World) :
  run (l1 ++ l2) w = run l2 (run l1 w).
Proof. unfold run. apply fold_left_app. Qed.

Lemma run_now_mono (evs : list Event) (w : World) :
  Inv w → (now (rt w) ≤ now (rt (run evs w)))%Z.
Proof.
  revert w. induction evs as [|ev evs IH]; intros w HI; [done |].
  simpl. pose proof (effect_now ev w _ (step_effect ev w HI)).
  specialize (IH (step ev w) (Inv_step ev w HI)). lia.
Qed.

(** While a request waits, [await] goes through events that neither
    answer it nor close the client. *)
Lemma await_quiet (p : nat) (rid : string) (d : Z) (pre rest : list Event)
    (w : World) :
  Inv w → (N.of_nat (S p) < 2 ^ 53)%N →
  never_answered p pre → Waiting p rid d w →
  (now (rt (run pre w)) < d)%Z →
  await p (pre ++ rest) w = await p rest (run pre w)
  ∧ Waiting p rid d (run pre w).
Proof.
  revert w. induction pre as [|ev pre IH]; intros w HI Hb Hq Hw Hnow; [done |].
  inversion Hq as [|? ? [Ha Hc] Hq']; subst.
  pose proof Hw as (_ & Hp & _).
  cbn [app await]. rewrite Hp. cbn [run fold_left] in *.
  fold (run pre (step ev w)) in *.
  destruct (quiet_step p rid d ev w HI Hb Ha Hc Hw) as [Hw'|(_ & _ & Hd & _)].
  - apply IH; auto using Inv_step.
  - pose proof (run_now_mono pre (step ev w) (Inv_step ev w HI)). lia.
Qed.

(** The reply to a waiting request fulfils its promise. *)
Lemma answer_now (p : nat) (rid : string) (d : Z) (r : Response.t)
    (data : JSONRPCResponse.t) (w : World) :
  Waiting p rid d w → Response.ok r = true →
  let w' := run (answered p r data) w in
  await p (answered p r data) w = (Returns data, w')
  ∧ promises (rt w') !! p = Some (Fulfilled data)
  ∧ pendingRequests (client w') !! rid = None
  ∧ timers (rt w') !! p = Some None
  ∧ ∃ po, posts (rt w') !! p = Some po ∧ phase po = Finished.
Proof.
  intros (Ht & Hp & Htm & po & Hpo & Hid & Hph) Hok. unfold answered.
  assert (step (PostFetchResolves p r) w = set_phase p po AwaitingBody w) as E1.
  { cbn [step]. by rewrite Hpo, Hph, Hok. }
  set (po1 := mkPost (request po) (catch_timeout po) (catch_reject po) AwaitingBody).
  assert (posts (rt (set_phase p po AwaitingBody w)) !! p = Some po1) as Hpo1.
  { simpl. rewrite list_lookup_insert_eq; [done | by eapply lookup_lt_Some]. }
  assert (step (PostBodyParsed p data) (set_phase p po AwaitingBody w)
          = call_resolve p data
              (pending_delete rid
                 (clearTimeout p
                    (finish_post p po1 (set_phase p po AwaitingBody w))))) as E2.
  { cbn [step]. rewrite Hpo1. cbn [phase po1]. unfold on_post_data.
    change (pendingRequests (client (finish_post p po1 (set_phase p po AwaitingBody w))))
      with (pendingRequests (client w)).
    change (JSONRPCRequest.id (request po1)) with (JSONRPCRequest.id (request po)).
    rewrite Hid, Ht. reflexivity. }
  cbn [run fold_left]. rewrite E1, E2.
  assert (promises
            (rt (call_resolve p data
                   (pending_delete rid
                      (clearTimeout p
                         (finish_post p po1 (set_phase p po AwaitingBody w))))))
          !! p = Some (Fulfilled data)) as Hf.
  { simpl. by apply settle_in_unsettled. }
  split; [|split; [exact Hf |split; [|split]]].
  - cbn [await]. rewrite Hp, E1.
    change (promises (rt (set_phase p po AwaitingBody w))) with (promises (rt w)).
    rewrite Hp, E2, Hf. reflexivity.
  - simpl. apply lookup_delete_eq.
  - simpl. apply list_lookup_insert_eq. by eapply lookup_lt_Some.
  - eexists. split.
    + simpl. rewrite list_lookup_insert_eq; [done |].
      rewrite length_insert. by eapply lookup_lt_Some.
    + done.
Qed.

(** A failure of the post of a waiting request rejects its promise. *)
Lemma reject_now (p : nat) (rid : string) (po : Post) (e : Error.t) (w : World) :
  Inv w → posts (rt w) !! p = Some po →
  JSONRPCRequest.id (request po) = rid →
  promises (rt w) !! p = Some Unsettled →
  Retired p rid (Rejected e) (on_post_rejected po e (finish_post p po w)).
Proof.
  intros HI Hpo Hid Hp.
  destruct (inv_posts w HI p po Hpo) as (Hr & Hc & _).
  unfold Retired, on_post_rejected. rewrite Hr, Hc, Hid. simpl. split; [|split].
  - by apply settle_in_unsettled.
  - apply lookup_delete_eq.
  - apply list_lookup_insert_eq. rewrite (inv_timers w HI).
    by eapply lookup_lt_Some.
Qed.

Lemma set_phase_lookup (p : nat) (po : Post) (ph : Phase) (w : World) :
  posts (rt w) !! p = Some po →
  posts (rt (set_phase p po ph w)) !! p
  = Some (mkPost (request po) (catch_timeout po) (catch_reject po) ph).
Proof.
  intros H. simpl. rewrite list_lookup_insert_eq; [done | by eapply lookup_lt_Some].
Qed.

(** A request sent by a client, then events that neither answer it nor
    close the client, before its deadline: the request still waits. *)
Lemma still_waiting (w : World) (method : string) (params : JSON.value)
    (pre : list Event) :
  Inv w → (requestIdCounter (client w) + 1 < 2 ^ 53)%N →
  let p := length (posts (rt w)) in
  let w1 := snd (sendRequest method params w) in
  never_answered p pre →
  (now (rt (run pre w1)) < now (rt w) + requestTimeout)%Z →
  Inv (run pre w1)
  ∧ Waiting p (fst (generateRequestId w)) (now (rt w) + requestTimeout)
      (run pre w1)
  ∧ ∀ rest, await p (pre ++ rest) w1 = await p rest (run pre w1).
Proof.
  intros HI Hc p w1 Hq Hnow.
  destruct (sendRequest_Waiting method params w HI) as [_ Hw].
  assert (N.of_nat (S p) < 2 ^ 53)%N as Hb.
  { rewrite (inv_counter w HI) in Hc. unfold p. lia. }
  pose proof (Inv_sendRequest method params w HI) as HI1.
  split; [by apply Inv_run |]. split.
  - by apply (await_quiet p _ _ pre [] w1).
  - intros rest. by apply (await_quiet p _ _ pre rest w1 HI1 Hb Hq Hw).
Qed.

End Answers.

(** X15.  A request that gets its reply before its deadline is fulfilled
    with the reply body.  The client sends a request; events that neither
    answer it nor close the client follow, the clock staying before the
    deadline; then the response arrives with a success status and its body
    is read.  [await] of the request then returns that body, the id is out
    of the table, the timer is cleared, and nothing later changes the
    promise. *)
Theorem X15_answered_request_is_fulfilled
    (w : MCP.World) (method : string) (params : JSON.value)
    (pre : list MCP.Event) (r : Response.t) (data : JSONRPCResponse.t) :
  Lifetime.reachable w →
  (MCP.requestIdCounter (MCP.client w) + 1 < 2 ^ 53)%N →
  let p := fst (MCP.sendRequest method params w) in
  let rid := fst (MCP.generateRequestId w) in
  let w1 := snd (MCP.sendRequest method params w) in
  Lifetime.never_answered p pre →
  (MCP.now (MCP.rt (MCP.run pre w1)) < MCP.now (MCP.rt w) + MCP.requestTimeout)%Z →
  Response.ok r = true →
  let sched := pre ++ Tracking.answered p r data in
  MCP.await p sched w1 = (Returns data, MCP.run sched w1)
  ∧ Tracking.Retired p rid (MCP.Fulfilled data) (MCP.run sched w1)
  ∧ ∀ later,
      MCP.promises (MCP.rt (MCP.run later (MCP.run sched w1))) !! p
      = Some (MCP.Fulfilled data).
Proof.
  intros Hr Hc p rid w1. pose proof (reachable_Inv w Hr) as HI.
  destruct (sendRequest_Waiting method params w HI) as [Hp _].
  fold p in Hp. clearbody p. subst p. intros Hq Hnow Hok sched.
  destruct (still_waiting w method params pre HI Hc Hq Hnow) as (HI2 & Hw & Ha).
  destruct (answer_now _ _ _ r data _ Hw Hok) as (A1 & A2 & A3 & A4 & _).
  unfold sched. rewrite run_app.
  split; [by rewrite Ha |].
  split; [done |].
  intros later. apply run_settled_stable; [|done |done].
  by apply Inv_run.
Qed.

Lemma X15_answered_request_witness :
  MCP.await 1
    ([MCP.Tick 5] ++ Tracking.answered 1 Scenario.response_ok (Example.reply "req_2_0"))
    (snd (MCP.sendRequest "tools/list" (JSON.Obj []) Example.connected_client))
  = (Returns (Example.reply "req_2_0"),
     MCP.run
       ([MCP.Tick 5] ++ Tracking.answered 1 Scenario.response_ok (Example.reply "req_2_0"))
       (snd (MCP.sendRequest "tools/list" (JSON.Obj []) Example.connected_client))).
Proof.
  assert (Lifetime.reachable Example.connected_client) as Hr
    by (apply Lifetime.reach_connect, Lifetime.reach_new).
  refine (proj1 (X15_answered_request_is_fulfilled Example.connected_client
                   "tools/list" (JSON.Obj []) [MCP.Tick 5] Scenario.response_ok
                   (Example.reply "req_2_0") Hr _ _ _ _)).
  - vm_compute. reflexivity.
  - repeat constructor.
  - vm_compute. reflexivity.
  - reflexivity.
Defined.

(** X16.  A request whose post fails before its deadline is rejected with
    the failure, leaves the table and has its timer cleared: with "HTTP
    error: <status> <statusText>" when the response has a failure status,
    with the error of the fetch when the fetch rejects (the timeout error
    when that is an abort), and with the error of [response.json()] when
    the body cannot be read. *)
Theorem X16_failed_post_rejects_request
    (w : MCP.World) (method : string) (params : JSON.value)
    (pre : list MCP.Event) :
  Lifetime.reachable w →
  (MCP.requestIdCounter (MCP.client w) + 1 < 2 ^ 53)%N →
  let p := fst (MCP.sendRequest method params w) in
  let rid := fst (MCP.generateRequestId w) in
  let w2 := MCP.run pre (snd (MCP.sendRequest method params w)) in
  Lifetime.never_answered p pre →
  (MCP.now (MCP.rt w2) < MCP.now (MCP.rt w) + MCP.requestTimeout)%Z →
  (∀ r, Response.ok r = false →
        Tracking.Retired p rid (MCP.Rejected (MCP.http_error r))
          (MCP.step (MCP.PostFetchResolves p r) w2))
  ∧ (∀ e, Tracking.Retired p rid
            (MCP.Rejected (if decide (Error.name e = "AbortError")
                           then MCP.timeout_error MCP.requestTimeout else e))
            (MCP.step (MCP.PostFetchRejects p e) w2))
  ∧ (∀ r e, Response.ok r = true →
            Tracking.Retired p rid (MCP.Rejected e)
              (MCP.run [MCP.PostFetchResolves p r; MCP.PostBodyFails p e] w2)).
Proof.
  intros Hr Hc p rid w2. pose proof (reachable_Inv w Hr) as HI.
  destruct (sendRequest_Waiting method params w HI) as [Hp' _].
  fold p in Hp'. clearbody p. subst p. intros Hq Hnow.
  destruct (still_waiting w method params pre HI Hc Hq Hnow)
    as (HI2 & (Ht & Hp & Htm & po & Hpo & Hid & Hph) & _).
  fold w2 in HI2, Ht, Hp, Htm, Hpo.
  set (p := length (MCP.posts (MCP.rt w))) in *.
  split; [|split].
  - intros r Hok. cbn [MCP.step]. rewrite Hpo, Hph, Hok.
    by apply reject_now.
  - intros e. cbn [MCP.step]. rewrite Hpo, Hph.
    by apply (reject_now p _ po (MCP.fetch_error e MCP.requestTimeout) w2).
  - intros r e Hok. cbn [MCP.run fold_left].
    assert (MCP.step (MCP.PostFetchResolves p r) w2
            = MCP.set_phase p po MCP.AwaitingBody w2) as ->.
    { cbn [MCP.step]. by rewrite Hpo, Hph, Hok. }
    pose proof (set_phase_lookup p po MCP.AwaitingBody w2 Hpo) as Hpo1.
    cbn [MCP.step]. rewrite Hpo1. cbn [MCP.phase].
    apply reject_now; [by apply Inv_set_phase | done | done | done].
Qed.

Lemma X16_failed_post_witness :
  Tracking.Retired 1 "req_2_0"
    (MCP.Rejected (Error.new "HTTP error: 503 Service Unavailable"))
    (MCP.step (MCP.PostFetchResolves 1 (Response.mk false 503 "Service Unavailable"))
       (MCP.run [] (snd (MCP.sendRequest "tools/list" (JSON.Obj [])
                           Example.connected_client)))).
Proof.
  assert (Lifetime.reachable Example.connected_client) as Hr
    by (apply Lifetime.reach_connect, Lifetime.reach_new).
  refine (proj1 (X16_failed_post_rejects_request Example.connected_client
                   "tools/list" (JSON.Obj []) [] Hr _ _ _)
            (Response.mk false 503 "Service Unavailable") _).
  - vm_compute. reflexivity.
  - constructor.
  - vm_compute. reflexivity.
  - reflexivity.
Defined.

(** X17.  When [connect()] returns, the health check had a success
    status, the client is connected and holds a controller made for this
    connection and not aborted, and the stream of this connection, with
    an empty parser, is the only stream still being read. *)
Theorem X17_successful_connect
    (env : MCP.ConnectEnv) (w w' : MCP.World) :
  Lifetime.reachable w →
  MCP.connect env w = (Returns tt, w') →
  (∃ r, MCP.health env = inr r ∧ Response.ok r = true)
  ∧ MCP.isConnected w = false ∧ MCP.isConnected w' = true
  ∧ ∃ c s,
      MCP.sseController (MCP.client w') = Some c
      ∧ MCP.controllers (MCP.rt w') !! c = Some false
      ∧ MCP.streams (MCP.rt w') !! s = Some (MCP.mkStream c SSEParser.new [] false)
      ∧ ∀ s' st, MCP.streams (MCP.rt w') !! s' = Some st →
                 Lifetime.live w' st = true → s' = s.
Proof.
  intros Hr. pose proof (reachable_StreamInv w Hr) as HS.
  unfold MCP.connect, MCP.isConnected.
  destruct (MCP.connected (MCP.client w)) eqn:Hc; [done |].
  destruct (MCP.health env) as [e|r]; cbn [MCP.fetchWithTimeout];
    [unfold MCP.connect_catch; done |].
  destruct (Response.ok r) eqn:Hok; cbn [negb];
    [|unfold MCP.connect_catch; done].
  set (w1 := MCP.run (MCP.health_events env) w).
  assert (Lifetime.StreamInv w1) as HS1 by (by apply StreamInv_run).
  assert (MCP.connected (MCP.client w1) = false) as Hc1
    by (by apply run_connected_false).
  destruct (MCP.sendRequest "initialize" MCP.initialize_params w1) as [p w2] eqn:E2.
  assert (w2 = snd (MCP.sendRequest "initialize" MCP.initialize_params w1)) as Hw2
    by (by rewrite E2).
  assert (Lifetime.StreamInv w2) as HS2
    by (rewrite Hw2; by apply StreamInv_sendRequest).
  assert (MCP.connected (MCP.client w2) = false) as Hc2 by (by rewrite Hw2).
  destruct (MCP.await p (MCP.initialize_events env) w2) as [[resp|e|] w3] eqn:E3;
    [|unfold MCP.connect_catch; done..].
  assert (w3 = snd (MCP.await p (MCP.initialize_events env) w2)) as Hw3
    by (by rewrite E3).
  assert (Lifetime.no_live_stream w3) as Hn3.
  { rewrite Hw3. apply StreamInv_not_connected;
      [by apply StreamInv_await | by apply await_connected_false]. }
  destruct (JSONRPCResponse.error resp); [unfold MCP.connect_catch; done |].
  intros [= <-]. split; [by eauto |]. split; [done |]. split; [done |].
  exists (length (MCP.controllers (MCP.rt w3))), (length (MCP.streams (MCP.rt w3))).
  simpl. split; [done |]. split; [|split].
  - rewrite lookup_app_r by lia. by rewrite Nat.sub_diag.
  - rewrite lookup_app_r by lia. by rewrite Nat.sub_diag.
  - intros s' st Hs Hl.
    apply lookup_app_Some in Hs as [Hs|[Hge Hs]].
    + exfalso. specialize (Hn3 s' st Hs).
      unfold Lifetime.live, MCP.is_aborted in *. simpl in Hl.
      apply andb_true_iff in Hl as [L1 L2]. rewrite L1 in Hn3. simpl in Hn3.
      destruct (MCP.controllers (MCP.rt w3) !! MCP.signal st) as [b|] eqn:Ec;
        [|done].
      rewrite (lookup_app_l_Some _ _ _ _ Ec) in L2. congruence.
    + apply list_lookup_singleton_Some in Hs as [Hz _]. lia.
Qed.

Lemma X17_successful_connect_witness :
  MCP.isConnected Example.connected_client = true.
Proof.
  refine (proj1 (proj2 (proj2
            (X17_successful_connect Scenario.reachable_env Scenario.crm0
               Example.connected_client (Lifetime.reach_new _ _) _)))).
  vm_compute. reflexivity.
Defined.

(** X18.  [callTool] on a connected client whose request gets its reply
    before the deadline: it returns the [result] of the reply when the
    reply carries no [error], and otherwise throws.  What it throws then
    is "Tool call failed: <message> (<code>)" when the [data] of the error
    is falsy, "Tool call failed: <message>: <data> (<code>)" when it is
    truthy and converts to a string, and the [TypeError] of the conversion
    when it does not; the code is printed as JavaScript prints the
    number.  On a client that is not connected it throws without sending
    anything. *)
Theorem X18_callTool_outcomes
    (w : MCP.World) (toolName : string) (args : JSON.value)
    (pre : list MCP.Event) (r : Response.t) (data : JSONRPCResponse.t) :
  Lifetime.reachable w →
  (MCP.requestIdCounter (MCP.client w) + 1 < 2 ^ 53)%N →
  let p := length (MCP.posts (MCP.rt w)) in
  let w1 :=
    snd (MCP.sendRequest "tools/call"
           (JSON.Obj [("name", JSON.Str toolName); ("arguments", args)]) w) in
  Lifetime.never_answered p pre →
  (MCP.now (MCP.rt (MCP.run pre w1)) < MCP.now (MCP.rt w) + MCP.requestTimeout)%Z →
  Response.ok r = true →
  let sched := pre ++ Tracking.answered p r data in
  (MCP.callTool toolName args sched w
   = if MCP.isConnected w then
       (match JSONRPCResponse.error data with
        | Some err => Throws (MCP.tool_call_error err)
        | None => Returns (JSONRPCResponse.result data)
        end, MCP.run sched w1)
     else (Throws MCP.not_connected_error, w))
  ∧ ∀ err,
      (JSON.truthy (RpcError.data err) = false →
       MCP.tool_call_error err
       = Error.new ("Tool call failed: " +:+ RpcError.message err +:+ " ("
                    +:+ Number.text (RpcError.code err) +:+ ")"))
      ∧ (∀ text,
           JSON.truthy (RpcError.data err) = true →
           JSON.maybe_to_string (RpcError.data err) = inr text →
           MCP.tool_call_error err
           = Error.new ("Tool call failed: " +:+ RpcError.message err +:+ ": "
                        +:+ text +:+ " (" +:+ Number.text (RpcError.code err)
                        +:+ ")"))
      ∧ (∀ type_error,
           JSON.truthy (RpcError.data err) = true →
           JSON.maybe_to_string (RpcError.data err) = inl type_error →
           MCP.tool_call_error err = type_error).
Proof.
  intros Hr Hc p w1 Hq Hnow Hok sched.
  pose proof (reachable_Inv w Hr) as HI.
  split.
  2: { intros err. unfold MCP.tool_call_error. split; [|split].
       - by intros ->.
       - intros text H1 H2. rewrite H1, H2. by rewrite !append_assoc.
       - intros te H1 H2. by rewrite H1, H2. }
  unfold MCP.callTool, MCP.isConnected.
  destruct (MCP.connected (MCP.client w)); [|done]. cbn [negb].
  destruct (sendRequest_Waiting "tools/call"
              (JSON.Obj [("name", JSON.Str toolName); ("arguments", args)]) w HI)
    as [Hp _].
  destruct (still_waiting w "tools/call"
              (JSON.Obj [("name", JSON.Str toolName); ("arguments", args)])
              pre HI Hc Hq Hnow) as (_ & Hw & Ha).
  destruct (answer_now _ _ _ r data _ Hw Hok) as (A1 & _).
  unfold sched, w1, p in *. clear sched w1 p.
  destruct (MCP.sendRequest "tools/call" _ w) as [p' w1'].
  cbn [fst snd] in *. subst p'.
  rewrite Ha, A1, run_app.
  by destruct (JSONRPCResponse.error data).
Qed.

Lemma X18_callTool_witness :
  fst (MCP.callTool "getCustomerEmail" (JSON.Obj [])
         ([] ++ Tracking.answered 1 Scenario.response_ok (Example.reply "req_2_0"))
         Example.connected_client)
  = Returns (Some (JSON.Obj [])).
Proof.
  assert (Lifetime.reachable Example.connected_client) as Hr
    by (apply Lifetime.reach_connect, Lifetime.reach_new).
  refine (eq_trans
            (f_equal fst
               (proj1
                  (X18_callTool_outcomes Example.connected_client
                     "getCustomerEmail" (JSON.Obj []) [] Scenario.response_ok
                     (Example.reply "req_2_0") Hr _ _ _ _))) _).
  - vm_compute. reflexivity.
  - constructor.
  - vm_compute. reflexivity.
  - reflexivity.
  - reflexivity.
Defined.

(** * No awaited request is lost *)

Section TrackedFacts.
Import MCP Lifetime Tracking.

Lemma posts_id_at (w : World) (f : nat) (po : Post) :
  posts (rt w) !! f = Some po →
  request_id_at w f = Some (JSONRPCRequest.id (request po)).
Proof. intros H. unfold request_id_at. by rewrite H. Qed.

Lemma Below_unique (w : World) (f g : nat) (rid : string) :
  Inv w → Below w →
  request_id_at w f = Some rid → request_id_at w g = Some rid → f = g.
Proof.
  intros HI HB. apply request_id_at_inj; [done |].
  rewrite (inv_counter w HI). unfold Below in HB. lia.
Qed.

Lemma step_posts_length (ev : Event) (w : World) :
  (length (posts (rt w)) ≤ length (posts (rt (step ev w))))%nat.
Proof.
  destruct ev; cbn [step]; try rewrite close_posts; try (simpl; lia).
  - destruct (timers (rt w) !! t) as [[tm|]|]; [|done..].
    by destruct (decide (deadline tm ≤ now (rt w))%Z).
  - destruct (posts (rt w) !! f) as [po|]; [|done].
    destruct (phase po); try done.
    destruct (decide (abort_deadline ≤ now (rt w))%Z); [|done].
    simpl. by rewrite length_insert.
  - destruct (posts (rt w) !! f) as [po|]; [|done].
    destruct (phase po); try done. simpl. by rewrite length_insert.
  - destruct (posts (rt w) !! f) as [po|]; [|done].
    destruct (phase po); try done.
    destruct (Response.ok r); simpl; by rewrite length_insert.
  - destruct (posts (rt w) !! f) as [po|]; [|done].
    destruct (phase po); try done. unfold on_post_data. simpl.
    destruct (pendingRequests (client w) !! _); simpl; by rewrite length_insert.
  - destruct (posts (rt w) !! f) as [po|]; [|done].
    destruct (phase po); try done. simpl. by rewrite length_insert.
  - destruct (streams (rt w) !! s) as [st|]; [|done].
    destruct (ended st || is_aborted (signal st) w); [done |].
    unfold stream_chunk. by destruct (SSEParser.parse chunk (parser st)).
  - destruct (streams (rt w) !! s) as [st|]; [|done]. by destruct (ended st).
  - destruct (streams (rt w) !! s) as [st|]; [|done].
    destruct (ended st); [done |]. by rewrite close_posts.
  - simpl. rewrite length_app. lia.
Qed.

Lemma Below_step (ev : Event) (w : World) : Below (step ev w) → Below w.
Proof. unfold Below. pose proof (step_posts_length ev w). lia. Qed.

Lemma Tracked_same (w w' : World) :
  posts (rt w') = posts (rt w) → promises (rt w') = promises (rt w) →
  pendingRequests (client w') = pendingRequests (client w) →
  Tracked w → Tracked w'.
Proof. intros E1 E2 E3 HT f po. rewrite E1, E2, E3. apply HT. Qed.

(** The request [q] is retired: every other request stays tracked. *)
Lemma Tracked_retire (q t : nat) (rid : string) (s : PromiseState) (w0 w : World) :
  Inv w → Below w → Tracked w →
  request_id_at w q = Some rid → s ≠ Unsettled →
  promises (rt w0) = promises (rt w) →
  pendingRequests (client w0) = pendingRequests (client w) →
  (∀ f po, f ≠ q → posts (rt w0) !! f = Some po → posts (rt w) !! f = Some po) →
  Tracked (settle q s (pending_delete rid (clearTimeout t w0))).
Proof.
  intros HI HB HT Hq Hs Ep Et Hposts f po Hpo Hp. simpl in Hpo, Hp |- *.
  rewrite Ep in Hp. destruct (decide (f = q)) as [->|Hne].
  - exfalso.
    destruct (settle_in_cases q q s (promises (rt w))) as [E|(_ & E1 & E2)].
    + rewrite E in Hp. rewrite (settle_in_unsettled q s _ Hp) in E. congruence.
    + congruence.
  - rewrite settle_in_ne in Hp by done.
    destruct (HT f po (Hposts f po Hne Hpo) Hp) as (Hph & pend & Hpend & Hrej).
    split; [done |]. exists pend. rewrite Et. split; [|done].
    rewrite lookup_delete_ne; [done |]. intros Heq.
    apply Hne. apply (Below_unique w f q rid HI HB); [|done].
    rewrite Heq. by apply posts_id_at, Hposts.
Qed.

Lemma finish_post_others (g : nat) (po : Post) (ph : Phase) (w : World)
    (f : nat) (po' : Post) :
  f ≠ g → posts (rt (set_phase g po ph w)) !! f = Some po' →
  posts (rt w) !! f = Some po'.
Proof. intros Hne. simpl. by rewrite list_lookup_insert_ne. Qed.

Lemma Tracked_on_post_rejected (f : nat) (po : Post) (e : Error.t) (w : World) :
  Inv w → Below w → Tracked w → posts (rt w) !! f = Some po →
  Tracked (on_post_rejected po e (finish_post f po w)).
Proof.
  intros HI HB HT Hpo. destruct (inv_posts w HI f po Hpo) as (Hr & _).
  unfold on_post_rejected, call_reject. rewrite Hr.
  apply (Tracked_retire f _ _ _ _ w); try done.
  - by apply posts_id_at.
  - intros g po' Hne. by apply finish_post_others.
Qed.

Lemma Tracked_set_phase (f : nat) (po : Post) (ph : Phase) (w : World) :
  posts (rt w) !! f = Some po → ph ≠ Finished →
  Tracked w → Tracked (set_phase f po ph w).
Proof.
  intros Hpo Hph HT g po' Hg Hp. simpl in Hg, Hp |- *.
  destruct (decide (g = f)) as [->|Hne].
  - rewrite list_lookup_insert_eq in Hg by (by eapply lookup_lt_Some).
    injection Hg as <-. simpl. split; [done |].
    by destruct (HT f po Hpo Hp) as (_ & H).
  - rewrite list_lookup_insert_ne in Hg by done. by apply HT.
Qed.

Lemma Tracked_on_post_data (f : nat) (po : Post) (data : JSONRPCResponse.t)
    (w : World) :
  Inv w → Below w → Tracked w → posts (rt w) !! f = Some po →
  Tracked (on_post_data po data (finish_post f po w)).
Proof.
  intros HI HB HT Hpo. unfold on_post_data.
  change (pendingRequests (client (finish_post f po w)))
    with (pendingRequests (client w)).
  destruct (pendingRequests (client w) !! JSONRPCRequest.id (request po))
    as [pend|] eqn:Et.
  - destruct (inv_pending w HI _ pend Et) as (E1 & E2 & E3 & _).
    assert (reject pend = f) as Hf.
    { apply (Below_unique w _ _ _ HI HB E3). by apply posts_id_at. }
    unfold call_resolve. rewrite E1, Hf.
    apply (Tracked_retire f _ _ _ _ w); try done.
    + by apply posts_id_at.
    + intros g po' Hne. by apply finish_post_others.
  - intros g po' Hg Hp. simpl in Hg, Hp |- *.
    destruct (decide (g = f)) as [->|Hne].
    + exfalso. destruct (HT f po Hpo Hp) as (_ & pend & Hpend & _). congruence.
    + rewrite list_lookup_insert_ne in Hg by done. by apply HT.
Qed.

Lemma Tracked_close (w : World) : Inv w → Tracked w → Tracked (close w).
Proof.
  intros HI HT f po Hpo Hp. exfalso.
  rewrite close_posts in Hpo. rewrite close_promises in Hp.
  destruct (close_loop_spec w (pendingRequests (client w)))
    as (_ & _ & _ & _ & _ & _ & _ & H8 & H9 & _).
  destruct (H8 f) as [E|(_ & E & _)]; [|congruence].
  rewrite E in Hp. destruct (HT f po Hpo Hp) as (_ & pend & Hpend & Hrej).
  specialize (H9 _ pend Hpend). rewrite Hrej in H9. specialize (H9 Hp).
  congruence.
Qed.

Lemma Tracked_sendRequest (m : string) (ps : JSON.value) (w : World) :
  Inv w → Below (snd (sendRequest m ps w)) → Tracked w →
  Tracked (snd (sendRequest m ps w)).
Proof.
  intros HI HB HT f po Hpo Hp.
  pose proof (Inv_sendRequest m ps w HI) as HI1.
  destruct (sendRequest_Waiting m ps w HI) as [_ (Wt & Wp & _ & po1 & Wpo & Wid & Wph)].
  set (w1 := snd (sendRequest m ps w)) in *.
  destruct (decide (f = length (posts (rt w)))) as [->|Hne].
  - rewrite Wpo in Hpo. injection Hpo as <-. rewrite Wph. split; [done |].
    rewrite Wid. eexists. split; [exact Wt | done].
  - assert (posts (rt w) !! f = Some po) as Hpo0.
    { unfold w1 in Hpo. simpl in Hpo.
      apply lookup_app_Some in Hpo as [?|[Hge Hpo]]; [done |].
      apply list_lookup_singleton_Some in Hpo as [Hz _]. lia. }
    assert (promises (rt w) !! f = Some Unsettled) as Hp0.
    { unfold w1 in Hp. simpl in Hp.
      apply lookup_app_Some in Hp as [?|[Hge Hp]]; [done |].
      apply list_lookup_singleton_Some in Hp as [Hz _].
      rewrite (inv_promises w HI) in *. lia. }
    destruct (HT f po Hpo0 Hp0) as (Hph & pend & Hpend & Hrej).
    split; [done |]. exists pend. split; [|done].
    unfold w1. simpl. rewrite lookup_insert_ne; [done |].
    intros Heq. apply Hne.
    apply (Below_unique w1 f (length (posts (rt w)))
             (JSONRPCRequest.id (request po)) HI1 HB).
    + by apply posts_id_at.
    + rewrite (posts_id_at w1 _ po1 Wpo), Wid. by rewrite <- Heq.
Qed.

End TrackedFacts.

Section TrackedReach.
Import MCP Lifetime Tracking.

Lemma Sound_close (w : World) :
  Inv w → (Below w → Tracked w) → Below (close w) → Tracked (close w).
Proof.
  intros HI HS HB. apply Tracked_close; [done |]. apply HS.
  unfold Below in *. by rewrite close_posts in HB.
Qed.

Lemma Sound_sendRequest (m : string) (ps : JSON.value) (w : World) :
  Inv w → (Below w → Tracked w) →
  Below (snd (sendRequest m ps w)) → Tracked (snd (sendRequest m ps w)).
Proof.
  intros HI HS HB. apply Tracked_sendRequest; [done | done |]. apply HS.
  unfold Below in *. simpl in HB. rewrite length_app in HB. lia.
Qed.

Lemma Sound_step (ev : Event) (w : World) :
  Inv w → (Below w → Tracked w) → Below (step ev w) → Tracked (step ev w).
Proof.
  intros HI HS HB'. pose proof (Below_step ev w HB') as HB.
  pose proof (HS HB) as HT.
  destruct ev as [dt|t|f|f e|f r|f data|f e|s chunk|s|s e|m ps|]; cbn [step] in *.
  - by eapply Tracked_same; [..|exact HT].
  - destruct (timers (rt w) !! t) as [[tm|]|] eqn:Et; try done.
    destruct (decide _); [|done].
    destruct (inv_armed w HI t tm Et) as [E1 E2].
    unfold on_timeout, call_reject. rewrite E1.
    by apply (Tracked_retire t t _ _ w w).
  - destruct (posts (rt w) !! f) as [po|] eqn:Ef; [|done].
    destruct (phase po); try done. destruct (decide _); [|done].
    by apply Tracked_on_post_rejected.
  - destruct (posts (rt w) !! f) as [po|] eqn:Ef; [|done].
    destruct (phase po); try done. by apply Tracked_on_post_rejected.
  - destruct (posts (rt w) !! f) as [po|] eqn:Ef; [|done].
    destruct (phase po); try done. destruct (Response.ok r).
    + by apply Tracked_set_phase.
    + by apply Tracked_on_post_rejected.
  - destruct (posts (rt w) !! f) as [po|] eqn:Ef; [|done].
    destruct (phase po); try done. by apply Tracked_on_post_data.
  - destruct (posts (rt w) !! f) as [po|] eqn:Ef; [|done].
    destruct (phase po); try done. by apply Tracked_on_post_rejected.
  - destruct (streams (rt w) !! s) as [st|]; [|done].
    destruct (ended st || is_aborted (signal st) w); [done |].
    unfold stream_chunk. destruct (SSEParser.parse chunk (parser st)).
    by eapply Tracked_same; [..|exact HT].
  - destruct (streams (rt w) !! s) as [st|]; [|done].
    destruct (ended st); [done |].
    by eapply Tracked_same; [..|exact HT].
  - destruct (streams (rt w) !! s) as [st|]; [|done].
    destruct (ended st); [done |]. apply Tracked_close.
    + eapply Inv_same; [..|exact HI]; try done. apply HI.
    + by eapply Tracked_same; [..|exact HT].
  - by apply Sound_sendRequest.
  - by apply Tracked_close.
Qed.

Lemma Sound_run (evs : list Event) (w : World) :
  Inv w → (Below w → Tracked w) → Below (run evs w) → Tracked (run evs w).
Proof.
  revert w. induction evs as [|ev evs IH]; intros w HI HS; [done |].
  simpl. apply IH; [by apply Inv_step | by apply Sound_step].
Qed.

Lemma Sound_await (p : nat) (sched : list Event) (w : World) :
  Inv w → (Below w → Tracked w) →
  Below (snd (await p sched w)) → Tracked (snd (await p sched w)).
Proof.
  revert w. induction sched as [|ev evs IH]; intros w HI HS; simpl.
  - by destruct (promises (rt w) !! p) as [[]|].
  - destruct (promises (rt w) !! p) as [[]|]; try done;
      (apply IH; [by apply Inv_step | by apply Sound_step]).
Qed.

Lemma Sound_connect (env : ConnectEnv) (w : World) :
  Inv w → (Below w → Tracked w) →
  Below (snd (connect env w)) → Tracked (snd (connect env w)).
Proof.
  intros HI HS. unfold connect, connect_catch.
  destruct (connected (client w)); [done |].
  pose proof (Inv_run (health_events env) w HI) as H1.
  pose proof (Sound_run (health_events env) w HI HS) as S1.
  destruct (fetchWithTimeout (health env) connectTimeout) as [r|e|];
    cbn [snd]; [|by apply Sound_close|done].
  destruct (negb (Response.ok r)); cbn [snd]; [by apply Sound_close |].
  pose proof (Inv_sendRequest "initialize" initialize_params _ H1) as H2.
  pose proof (Sound_sendRequest "initialize" initialize_params _ H1 S1) as S2.
  destruct (sendRequest "initialize" initialize_params
              (run (health_events env) w)) as [p w2].
  cbn [snd] in H2, S2.
  pose proof (Inv_await p (initialize_events env) w2 H2) as H3.
  pose proof (Sound_await p (initialize_events env) w2 H2 S2) as S3.
  destruct (await p (initialize_events env) w2) as [[v|e|] w3]; cbn [snd] in *;
    [|by apply Sound_close|done].
  destruct (JSONRPCResponse.error v); cbn [snd]; [by apply Sound_close |].
  intros HB. eapply Tracked_same; [..|apply S3]; done.
Qed.

Lemma Sound_listTools (sched : list Event) (w : World) :
  Inv w → (Below w → Tracked w) →
  Below (snd (listTools sched w)) → Tracked (snd (listTools sched w)).
Proof.
  intros HI HS. unfold listTools.
  destruct (negb (connected (client w))); [done |].
  pose proof (Inv_sendRequest "tools/list" (JSON.Obj []) _ HI) as H1.
  pose proof (Sound_sendRequest "tools/list" (JSON.Obj []) _ HI HS) as S1.
  destruct (sendRequest "tools/list" (JSON.Obj []) w) as [p w1].
  cbn [snd] in H1, S1.
  pose proof (Sound_await p sched w1 H1 S1) as S2.
  destruct (await p sched w1) as [[v|e|] w2]; cbn [snd] in *; try done.
  destruct (JSONRPCResponse.error v); cbn [snd]; [done |].
  by destruct (get_prop (JSONRPCResponse.result v) "tools").
Qed.

Lemma Sound_callTool (toolName : string) (args : JSON.value)
    (sched : list Event) (w : World) :
  Inv w → (Below w → Tracked w) →
  Below (snd (callTool toolName args sched w)) →
  Tracked (snd (callTool toolName args sched w)).
Proof.
  intros HI HS. unfold callTool.
  destruct (negb (connected (client w))); [done |].
  pose proof (Inv_sendRequest "tools/call"
                (JSON.Obj [("name", JSON.Str toolName); ("arguments", args)])
                _ HI) as H1.
  pose proof (Sound_sendRequest "tools/call"
                (JSON.Obj [("name", JSON.Str toolName); ("arguments", args)])
                _ HI HS) as S1.
  destruct (sendRequest "tools/call" _ w) as [p w1].
  cbn [snd] in H1, S1.
  pose proof (Sound_await p sched w1 H1 S1) as S2.
  destruct (await p sched w1) as [[v|e|] w2]; cbn [snd] in *; try done.
  by destruct (JSONRPCResponse.error v).
Qed.

Lemma reachable_Tracked (w : World) : reachable w → Below w → Tracked w.
Proof.
  induction 1 as [url t0|ev w Hr IH|env w Hr IH|sched w Hr IH|n a sched w Hr IH].
  - intros _ f po Hpo. done.
  - apply Sound_step; [by apply reachable_Inv | done].
  - apply Sound_connect; [by apply reachable_Inv | done].
  - apply Sound_listTools; [by apply reachable_Inv | done].
  - apply Sound_callTool; [by apply reachable_Inv | done].
Qed.

End TrackedReach.

(** X19.  No awaited request is lost.  In every state a client can reach
    with its counter below [2^53], a request whose promise is unsettled
    is still in the table under its own id, its post has not finished,
    and its timer is armed for that id: it can still be answered, and it
    can still time out. *)
Theorem X19_unsettled_request_is_tracked (w : MCP.World) (f : nat) :
  Lifetime.reachable w →
  (MCP.requestIdCounter (MCP.client w) < 2 ^ 53)%N →
  MCP.promises (MCP.rt w) !! f = Some MCP.Unsettled →
  ∃ po tm,
    MCP.posts (MCP.rt w) !! f = Some po
    ∧ MCP.phase po ≠ MCP.Finished
    ∧ MCP.pendingRequests (MCP.client w) !! JSONRPCRequest.id (MCP.request po)
      = Some (MCP.mkPending f f f)
    ∧ MCP.timers (MCP.rt w) !! f = Some (Some tm)
    ∧ MCP.timer_requestId tm = JSONRPCRequest.id (MCP.request po)
    ∧ MCP.timer_reject tm = f.
Proof.
  intros Hr Hc Hp. pose proof (reachable_Inv w Hr) as HI.
  assert (Tracking.Below w) as HB.
  { unfold Tracking.Below. rewrite (Lifetime.inv_counter w HI) in Hc. lia. }
  pose proof (reachable_Tracked w Hr HB) as HT.
  destruct (MCP.posts (MCP.rt w) !! f) as [po|] eqn:Hpo.
  - destruct (HT f po Hpo Hp) as (Hph & pend & Hpend & Hrej).
    destruct (Lifetime.inv_pending w HI _ pend Hpend)
      as (E1 & E2 & E3 & _ & tm & Htm).
    rewrite Hrej in *.
    destruct (Lifetime.inv_armed w HI f tm Htm) as [A1 A2].
    exists po, tm. split; [done |]. split; [done |]. split; [|split; [done |]].
    + destruct pend as [a b c]. simpl in *. by subst.
    + split; [|done]. rewrite (posts_id_at w f po Hpo) in A2. congruence.
  - exfalso. apply lookup_ge_None in Hpo. apply lookup_lt_Some in Hp.
    rewrite (Lifetime.inv_promises w HI) in Hp. lia.
Qed.

Lemma X19_unsettled_request_witness :
  ∃ po tm,
    MCP.posts (MCP.rt Example.busy) !! 1%nat = Some po
    ∧ MCP.phase po ≠ MCP.Finished
    ∧ MCP.pendingRequests (MCP.client Example.busy)
        !! JSONRPCRequest.id (MCP.request po)
      = Some (MCP.mkPending 1 1 1)
    ∧ MCP.timers (MCP.rt Example.busy) !! 1%nat = Some (Some tm)
    ∧ MCP.timer_requestId tm = JSONRPCRequest.id (MCP.request po)
    ∧ MCP.timer_reject tm = 1%nat.
Proof.
  apply (X19_unsettled_request_is_tracked Example.busy 1).
  - apply Lifetime.reach_step, Lifetime.reach_connect, Lifetime.reach_new.
  - vm_compute. reflexivity.
  - vm_compute. reflexivity.
Defined.

Section PageStatus.
Import ProcessOrder Page.

Lemma plain_keeps_status (evs : list AgentEvent) (st : PageState) :
  forallb Run.plain evs = true →
  status (fold_left (fun st ev => apply_event ev st) evs st) = status st
  ∧ errorMessage (fold_left (fun st ev => apply_event ev st) evs st)
    = errorMessage st.
Proof.
  revert st. induction evs as [|ev evs IH]; intros st H; [done |].
  simpl in H. apply andb_true_iff in H as [Hev H].
  simpl. destruct (IH (apply_event ev st) H) as [-> ->].
  by destruct ev.
Qed.

End PageStatus.

(** X20.  What the page shows after it read every event of a run tells
    how the run went: status completed and no error message when the
    [try] block returned; status error with the message of the error when
    it threw and the stream was not cancelled by then; and still status
    running, with no error message, when the stream was cancelled by then
    or an awaited call never settled. *)
Theorem X20_page_status_tells_the_outcome
    (JSON_parse : string → Error.t + JSON.value) (oracle : ProcessOrder.Oracle)
    (orderId : string) :
  let st := fold_left (fun st ev => Page.apply_event ev st)
              (ProcessOrder.events_of JSON_parse oracle orderId)
              (Page.started orderId) in
  match ProcessOrder.start_try JSON_parse oracle orderId ProcessOrder.initial with
  | (Returns _, _) =>
      Page.status st = ProcessOrder.completed ∧ Page.errorMessage st = ""
  | (Throws e, s1) =>
      if ProcessOrder.cancelled s1
      then Page.status st = ProcessOrder.running ∧ Page.errorMessage st = ""
      else Page.status st = ProcessOrder.failed
           ∧ Page.errorMessage st = Error.message e
  | (Suspends, _) =>
      Page.status st = ProcessOrder.running ∧ Page.errorMessage st = ""
  end.
Proof.
  intros st. unfold st, ProcessOrder.events_of. clear st.
  destruct (ProcessOrder.start_try JSON_parse oracle orderId ProcessOrder.initial)
    as [r s'] eqn:E.
  pose proof (start_try_shape _ _ _ _ _ E) as H. cbv zeta in H.
  destruct r as [[]|e|].
  - destruct H as (Hopen & s1 & t & (evs & cs & He & Hp & _) & Hen & _).
    rewrite (start_after_success _ _ _ _ E Hopen).
    cbn [snd ProcessOrder.enqueued].
    rewrite Hen, He. cbn [ProcessOrder.enqueued app fold_left].
    rewrite !fold_left_app. cbn [fold_left].
    destruct (plain_keeps_status evs
                (Page.apply_event
                   (ProcessOrder.EvStatus ProcessOrder.running None
                      (ProcessOrder.clock oracle 0)) (Page.started orderId)) Hp)
      as [H1 H2].
    split; [reflexivity | exact H2].
  - destruct H as (evs & cs & He & Hp & _).
    destruct (ProcessOrder.cancelled s') eqn:Hcan.
    + rewrite (start_after_cancel _ _ _ _ _ E Hcan).
      cbn [snd ProcessOrder.enqueued]. rewrite He.
      cbn [ProcessOrder.enqueued app fold_left].
      by apply plain_keeps_status.
    + rewrite (start_after_failure _ _ _ _ _ E Hcan).
      cbn [snd ProcessOrder.enqueued]. rewrite fold_left_app. simpl.
      by destruct (JSString.truthy (Error.message e)).
  - destruct H as (evs & cs & He & Hp & _).
    rewrite (start_suspended _ _ _ _ E).
    cbn [snd]. rewrite He. cbn [ProcessOrder.enqueued app fold_left].
    by apply plain_keeps_status.
Qed.

Lemma X5_timeline_upsert_witness :
  Page.entry "a"
    (Page.upsert (Page.mkTimelineEvent "b" 2 "second" ProcessOrder.step_running None)
       [Page.mkTimelineEvent "a" 1 "first" ProcessOrder.step_success None])
  = Some (Page.mkTimelineEvent "a" 1 "first" ProcessOrder.step_success None).
Proof.
  rewrite (proj1 (proj2 (X5_timeline_upsert
             (Page.mkTimelineEvent "b" 2 "second" ProcessOrder.step_running None)
             [Page.mkTimelineEvent "a" 1 "first" ProcessOrder.step_success None]))
             "a").
  - reflexivity.
  - simpl. discriminate.
Defined.
